(** * ffldb transactions (database/ffldb/transaction.go)

    A shallow embedding of the transaction type of the ffldb driver: the
    pending key overlay, the pending blocks, block region fetches, pruning
    and the commit path, together with the properties the design document
    states about them.

    Conventions.
    - A Go [uint32]/[uint64] is a [Z] with the wrap-around written out
      ([wrap32], [wrap64]); a Go [int] is a [Z].
    - A [[]byte] is a [list byte]; a [chainhash.Hash] is the list of its
      [HashSize] bytes.
    - A Go function returning [(T, error)] returns a [result T]; a panic is
      the third outcome.  Functions that touch the transaction or one of
      its collaborators thread the transaction: [transaction -> transaction
      * result T].
    - The block file store, the cache and the mdbx handles live in other
      files.  Their answers are fields of the [DB] record, and every call
      made on them is appended to [trace], in program order. *)

From Stdlib Require Import ZArith Lia Strings.Byte.
From stdpp Require Import base gmap list sorting strings.

#[global] Instance byte_eq_dec : EqDecision byte := Byte.byte_eq_dec.
#[global] Instance byte_countable : Countable byte :=
  inj_countable Byte.to_N Byte.of_N Byte.of_to_N.

Open Scope Z_scope.

(** ** Machine integers *)

Definition wrap32 (z : Z) : Z := z `mod` 2 ^ 32.
Definition wrap64 (z : Z) : Z := z `mod` 2 ^ 64.

(** [chainhash.HashSize]. *)
Definition HashSize : nat := 32%nat.

(** ** Errors and outcomes *)

Module database.

(** Modelled from the spec: the error kinds of the [database] package
    (database/error.go is not part of this file), as listed in the error
    taxonomy. *)
Inductive ErrorCode :=
| ErrTxClosed
| ErrTxNotWritable
| ErrBlockExists
| ErrBlockNotFound
| ErrBlockRegionInvalid
| ErrCorruption
| ErrDriverSpecific.

(** [database.BlockRegion]. *)
Record BlockRegion := {
  Hash : list byte;
  Offset : Z;   (* uint32 *)
  Len : Z       (* uint32 *)
}.

End database.

#[global] Instance ErrorCode_eq_dec : EqDecision database.ErrorCode.
Proof. solve_decision. Defined.

(** A Go [error] value: a [database.Error] built by [makeDbErr] (code,
    description, wrapped cause), or a plain error ([fmt.Errorf], or whatever
    a collaborator returned).  Descriptions are the source's format strings;
    the formatted arguments are not rendered. *)
#[warnings="-register-all"]
Inductive error :=
| DbError (code : database.ErrorCode) (description : string) (cause : option error)
| GoError (msg : string).

Definition makeDbErr (c : database.ErrorCode) (desc : string) (err : option error) : error :=
  DbError c desc err.

(** The kind tag of an error, when it is a [database.Error]. *)
Definition errorCode (e : error) : option database.ErrorCode :=
  match e with
  | DbError c _ _ => Some c
  | GoError _ => None
  end.

Inductive result (A : Type) :=
| Ok (a : A)
| Err (e : error)
| Panic (msg : string).
Arguments Ok {A} a.
Arguments Err {A} e.
Arguments Panic {A} msg.

Definition errTxClosedStr : string := "database tx is closed".

(** ** The collaborators *)

Module treap.

(** Modelled from the spec: [treap.Mutable] (database/internal/treap is
    not part of this file), the ordered map staging inserts and deletes.
    A stored value is a byte string; [Get] answers nil, here [None], for
    an absent key only. *)
Abbreviation Mutable := (gmap (list byte) (list byte)).

Definition Has (t : Mutable) (key : list byte) : bool :=
  bool_decide (is_Some (t !! key)).
Definition Get (t : Mutable) (key : list byte) : option (list byte) := t !! key.
Definition Put (t : Mutable) (key value : list byte) : Mutable := <[key := value]> t.
Definition Delete (t : Mutable) (key : list byte) : Mutable := delete key t.

(** Modelled from the spec: [treap.Iterator], of which the transaction
    only uses [ForceReseek]: the iterator re-seeks to its current key on
    its next movement. *)
Record Iterator := { reseek : bool }.
Definition ForceReseek (it : Iterator) : Iterator := {| reseek := true |}.

End treap.

(** [blockLocation]: where a block lives in the flat files (three uint32). *)
Record blockLocation := {
  blockFileNum : Z;
  fileOffset : Z;
  blockLen : Z
}.

(** [writeCursor]: the append position of the block file store. *)
Record WriteCursor := {
  curFileNum : Z;
  curOffset : Z
}.

(** Calls made on the collaborators. *)
Inductive event :=
| EvDeleteFile (fileNum : Z)
| EvWriteBlock (height : Z) (payload : list byte)
| EvHandleRollback (fileNum offset : Z)
| EvReadBlock (hash : list byte) (loc : blockLocation)
| EvReadBlockRegion (loc : blockLocation) (offset len : Z)
| EvCommitTx
| EvMdbCommit
| EvMdbRollback
| EvSnapshotRelease
| EvCloseLockRUnlock
| EvWriteLockUnlock.

(** Modelled from the spec: the contract of the block file store
    (blockio.go is not part of this file).  The read and delete answers
    depend on what is on disk; [writeBlock] appends at the cursor it is
    given and answers the cursor it leaves behind, also when it fails. *)
Record blockStore := {
  maxBlockFileSize : Z;  (* uint32 *)
  scanBlockFiles : result (Z * Z * Z);  (* of basePath: first, last, lastFileSize *)
  deleteFileFunc : Z -> option error;
  writeBlock : WriteCursor -> Z -> list byte -> WriteCursor * result blockLocation;
  readBlock : list byte -> blockLocation -> result (list byte);
  readBlockRegion : blockLocation -> Z -> Z -> result (list byte);
  writeCursor : WriteCursor
}.

(** Modelled from the spec: the cache (dbcache.go is not part of this
    file): the current committed tree, and the answer of the backend to
    the flush of a commit. *)
Record dbCache := {
  cacheRoot : gmap (list byte) (list byte);
  backendFlush : gmap (list byte) (list byte) -> gmap (list byte) (list byte) -> option error
}.

Record DB := {
  store : blockStore;
  cache : dbCache;
  trace : list event
}.

(** Modelled from the spec: a paired mdbx handle, of which the transaction
    uses [Commit] and [Rollback]. *)
Record mdbTx := { mdbCommit : option error }.

Module btcutil.

(** Modelled from the spec: [btcutil.Block], through the three methods
    [StoreBlock] calls on it.  A block serializes to at least its
    header, so [Bytes] never answers a nil slice. *)
Record Block := {
  Hash : list byte;
  Bytes : result (list byte);
  Height : Z  (* int32 *)
}.

End btcutil.

(** ** The transaction *)

(** [bulkFetchData]: a block location with the index it was requested from. *)
Record bulkFetchData := {
  location : blockLocation;
  replyIndex : nat
}.

(** [pendingBlock]. *)
Record pendingBlock := {
  hash : list byte;
  bytes : list byte;
  height : Z
}.

(** [transaction].  The two buckets a transaction carries are the constant
    views [metaBucket] and [blockIdxBucket] below.  A nil [pendingBlocks]
    map is [None]; the treaps and slices that [close] drops are empty; a
    released snapshot is [None]. *)
Record transaction := {
  managed : bool;
  closed : bool;
  writable : bool;
  db : DB;
  snapshot : option (gmap (list byte) (list byte));
  pendingBlocks : option (gmap (list byte) nat);
  pendingBlockData : list pendingBlock;
  pendingDelFileNums : list Z;
  pendingKeys : treap.Mutable;
  pendingRemove : treap.Mutable;
  activeIters : list treap.Iterator;
  mdbRoTx : option mdbTx;
  mdbRwTx : option mdbTx
}.

Definition set_closed (v : bool) (tx : transaction) : transaction :=
  {| managed := managed tx; closed := v; writable := writable tx; db := db tx;
     snapshot := snapshot tx; pendingBlocks := pendingBlocks tx;
     pendingBlockData := pendingBlockData tx;
     pendingDelFileNums := pendingDelFileNums tx;
     pendingKeys := pendingKeys tx; pendingRemove := pendingRemove tx;
     activeIters := activeIters tx; mdbRoTx := mdbRoTx tx; mdbRwTx := mdbRwTx tx |}.

Definition set_managed (v : bool) (tx : transaction) : transaction :=
  {| managed := v; closed := closed tx; writable := writable tx; db := db tx;
     snapshot := snapshot tx; pendingBlocks := pendingBlocks tx;
     pendingBlockData := pendingBlockData tx;
     pendingDelFileNums := pendingDelFileNums tx;
     pendingKeys := pendingKeys tx; pendingRemove := pendingRemove tx;
     activeIters := activeIters tx; mdbRoTx := mdbRoTx tx; mdbRwTx := mdbRwTx tx |}.

Definition set_db (v : DB) (tx : transaction) : transaction :=
  {| managed := managed tx; closed := closed tx; writable := writable tx; db := v;
     snapshot := snapshot tx; pendingBlocks := pendingBlocks tx;
     pendingBlockData := pendingBlockData tx;
     pendingDelFileNums := pendingDelFileNums tx;
     pendingKeys := pendingKeys tx; pendingRemove := pendingRemove tx;
     activeIters := activeIters tx; mdbRoTx := mdbRoTx tx; mdbRwTx := mdbRwTx tx |}.

Definition set_snapshot (v : option (gmap (list byte) (list byte))) (tx : transaction) : transaction :=
  {| managed := managed tx; closed := closed tx; writable := writable tx; db := db tx;
     snapshot := v; pendingBlocks := pendingBlocks tx;
     pendingBlockData := pendingBlockData tx;
     pendingDelFileNums := pendingDelFileNums tx;
     pendingKeys := pendingKeys tx; pendingRemove := pendingRemove tx;
     activeIters := activeIters tx; mdbRoTx := mdbRoTx tx; mdbRwTx := mdbRwTx tx |}.

Definition set_pendingBlocks (v : option (gmap (list byte) nat)) (tx : transaction) : transaction :=
  {| managed := managed tx; closed := closed tx; writable := writable tx; db := db tx;
     snapshot := snapshot tx; pendingBlocks := v;
     pendingBlockData := pendingBlockData tx;
     pendingDelFileNums := pendingDelFileNums tx;
     pendingKeys := pendingKeys tx; pendingRemove := pendingRemove tx;
     activeIters := activeIters tx; mdbRoTx := mdbRoTx tx; mdbRwTx := mdbRwTx tx |}.

Definition set_pendingBlockData (v : list pendingBlock) (tx : transaction) : transaction :=
  {| managed := managed tx; closed := closed tx; writable := writable tx; db := db tx;
     snapshot := snapshot tx; pendingBlocks := pendingBlocks tx;
     pendingBlockData := v;
     pendingDelFileNums := pendingDelFileNums tx;
     pendingKeys := pendingKeys tx; pendingRemove := pendingRemove tx;
     activeIters := activeIters tx; mdbRoTx := mdbRoTx tx; mdbRwTx := mdbRwTx tx |}.

Definition set_pendingDelFileNums (v : list Z) (tx : transaction) : transaction :=
  {| managed := managed tx; closed := closed tx; writable := writable tx; db := db tx;
     snapshot := snapshot tx; pendingBlocks := pendingBlocks tx;
     pendingBlockData := pendingBlockData tx;
     pendingDelFileNums := v;
     pendingKeys := pendingKeys tx; pendingRemove := pendingRemove tx;
     activeIters := activeIters tx; mdbRoTx := mdbRoTx tx; mdbRwTx := mdbRwTx tx |}.

Definition set_pendingKeys (v : treap.Mutable) (tx : transaction) : transaction :=
  {| managed := managed tx; closed := closed tx; writable := writable tx; db := db tx;
     snapshot := snapshot tx; pendingBlocks := pendingBlocks tx;
     pendingBlockData := pendingBlockData tx;
     pendingDelFileNums := pendingDelFileNums tx;
     pendingKeys := v; pendingRemove := pendingRemove tx;
     activeIters := activeIters tx; mdbRoTx := mdbRoTx tx; mdbRwTx := mdbRwTx tx |}.

Definition set_pendingRemove (v : treap.Mutable) (tx : transaction) : transaction :=
  {| managed := managed tx; closed := closed tx; writable := writable tx; db := db tx;
     snapshot := snapshot tx; pendingBlocks := pendingBlocks tx;
     pendingBlockData := pendingBlockData tx;
     pendingDelFileNums := pendingDelFileNums tx;
     pendingKeys := pendingKeys tx; pendingRemove := v;
     activeIters := activeIters tx; mdbRoTx := mdbRoTx tx; mdbRwTx := mdbRwTx tx |}.

Definition set_activeIters (v : list treap.Iterator) (tx : transaction) : transaction :=
  {| managed := managed tx; closed := closed tx; writable := writable tx; db := db tx;
     snapshot := snapshot tx; pendingBlocks := pendingBlocks tx;
     pendingBlockData := pendingBlockData tx;
     pendingDelFileNums := pendingDelFileNums tx;
     pendingKeys := pendingKeys tx; pendingRemove := pendingRemove tx;
     activeIters := v; mdbRoTx := mdbRoTx tx; mdbRwTx := mdbRwTx tx |}.

Definition set_mdbRoTx (v : option mdbTx) (tx : transaction) : transaction :=
  {| managed := managed tx; closed := closed tx; writable := writable tx; db := db tx;
     snapshot := snapshot tx; pendingBlocks := pendingBlocks tx;
     pendingBlockData := pendingBlockData tx;
     pendingDelFileNums := pendingDelFileNums tx;
     pendingKeys := pendingKeys tx; pendingRemove := pendingRemove tx;
     activeIters := activeIters tx; mdbRoTx := v; mdbRwTx := mdbRwTx tx |}.

Definition set_mdbRwTx (v : option mdbTx) (tx : transaction) : transaction :=
  {| managed := managed tx; closed := closed tx; writable := writable tx; db := db tx;
     snapshot := snapshot tx; pendingBlocks := pendingBlocks tx;
     pendingBlockData := pendingBlockData tx;
     pendingDelFileNums := pendingDelFileNums tx;
     pendingKeys := pendingKeys tx; pendingRemove := pendingRemove tx;
     activeIters := activeIters tx; mdbRoTx := mdbRoTx tx; mdbRwTx := v |}.

(** Appends a call on a collaborator to the trace. *)
Definition emit (e : event) (tx : transaction) : transaction :=
  set_db {| store := store (db tx); cache := cache (db tx);
            trace := trace (db tx) ++ [e] |} tx.

Definition set_writeCursor (wc : WriteCursor) (tx : transaction) : transaction :=
  let s := store (db tx) in
  set_db {| store := {| maxBlockFileSize := maxBlockFileSize s;
                        scanBlockFiles := scanBlockFiles s;
                        deleteFileFunc := deleteFileFunc s;
                        writeBlock := writeBlock s;
                        readBlock := readBlock s;
                        readBlockRegion := readBlockRegion s;
                        writeCursor := wc |};
            cache := cache (db tx); trace := trace (db tx) |} tx.

Definition set_cacheRoot (root : gmap (list byte) (list byte)) (tx : transaction) : transaction :=
  set_db {| store := store (db tx);
            cache := {| cacheRoot := root; backendFlush := backendFlush (cache (db tx)) |};
            trace := trace (db tx) |} tx.

(** Modelled from the spec: [dbCacheSnapshot.Has] and [Get] (dbcache.go is
    not part of this file), the immutable view of the committed keys. *)
Definition snapshotHas (s : option (gmap (list byte) (list byte))) (key : list byte) : bool :=
  match s with
  | Some root => bool_decide (is_Some (root !! key))
  | None => false
  end.

Definition snapshotGet (s : option (gmap (list byte) (list byte))) (key : list byte)
  : option (list byte) :=
  match s with
  | Some root => root !! key
  | None => None
  end.

(** [notifyActiveIters]. *)
Definition notifyActiveIters (tx : transaction) : transaction :=
  set_activeIters (treap.ForceReseek <$> activeIters tx) tx.

(** [checkClosed]: the error, if any. *)
Definition checkClosed (tx : transaction) : option error :=
  if closed tx then Some (makeDbErr database.ErrTxClosed errTxClosedStr None)
  else None.

(** [hasKey]. *)
Definition hasKey (tx : transaction) (key : list byte) : bool :=
  if writable tx then
    if treap.Has (pendingRemove tx) key then false
    else if treap.Has (pendingKeys tx) key then true
    else snapshotHas (snapshot tx) key
  else snapshotHas (snapshot tx) key.

(** [putKey]; the error it returns is always nil. *)
Definition putKey (tx : transaction) (key value : list byte) : transaction :=
  let tx := set_pendingRemove (treap.Delete (pendingRemove tx) key) tx in
  let tx := set_pendingKeys (treap.Put (pendingKeys tx) key value) tx in
  notifyActiveIters tx.

(** [fetchKey]; nil is [None]. *)
Definition fetchKey (tx : transaction) (key : list byte) : option (list byte) :=
  if writable tx then
    if treap.Has (pendingRemove tx) key then None
    else match treap.Get (pendingKeys tx) key with
         | Some value => Some value
         | None => snapshotGet (snapshot tx) key
         end
  else snapshotGet (snapshot tx) key.

(** [deleteKey]. *)
Definition deleteKey (tx : transaction) (key : list byte) (notifyIterators : bool)
  : transaction :=
  let tx := set_pendingKeys (treap.Delete (pendingKeys tx) key) tx in
  let tx := set_pendingRemove (treap.Put (pendingRemove tx) key []) tx in
  if notifyIterators then notifyActiveIters tx else tx.

(** The pending key sets share no key. *)
Definition pendingDisjoint (tx : transaction) : Prop :=
  forall k, ~ (is_Some (pendingKeys tx !! k) /\ is_Some (pendingRemove tx !! k)).

(** ** The bulk fetch sorter *)

(** [bulkFetchDataSorter.Less], on two items of the slice. *)
Definition lessData (a b : bulkFetchData) : bool :=
  if blockFileNum (location a) <? blockFileNum (location b) then true
  else if blockFileNum (location b) <? blockFileNum (location a) then false
  else fileOffset (location a) <? fileOffset (location b).

(** [bulkFetchDataSorter.Less]; an index out of range panics ([None]). *)
Definition Less (s : list bulkFetchData) (i j : nat) : option bool :=
  match s !! i, s !! j with
  | Some a, Some b => Some (lessData a b)
  | _, _ => None
  end.

(** Sorted for [sort.Sort]: no later item sorts before an earlier one. *)
Definition fetchLe (a b : bulkFetchData) : Prop := lessData b a = false.

#[global] Instance fetchLe_dec : RelDecision fetchLe.
Proof. intros a b. unfold fetchLe. apply _. Defined.

Definition fetchSorted (l : list bulkFetchData) : Prop :=
  StronglySorted fetchLe l.

(** ** Constants and helpers defined in other files of the driver *)

(** What [transaction.go] takes from the rest of the driver and from the
    Go library without this file fixing it: the bucket ids and reserved
    keys, the row codecs, the error conversion, and [sort.Sort], which
    promises an ascending rearrangement and no stability. *)
Class Externals := {
  metadataBucketID : list byte;
  blockIdxBucketID : list byte;
  writeLocKeyName : list byte;
  blockHdrSize : Z;
  deserializeBlockLoc : list byte -> result blockLocation;
  serializeBlockLoc : blockLocation -> list byte;
  serializeWriteRow : Z -> Z -> list byte;
  convertErr : string -> error -> error;
  sortFetchList : list bulkFetchData -> list bulkFetchData;
  sortFetchList_perm : forall l, sortFetchList l ≡ₚ l;
  sortFetchList_sorted : forall l, fetchSorted (sortFetchList l)
}.

(** Modelled from the spec: [bucketizedKey] (bucket.go is not part of this
    file): keys are physically stored as the bucket id followed by the
    user key. *)
Definition bucketizedKey (bucketID key : list byte) : list byte := bucketID ++ key.

(** Modelled from the spec: a bucket is the view [(tx, id)]; the
    transaction is passed along. *)
Record bucket := { id : list byte }.

(** [bytes.Compare a b <= 0]: the order of the keys. *)
Fixpoint bytesLe (a b : list byte) : bool :=
  match a, b with
  | [], _ => true
  | _ :: _, [] => false
  | x :: a', y :: b' =>
      if (Byte.to_N x <? Byte.to_N y)%N then true
      else if (Byte.to_N y <? Byte.to_N x)%N then false
      else bytesLe a' b'
  end.

Fixpoint hasPrefix (p k : list byte) : bool :=
  match p, k with
  | [], _ => true
  | _ :: _, [] => false
  | x :: p', y :: k' => bool_decide (x = y) && hasPrefix p' k'
  end.

(** The conversion of a key slice to a [chainhash.Hash] array: the first
    [HashSize] bytes of the slice; the conversion panics ([None]) on a
    shorter one. *)
Definition hashOfKey (key : list byte) : option (list byte) :=
  if (length key <? HashSize)%nat then None else Some (take HashSize key).

Section transaction.

Context `{Externals}.

Definition metaBucket : bucket := {| id := metadataBucketID |}.
Definition blockIdxBucket : bucket := {| id := blockIdxBucketID |}.

(** Modelled from the spec: [bucket.Get] delegates to [fetchKey] with the
    prefix applied; like every public method it looks at [closed] first,
    and answers nil on a closed transaction. *)
Definition bucketGet (tx : transaction) (b : bucket) (key : list byte)
  : option (list byte) :=
  match checkClosed tx with
  | Some _ => None
  | None => fetchKey tx (bucketizedKey (id b) key)
  end.

(** Modelled from the spec: [bucket.Put] requires an open, writable
    transaction and delegates to [putKey] with the prefix applied. *)
Definition bucketPut (tx : transaction) (b : bucket) (key value : list byte)
  : transaction * option error :=
  match checkClosed tx with
  | Some err => (tx, Some err)
  | None =>
      if negb (writable tx) then
        (tx, Some (makeDbErr database.ErrTxNotWritable
                     "setting a key requires a writable database transaction" None))
      else (putKey tx (bucketizedKey (id b) key) value, None)
  end.

(** Modelled from the spec: the keys a cursor over the bucket meets, in
    sorted order: the snapshot and [pendingKeys] restricted to the
    bucket's prefix, [pendingRemove] hiding keys. *)
Definition bucketKeys (tx : transaction) (b : bucket) : list (list byte) :=
  merge_sort (fun a b => bytesLe a b)
    (filter (fun k => hasPrefix (id b) k && hasKey tx k)
       (elements (dom (default ∅ (snapshot tx)) ∪ dom (pendingKeys tx)))).

(** Modelled from the spec: the walk [for ok := cursor.First(); ok; ok =
    cursor.Next()] of a cursor (bucket.go is not part of this file), as the
    [(cursor.Key(), cursor.Value())] pairs it meets; the key is the user
    key, without the bucket id.  Deleting the entry under the cursor
    leaves the entries after it in place. *)
Definition cursorEntries (tx : transaction) (b : bucket)
  : list (list byte * list byte) :=
  omap (fun k => (fun v => (drop (length (id b)) k, v)) <$> fetchKey tx k)
    (bucketKeys tx b).

(** [addActiveIter]. *)
Definition addActiveIter (tx : transaction) (iter : treap.Iterator) : transaction :=
  set_activeIters (activeIters tx ++ [iter]) tx.

(** Modelled from the spec: [bucket.Cursor] (bucket.go is not part of this
    file); creating a cursor registers its iterator over the pending keys
    with the transaction. *)
Definition bucketCursor (tx : transaction) (b : bucket) : transaction :=
  addActiveIter tx {| treap.reseek := false |}.

(** Modelled from the spec: [cursor.Delete] removes the key under the
    cursor through the pending overlay, notifying the iterators. *)
Definition cursorDelete (tx : transaction) (b : bucket) (key : list byte)
  : transaction * option error :=
  match checkClosed tx with
  | Some err => (tx, Some err)
  | None => (deleteKey tx (bucketizedKey (id b) key) true, None)
  end.

(** ** Blocks *)

(** [tx.pendingBlocks[hash]]; a nil map holds nothing. *)
Definition pendingIndex (tx : transaction) (h : list byte) : option nat :=
  match pendingBlocks tx with
  | Some m => m !! h
  | None => None
  end.

(** [hasBlock]. *)
Definition hasBlock (tx : transaction) (h : list byte) : bool :=
  match pendingIndex tx h with
  | Some _ => true
  | None => hasKey tx (bucketizedKey blockIdxBucketID h)
  end.

(** [StoreBlock]. *)
Definition StoreBlock (tx : transaction) (block : btcutil.Block)
  : transaction * result unit :=
  match checkClosed tx with
  | Some err => (tx, Err err)
  | None =>
      if negb (writable tx) then
        (tx, Err (makeDbErr database.ErrTxNotWritable
                    "store block requires a writable database transaction" None))
      else
        let blockHash := btcutil.Hash block in
        if hasBlock tx blockHash then
          (tx, Err (makeDbErr database.ErrBlockExists "block %s already exists" None))
        else
          match btcutil.Bytes block with
          | Err err =>
              (tx, Err (makeDbErr database.ErrDriverSpecific
                          "failed to get serialized bytes for block %s" (Some err)))
          | Panic msg => (tx, Panic msg)
          | Ok blockBytes =>
              let tx := match pendingBlocks tx with
                        | None => set_pendingBlocks (Some ∅) tx
                        | Some _ => tx
                        end in
              let tx := set_pendingBlocks
                          (Some (<[blockHash := length (pendingBlockData tx)]>
                                   (default ∅ (pendingBlocks tx)))) tx in
              let tx := set_pendingBlockData
                          (pendingBlockData tx ++
                             [{| hash := blockHash; bytes := blockBytes;
                                 height := btcutil.Height block |}]) tx in
              (tx, Ok tt)
          end
  end.

(** [HasBlock]. *)
Definition HasBlock (tx : transaction) (h : list byte) : transaction * result bool :=
  match checkClosed tx with
  | Some err => (tx, Err err)
  | None => (tx, Ok (hasBlock tx h))
  end.

(** [HasBlocks]. *)
Definition HasBlocks (tx : transaction) (hashes : list (list byte))
  : transaction * result (list bool) :=
  match checkClosed tx with
  | Some err => (tx, Err err)
  | None => (tx, Ok (hasBlock tx <$> hashes))
  end.

(** [fetchBlockRow]. *)
Definition fetchBlockRow (tx : transaction) (h : list byte) : result (list byte) :=
  match bucketGet tx blockIdxBucket h with
  | None => Err (makeDbErr database.ErrBlockNotFound "block %s does not exist" None)
  | Some blockRow => Ok blockRow
  end.

(** [FetchBlock]. *)
Definition FetchBlock (tx : transaction) (h : list byte)
  : transaction * result (list byte) :=
  match checkClosed tx with
  | Some err => (tx, Err err)
  | None =>
      match pendingIndex tx h with
      | Some idx =>
          match pendingBlockData tx !! idx with
          | Some pb => (tx, Ok (bytes pb))
          | None => (tx, Panic "index out of range")
          end
      | None =>
          match fetchBlockRow tx h with
          | Err err => (tx, Err err)
          | Panic msg => (tx, Panic msg)
          | Ok blockRow =>
              match deserializeBlockLoc blockRow with
              | Err err => (tx, Err err)
              | Panic msg => (tx, Panic msg)
              | Ok location =>
                  let tx := emit (EvReadBlock h location) tx in
                  (tx, readBlock (store (db tx)) h location)
              end
          end
      end
  end.

(** The loop of [FetchBlocks]. *)
Fixpoint fetchBlocksLoop (tx : transaction) (hashes : list (list byte))
    (blocks : list (list byte)) : transaction * result (list (list byte)) :=
  match hashes with
  | [] => (tx, Ok blocks)
  | h :: rest =>
      match FetchBlock tx h with
      | (tx, Ok b) => fetchBlocksLoop tx rest (blocks ++ [b])
      | (tx, Err err) => (tx, Err err)
      | (tx, Panic msg) => (tx, Panic msg)
      end
  end.

(** [FetchBlocks]. *)
Definition FetchBlocks (tx : transaction) (hashes : list (list byte))
  : transaction * result (list (list byte)) :=
  match checkClosed tx with
  | Some err => (tx, Err err)
  | None => fetchBlocksLoop tx hashes []
  end.

(** ** Block regions *)

Definition errRegionStr : string :=
  "block %s region offset %d, length %d exceeds block length of %d".

(** [fetchPendingRegion]; a nil slice is [None]. *)
Definition fetchPendingRegion (tx : transaction) (region : database.BlockRegion)
  : result (option (list byte)) :=
  match pendingIndex tx (database.Hash region) with
  | None => Ok None
  | Some idx =>
      match pendingBlockData tx !! idx with
      | None => Panic "index out of range"
      | Some pb =>
          let blockBytes := bytes pb in
          let blockLen := wrap32 (Z.of_nat (length blockBytes)) in
          let endOffset := wrap32 (database.Offset region + database.Len region) in
          if (endOffset <? database.Offset region) || (blockLen <? endOffset) then
            Err (makeDbErr database.ErrBlockRegionInvalid errRegionStr None)
          else
            Ok (Some (take (Z.to_nat (endOffset - database.Offset region))
                        (drop (Z.to_nat (database.Offset region)) blockBytes)))
      end
  end.

(** The pending part of the region fetches, guarded by
    [tx.pendingBlocks != nil]. *)
Definition pendingRegion (tx : transaction) (region : database.BlockRegion)
  : result (option (list byte)) :=
  match pendingBlocks tx with
  | Some _ => fetchPendingRegion tx region
  | None => Ok None
  end.

(** [FetchBlockRegion]. *)
Definition FetchBlockRegion (tx : transaction) (region : database.BlockRegion)
  : transaction * result (list byte) :=
  match checkClosed tx with
  | Some err => (tx, Err err)
  | None =>
      match pendingRegion tx region with
      | Err err => (tx, Err err)
      | Panic msg => (tx, Panic msg)
      | Ok (Some regionBytes) => (tx, Ok regionBytes)
      | Ok None =>
          match fetchBlockRow tx (database.Hash region) with
          | Err err => (tx, Err err)
          | Panic msg => (tx, Panic msg)
          | Ok blockRow =>
              match deserializeBlockLoc blockRow with
              | Err err =>
                  (tx, Err (makeDbErr database.ErrBlockRegionInvalid
                              "no data for: %s " (Some err)))
              | Panic msg => (tx, Panic msg)
              | Ok location =>
                  let endOffset :=
                    wrap32 (database.Offset region + database.Len region) in
                  if (endOffset <? database.Offset region)
                     || (blockLen location <? endOffset) then
                    (tx, Err (makeDbErr database.ErrBlockRegionInvalid errRegionStr None))
                  else
                    let tx := emit (EvReadBlockRegion location (database.Offset region)
                                      (database.Len region)) tx in
                    (tx, readBlockRegion (store (db tx)) location
                           (database.Offset region) (database.Len region))
              end
          end
      end
  end.

(** What the first loop of [FetchBlockRegions] makes of one region: its
    bytes, taken from the pending blocks, or the location to read them
    from. *)
Inductive resolved :=
| Inline (regionBytes : list byte)
| FromDisk (location : blockLocation).

(** The body of the first loop of [FetchBlockRegions]. *)
Definition resolveRegion (tx : transaction) (region : database.BlockRegion)
  : result resolved :=
  match pendingRegion tx region with
  | Err err => Err err
  | Panic msg => Panic msg
  | Ok (Some regionBytes) => Ok (Inline regionBytes)
  | Ok None =>
      match fetchBlockRow tx (database.Hash region) with
      | Err err => Err err
      | Panic msg => Panic msg
      | Ok blockRow =>
          match deserializeBlockLoc blockRow with
          | Err err => Err err
          | Panic msg => Panic msg
          | Ok location =>
              let endOffset :=
                wrap32 (database.Offset region + database.Len region) in
              if (endOffset <? database.Offset region)
                 || (blockLen location <? endOffset) then
                Err (makeDbErr database.ErrBlockRegionInvalid errRegionStr None)
              else Ok (FromDisk location)
          end
      end
  end.

(** The first loop of [FetchBlockRegions]: region [i] is answered from the
    pending blocks, or resolved to a location and queued. *)
Fixpoint resolveRegions (tx : transaction) (regions : list database.BlockRegion)
    (i : nat) (blockRegions : list (list byte)) (fetchList : list bulkFetchData)
  : result (list (list byte) * list bulkFetchData) :=
  match regions with
  | [] => Ok (blockRegions, fetchList)
  | region :: rest =>
      match resolveRegion tx region with
      | Err err => Err err
      | Panic msg => Panic msg
      | Ok (Inline regionBytes) =>
          resolveRegions tx rest (S i) (<[i := regionBytes]> blockRegions) fetchList
      | Ok (FromDisk location) =>
          resolveRegions tx rest (S i) blockRegions
            (fetchList ++ [{| location := location; replyIndex := i |}])
      end
  end.

(** The second loop of [FetchBlockRegions]: the reads, in list order. *)
Fixpoint readFetchList (tx : transaction) (regions : list database.BlockRegion)
    (fetchList : list bulkFetchData) (blockRegions : list (list byte))
  : transaction * result (list (list byte)) :=
  match fetchList with
  | [] => (tx, Ok blockRegions)
  | fetchData :: rest =>
      let ri := replyIndex fetchData in
      match regions !! ri with
      | None => (tx, Panic "index out of range")
      | Some region =>
          let location := location fetchData in
          let tx := emit (EvReadBlockRegion location (database.Offset region)
                            (database.Len region)) tx in
          match readBlockRegion (store (db tx)) location
                  (database.Offset region) (database.Len region) with
          | Err err => (tx, Err err)
          | Panic msg => (tx, Panic msg)
          | Ok regionBytes =>
              readFetchList tx regions rest (<[ri := regionBytes]> blockRegions)
          end
      end
  end.

(** [FetchBlockRegions]. *)
Definition FetchBlockRegions (tx : transaction) (regions : list database.BlockRegion)
  : transaction * result (list (list byte)) :=
  match checkClosed tx with
  | Some err => (tx, Err err)
  | None =>
      let blockRegions := replicate (length regions) [] in
      match resolveRegions tx regions 0 blockRegions [] with
      | Err err => (tx, Err err)
      | Panic msg => (tx, Panic msg)
      | Ok (blockRegions, fetchList) =>
          readFetchList tx regions (sortFetchList fetchList) blockRegions
      end
  end.

(** [FetchBlockHeader]. *)
Definition FetchBlockHeader (tx : transaction) (h : list byte)
  : transaction * result (list byte) :=
  FetchBlockRegion tx
    {| database.Hash := h; database.Offset := 0; database.Len := blockHdrSize |}.

(** [FetchBlockHeaders]. *)
Definition FetchBlockHeaders (tx : transaction) (hashes : list (list byte))
  : transaction * result (list (list byte)) :=
  FetchBlockRegions tx
    ((fun h => {| database.Hash := h; database.Offset := 0;
                  database.Len := blockHdrSize |}) <$> hashes).

(** ** Closing *)

(** [closeMdbTxs]. *)
Definition closeMdbTxs (tx : transaction) : transaction :=
  let tx := match mdbRoTx tx with
            | Some _ => set_mdbRoTx None (emit EvMdbRollback tx)
            | None => tx
            end in
  match mdbRwTx tx with
  | Some _ => set_mdbRwTx None (emit EvMdbRollback tx)
  | None => tx
  end.

(** [close].  The two locks it releases were taken when the transaction
    began; the releases are recorded in the trace. *)
Definition close (tx : transaction) : transaction :=
  let tx := set_closed true tx in
  let tx := set_pendingBlocks None tx in
  let tx := set_pendingBlockData [] tx in
  let tx := set_pendingDelFileNums [] tx in
  let tx := set_pendingKeys ∅ tx in
  let tx := set_pendingRemove ∅ tx in
  let tx := closeMdbTxs tx in
  let tx := match snapshot tx with
            | Some _ => set_snapshot None (emit EvSnapshotRelease tx)
            | None => tx
            end in
  let tx := emit EvCloseLockRUnlock tx in
  if writable tx then emit EvWriteLockUnlock tx else tx.

(** ** Commit *)

(** Modelled from the spec: [store.handleRollback] (blockio.go is not
    part of this file) truncates the append log back to the given write
    position. *)
Definition handleRollback (tx : transaction) (oldBlockFileNum oldBlockOffset : Z)
  : transaction :=
  set_writeCursor {| curFileNum := oldBlockFileNum; curOffset := oldBlockOffset |}
    (emit (EvHandleRollback oldBlockFileNum oldBlockOffset) tx).

(** Modelled from the spec: [cache.commitTx] (dbcache.go is not part of
    this file) merges the pending keys into the current tree, removals
    first, and flushes through the backend; when the backend fails the
    root is not swapped. *)
Definition commitTx (tx : transaction) : transaction * result unit :=
  let tx := emit EvCommitTx tx in
  match backendFlush (cache (db tx)) (pendingKeys tx) (pendingRemove tx) with
  | Some err => (tx, Err err)
  | None =>
      (set_cacheRoot
         (pendingKeys tx ∪ (cacheRoot (cache (db tx)) ∖ pendingRemove tx)) tx,
       Ok tt)
  end.

(** The first loop of [writePendingAndCommit]: the pending file
    deletions. *)
Fixpoint deletePendingFiles (tx : transaction) (fileNums : list Z)
  : transaction * option error :=
  match fileNums with
  | [] => (tx, None)
  | fileNum :: rest =>
      let tx := emit (EvDeleteFile fileNum) tx in
      match deleteFileFunc (store (db tx)) fileNum with
      | Some err => (tx, Some err)
      | None => deletePendingFiles tx rest
      end
  end.

(** The second loop of [writePendingAndCommit]: the pending blocks.
    [rollback] is the closure over the saved write position. *)
Fixpoint writePendingBlocks (tx : transaction) (rollback : transaction -> transaction)
    (blocks : list pendingBlock) : transaction * result unit :=
  match blocks with
  | [] => (tx, Ok tt)
  | blockData :: rest =>
      let tx := emit (EvWriteBlock (height blockData) (bytes blockData)) tx in
      let '(wc, r) := writeBlock (store (db tx)) (writeCursor (store (db tx)))
                        (height blockData) (bytes blockData) in
      let tx := set_writeCursor wc tx in
      match r with
      | Err err => (rollback tx, Err err)
      | Panic msg => (tx, Panic msg)
      | Ok location =>
          let blockRow := serializeBlockLoc location in
          match bucketPut tx blockIdxBucket (hash blockData) blockRow with
          | (tx, Some err) => (rollback tx, Err err)
          | (tx, None) => writePendingBlocks tx rollback rest
          end
      end
  end.

(** [writePendingAndCommit]. *)
Definition writePendingAndCommit (tx : transaction) : transaction * result unit :=
  match deletePendingFiles tx (pendingDelFileNums tx) with
  | (tx, Some err) => (tx, Err err)
  | (tx, None) =>
      let wc := writeCursor (store (db tx)) in
      let oldBlkFileNum := curFileNum wc in
      let oldBlkOffset := curOffset wc in
      let rollback := fun tx => handleRollback tx oldBlkFileNum oldBlkOffset in
      match writePendingBlocks tx rollback (pendingBlockData tx) with
      | (tx, Err err) => (tx, Err err)
      | (tx, Panic msg) => (tx, Panic msg)
      | (tx, Ok _) =>
          let wc := writeCursor (store (db tx)) in
          let writeRow := serializeWriteRow (curFileNum wc) (curOffset wc) in
          match bucketPut tx metaBucket writeLocKeyName writeRow with
          | (tx, Some err) =>
              (rollback tx, Err (convertErr "failed to store write cursor" err))
          | (tx, None) => commitTx tx
          end
      end
  end.

(** [Commit]; the deferred [close] runs whatever the outcome. *)
Definition Commit (tx : transaction) : transaction * result unit :=
  if managed tx then
    (close tx, Panic "managed transaction commit not allowed")
  else
    match checkClosed tx with
    | Some err => (tx, Err err)
    | None =>
        let '(tx, r) :=
          if negb (writable tx) then
            (tx, Err (makeDbErr database.ErrTxNotWritable
                        "Commit requires a writable database transaction" None))
          else
            match writePendingAndCommit tx with
            | (tx, Ok _) =>
                match mdbRwTx tx with
                | Some h =>
                    let tx := emit EvMdbCommit tx in
                    match mdbCommit h with
                    | Some err => (tx, Err err)
                    | None => (tx, Ok tt)
                    end
                | None => (tx, Ok tt)
                end
            | (tx, r) => (tx, r)
            end in
        (close tx, r)
    end.

(** [Rollback]. *)
Definition Rollback (tx : transaction) : transaction * result unit :=
  if managed tx then
    (close tx, Panic "managed transaction rollback not allowed")
  else
    match checkClosed tx with
    | Some err => (tx, Err err)
    | None => (close tx, Ok tt)
    end.

(** ** Pruning *)

(** The loop [for i := uint32(first); i < uint32(last); i++] of
    [PruneBlocks].  It runs at most [last - i] times, the bound [n] it
    recurses on. *)
Fixpoint pruneFilesLoop (n : nat) (tx : transaction) (i last : Z)
    (deletedFiles : gset Z) (totalSize targetSize maxSize : Z)
  : transaction * gset Z * Z :=
  match n with
  | O => (tx, deletedFiles, totalSize)
  | S n =>
      if i <? last then
        let tx := set_pendingDelFileNums (pendingDelFileNums tx ++ [i]) tx in
        let deletedFiles := {[i]} ∪ deletedFiles in
        let totalSize := wrap64 (totalSize - maxSize) in
        if totalSize <=? targetSize then (tx, deletedFiles, totalSize)
        else pruneFilesLoop n tx (wrap32 (i + 1)) last deletedFiles
               totalSize targetSize maxSize
      else (tx, deletedFiles, totalSize)
  end.

(** The cursor walk of [PruneBlocks] over the entries of the block
    index. *)
Fixpoint pruneIndex (tx : transaction) (entries : list (list byte * list byte))
    (deletedFiles : gset Z) (deletedBlockHashes : list (list byte))
  : transaction * result (list (list byte)) :=
  match entries with
  | [] => (tx, Ok deletedBlockHashes)
  | (key, value) :: rest =>
      match deserializeBlockLoc value with
      | Err err => (tx, Err err)
      | Panic msg => (tx, Panic msg)
      | Ok loc =>
          if bool_decide (blockFileNum loc ∈ deletedFiles) then
            match hashOfKey key with
            | None => (tx, Panic "cannot convert slice to array pointer")
            | Some h =>
                match cursorDelete tx blockIdxBucket key with
                | (tx, Some err) => (tx, Err err)
                | (tx, None) =>
                    pruneIndex tx rest deletedFiles (deletedBlockHashes ++ [h])
                end
            end
          else pruneIndex tx rest deletedFiles deletedBlockHashes
      end
  end.

Definition errTargetSizeStr : string :=
  "got target size of %d but it must be greater than %d, the max size of a single block file".

(** [PruneBlocks].  [first] and [last] are Go ints, [lastFileSize] a
    uint32, the sizes uint64; the count [last - first] is taken modulo
    2^64 by its conversion to uint64. *)
Definition PruneBlocks (tx : transaction) (targetSize : Z)
  : transaction * result (list (list byte)) :=
  match checkClosed tx with
  | Some err => (tx, Err err)
  | None =>
      if negb (writable tx) then
        (tx, Err (makeDbErr database.ErrTxNotWritable
                    "prune blocks requires a writable database transaction" None))
      else
        let maxSize := wrap64 (maxBlockFileSize (store (db tx))) in
        if targetSize <? maxSize then (tx, Err (GoError errTargetSizeStr))
        else
          match scanBlockFiles (store (db tx)) with
          | Err err => (tx, Err err)
          | Panic msg => (tx, Panic msg)
          | Ok (first, last, lastFileSize) =>
              if bool_decide (first = last) then (tx, Ok [])
              else
                let maxSizeFileCount := last - first in
                let totalSize :=
                  wrap64 (wrap64 lastFileSize
                          + wrap64 (maxSize * wrap64 maxSizeFileCount)) in
                if totalSize <=? targetSize then (tx, Ok [])
                else
                  let '(tx, deletedFiles, totalSize) :=
                    pruneFilesLoop (Z.to_nat (wrap32 last - wrap32 first)) tx
                      (wrap32 first) (wrap32 last) ∅ totalSize targetSize maxSize in
                  let tx := bucketCursor tx blockIdxBucket in
                  pruneIndex tx (cursorEntries tx blockIdxBucket) deletedFiles []
          end
  end.

(** [BeenPruned]. *)
Definition BeenPruned (tx : transaction) : transaction * result bool :=
  match scanBlockFiles (store (db tx)) with
  | Err err => (tx, Err err)
  | Panic msg => (tx, Panic msg)
  | Ok (first, last, _) =>
      (tx, Ok (negb (bool_decide (first = 0)) && negb (bool_decide (first = last))))
  end.

End transaction.

(** ** Notions the properties are stated with *)

Section specification.

Context `{Externals}.

Implicit Types (tx : transaction) (region : database.BlockRegion).
Implicit Types (regions : list database.BlockRegion).
Implicit Types (fd : bulkFetchData) (fl : list bulkFetchData).

(** A call on the transaction: the two mutations of the pending key sets,
    which the buckets and cursors make, and the public operations. *)
Inductive call :=
| CallPutKey (key value : list byte)
| CallDeleteKey (key : list byte) (notifyIterators : bool)
| CallHasBlock (h : list byte)
| CallHasBlocks (hashes : list (list byte))
| CallStoreBlock (block : btcutil.Block)
| CallFetchBlock (h : list byte)
| CallFetchBlocks (hashes : list (list byte))
| CallFetchBlockRegion (region : database.BlockRegion)
| CallFetchBlockRegions (regions : list database.BlockRegion)
| CallPruneBlocks (targetSize : Z)
| CallBeenPruned
| CallCommit
| CallRollback.

(** The transaction a call leaves behind, whatever it returns. *)
Definition perform tx (c : call) : transaction :=
  match c with
  | CallPutKey k v => putKey tx k v
  | CallDeleteKey k n => deleteKey tx k n
  | CallHasBlock h => (HasBlock tx h).1
  | CallHasBlocks hashes => (HasBlocks tx hashes).1
  | CallStoreBlock block => (StoreBlock tx block).1
  | CallFetchBlock h => (FetchBlock tx h).1
  | CallFetchBlocks hashes => (FetchBlocks tx hashes).1
  | CallFetchBlockRegion region => (FetchBlockRegion tx region).1
  | CallFetchBlockRegions regions => (FetchBlockRegions tx regions).1
  | CallPruneBlocks targetSize => (PruneBlocks tx targetSize).1
  | CallBeenPruned => (BeenPruned tx).1
  | CallCommit => (Commit tx).1
  | CallRollback => (Rollback tx).1
  end.

Definition performAll tx (calls : list call) : transaction := foldl perform tx calls.

(** The pending key sets of [tx'] are those of [tx]. *)
Definition samePending tx tx' : Prop :=
  pendingKeys tx' = pendingKeys tx /\ pendingRemove tx' = pendingRemove tx.

(** The length a region is checked against: the payload length of the
    pending block, as the uint32 the code makes of it, when the hash is
    pending; otherwise the [blockLen] of the block-index entry. *)
Definition regionBlockLen tx region : option Z :=
  match pendingIndex tx (database.Hash region) with
  | Some idx =>
      (fun pb => wrap32 (Z.of_nat (length (bytes pb)))) <$> pendingBlockData tx !! idx
  | None =>
      match bucketGet tx blockIdxBucket (database.Hash region) with
      | Some blockRow =>
          match deserializeBlockLoc blockRow with
          | Ok loc => Some (blockLen loc)
          | _ => None
          end
      | None => None
      end
  end.

Definition failsWith {A} (r : result A) (c : database.ErrorCode) : Prop :=
  exists e, r = Err e /\ errorCode e = Some c.

(** The answer of the store to the read queued as [fd]. *)
Definition readOf (s : blockStore) regions fd : result (list byte) :=
  match regions !! replyIndex fd with
  | Some region =>
      readBlockRegion s (location fd) (database.Offset region) (database.Len region)
  | None => Panic "index out of range"
  end.

Definition readOk (s : blockStore) regions fd : Prop :=
  exists b, readOf s regions fd = Ok b.

(** The call on the store the read queued as [fd] makes. *)
Definition readEvent regions fd : option event :=
  (fun region =>
     EvReadBlockRegion (location fd) (database.Offset region) (database.Len region))
    <$> regions !! replyIndex fd.

Definition readEvents regions fl : list event := omap (readEvent regions) fl.

Definition resolvesOk tx (region : database.BlockRegion) : Prop :=
  exists x, resolveRegion tx region = Ok x.

(** The file a block-index entry points into, when its row deserializes. *)
Definition entryFile (e : list byte * list byte) : option Z :=
  match deserializeBlockLoc e.2 with
  | Ok loc => Some (blockFileNum loc)
  | _ => None
  end.

(** A well-formed block-index entry: the key is a hash and the row
    deserializes. *)
Definition entryOk (e : list byte * list byte) : Prop :=
  length e.1 = HashSize /\ is_Some (entryFile e).

(** The entry points into one of the [n] files from [lo] on. *)
Definition inFiles (lo n : Z) (e : list byte * list byte) : bool :=
  match entryFile e with
  | Some f => bool_decide (lo <= f < lo + n)
  | None => false
  end.

(** The block-index entries that point into the [n] files from [lo] on,
    in cursor order. *)
Definition prunedEntries tx (lo n : Z) : list (list byte * list byte) :=
  filter (fun e => inFiles lo n e) (cursorEntries tx blockIdxBucket).

(** [deleteKey], notifying, for each of the keys in turn. *)
Definition deleteKeys tx (keys : list (list byte)) : transaction :=
  foldl (fun tx k => deleteKey tx k true) tx keys.

End specification.

(** ** A concrete instance of the externals and of the collaborators *)

(** Modelled from the spec: the serialized block location is a fixed-width
    packing of its three uint32 fields; a row that is too short is
    rejected. *)
Definition byteOfZ (z : Z) : byte := default x00 (Byte.of_N (Z.to_N (z `mod` 256))).

Definition putUint32 (z : Z) : list byte :=
  (fun i => byteOfZ (z `div` 2 ^ (8 * i))) <$> [0; 1; 2; 3].

Definition getUint32 (l : list byte) : Z :=
  foldr (fun b acc => Z.of_N (Byte.to_N b) + 256 * acc) 0 (take 4 l).

Definition leSerializeBlockLoc (loc : blockLocation) : list byte :=
  putUint32 (blockFileNum loc) ++ putUint32 (fileOffset loc) ++ putUint32 (blockLen loc).

Definition leDeserializeBlockLoc (row : list byte) : result blockLocation :=
  if (length row <? 12)%nat then Err (GoError "block location row is too short")
  else Ok {| blockFileNum := getUint32 row;
             fileOffset := getUint32 (drop 4 row);
             blockLen := getUint32 (drop 8 row) |}.

Definition leSerializeWriteRow (curBlockFileNum curFileOffset : Z) : list byte :=
  putUint32 curBlockFileNum ++ putUint32 curFileOffset.

#[local] Instance fetchLe_trans : Transitive fetchLe.
Proof.
  intros a b c. unfold fetchLe, lessData.
  repeat case_match; rewrite ?Z.ltb_lt, ?Z.ltb_ge in *; try done; try lia.
Qed.

#[local] Instance fetchLe_total : Total fetchLe.
Proof.
  intros a b. unfold fetchLe, lessData.
  repeat case_match; rewrite ?Z.ltb_lt, ?Z.ltb_ge in *; try lia; auto.
Qed.

Definition mergeSortFetch (l : list bulkFetchData) : list bulkFetchData :=
  merge_sort fetchLe l.

#[global] Instance driverExternals : Externals := {|
  metadataBucketID := [x00; x00; x00; x00];
  blockIdxBucketID := [x00; x00; x00; x01];
  writeLocKeyName := [x77; x6c];
  blockHdrSize := 80;
  deserializeBlockLoc := leDeserializeBlockLoc;
  serializeBlockLoc := leSerializeBlockLoc;
  serializeWriteRow := leSerializeWriteRow;
  convertErr := fun desc err => makeDbErr database.ErrDriverSpecific desc (Some err);
  sortFetchList := mergeSortFetch;
  sortFetchList_perm := merge_sort_Permutation fetchLe;
  sortFetchList_sorted := fun l => StronglySorted_merge_sort fetchLe l
|}.

(** A store holding block files 2 to 5, the last one 100 bytes long; every
    append succeeds and advances the cursor by the payload. *)
Definition exStore : blockStore := {|
  maxBlockFileSize := 512;
  scanBlockFiles := Ok (2, 5, 100);
  deleteFileFunc := fun _ => None;
  writeBlock := fun wc _ payload =>
    ({| curFileNum := curFileNum wc;
        curOffset := curOffset wc + Z.of_nat (length payload) |},
     Ok {| blockFileNum := curFileNum wc; fileOffset := curOffset wc;
           blockLen := Z.of_nat (length payload) |});
  readBlock := fun _ _ => Err (GoError "read failed");
  readBlockRegion := fun loc offset len =>
    Ok (putUint32 (blockFileNum loc) ++ putUint32 (fileOffset loc + offset));
  writeCursor := {| curFileNum := 5; curOffset := 100 |}
|}.

Definition exDB : DB := {|
  store := exStore;
  cache := {| cacheRoot := ∅; backendFlush := fun _ _ => None |};
  trace := []
|}.

(** The key of the block-index entry of the hash [h]. *)
Definition idxKey (h : list byte) : list byte := bucketizedKey blockIdxBucketID h.

Definition exHashA : list byte := replicate 32 x0a.
Definition exHashB : list byte := replicate 32 x0b.
Definition exHashC : list byte := replicate 32 x0c.

(** An open, writable transaction over a snapshot that indexes block A in
    file 2 (offset 0, 100 bytes); nothing is pending. *)
Definition exTx : transaction := {|
  managed := false; closed := false; writable := true; db := exDB;
  snapshot := Some {[ idxKey exHashA :=
                        leSerializeBlockLoc
                          {| blockFileNum := 2; fileOffset := 0; blockLen := 100 |} ]};
  pendingBlocks := None; pendingBlockData := []; pendingDelFileNums := [];
  pendingKeys := ∅; pendingRemove := ∅; activeIters := [];
  mdbRoTx := None; mdbRwTx := None
|}.

Definition exBlockB : btcutil.Block := {|
  btcutil.Hash := exHashB;
  btcutil.Bytes := Ok (replicate 100 x42);
  btcutil.Height := 7
|}.

Definition exBlockBad : btcutil.Block := {|
  btcutil.Hash := exHashC;
  btcutil.Bytes := Err (GoError "serialize failed");
  btcutil.Height := 8
|}.

Definition idxRow (fileNum offset len : Z) : list byte :=
  leSerializeBlockLoc {| blockFileNum := fileNum; fileOffset := offset; blockLen := len |}.

Definition exHash (b : byte) : list byte := replicate 32 b.

Definition exStore5 : blockStore := {|
  maxBlockFileSize := 512;
  scanBlockFiles := Ok (0, 4, 512);
  deleteFileFunc := deleteFileFunc exStore;
  writeBlock := writeBlock exStore;
  readBlock := readBlock exStore;
  readBlockRegion := readBlockRegion exStore;
  writeCursor := {| curFileNum := 4; curOffset := 512 |}
|}.

(** Blocks 10 to 15 live in files 0, 1, 1, 2, 3 and 4. *)
Definition exTxPrune : transaction := {|
  managed := false; closed := false; writable := true;
  db := {| store := exStore5; cache := cache exDB; trace := [] |};
  snapshot := Some (list_to_map
    [(idxKey (exHash x10), idxRow 0 0 512); (idxKey (exHash x11), idxRow 1 0 256);
     (idxKey (exHash x12), idxRow 1 256 256); (idxKey (exHash x13), idxRow 2 0 512);
     (idxKey (exHash x14), idxRow 3 0 512); (idxKey (exHash x15), idxRow 4 0 512)]);
  pendingBlocks := None; pendingBlockData := []; pendingDelFileNums := [];
  pendingKeys := ∅; pendingRemove := ∅; activeIters := [];
  mdbRoTx := None; mdbRwTx := None
|}.

(** [exTx] over a cache whose backend fails to flush, with block B
    pending. *)
Definition exTxFlushFails : transaction :=
  (StoreBlock
     (set_db {| store := exStore;
                cache := {| cacheRoot := ∅;
                            backendFlush := fun _ _ => Some (GoError "flush failed") |};
                trace := [] |} exTx)
     exBlockB).1.

Definition exRegionS4 : database.BlockRegion :=
  {| database.Hash := exHashA; database.Offset := 90; database.Len := 20 |}.

Definition exRegionWrap : database.BlockRegion :=
  {| database.Hash := exHashA; database.Offset := 0xFFFFFFF0; database.Len := 0x20 |}.

Definition exRegionUnknown : database.BlockRegion :=
  {| database.Hash := exHashC; database.Offset := 0xFFFFFFF0; database.Len := 0x20 |}.

(** Blocks 21 to 24 live at (file 2, offset 100), (0, 50), (2, 10) and
    (1, 0), each 40 bytes long; block 25 is pending. *)
Definition exTxBulk : transaction := {|
  managed := false; closed := false; writable := true; db := exDB;
  snapshot := Some (list_to_map
    [(idxKey (exHash x21), idxRow 2 100 40); (idxKey (exHash x22), idxRow 0 50 40);
     (idxKey (exHash x23), idxRow 2 10 40); (idxKey (exHash x24), idxRow 1 0 40)]);
  pendingBlocks := Some {[ exHash x25 := 0%nat ]};
  pendingBlockData := [{| hash := exHash x25; bytes := [x01; x02; x03; x04; x05];
                          height := 9 |}];
  pendingDelFileNums := [];
  pendingKeys := ∅; pendingRemove := ∅; activeIters := [];
  mdbRoTx := None; mdbRwTx := None
|}.

Definition exRegionsBulk : list database.BlockRegion :=
  [ {| database.Hash := exHash x21; database.Offset := 0; database.Len := 8 |};
    {| database.Hash := exHash x22; database.Offset := 4; database.Len := 8 |};
    {| database.Hash := exHash x25; database.Offset := 1; database.Len := 3 |};
    {| database.Hash := exHash x23; database.Offset := 0; database.Len := 8 |};
    {| database.Hash := exHash x24; database.Offset := 2; database.Len := 8 |} ].

(** [exTx], read-only. *)
Definition exTxRO : transaction := {|
  managed := false; closed := false; writable := false; db := exDB;
  snapshot := snapshot exTx;
  pendingBlocks := None; pendingBlockData := []; pendingDelFileNums := [];
  pendingKeys := ∅; pendingRemove := ∅; activeIters := [];
  mdbRoTx := None; mdbRwTx := None
|}.

(** [exTx] with block B pending. *)
Definition exTxB : transaction := (StoreBlock exTx exBlockB).1.

Definition exRegionB : database.BlockRegion :=
  {| database.Hash := exHashB; database.Offset := 10; database.Len := 20 |}.

(** Two queued reads, the later file first. *)
Definition exFetchList : list bulkFetchData :=
  [ {| location := {| blockFileNum := 2; fileOffset := 0; blockLen := 40 |};
       replyIndex := 0 |};
    {| location := {| blockFileNum := 1; fileOffset := 8; blockLen := 40 |};
       replyIndex := 1 |} ].

(** A key for the bucket id counter. *)
Definition exCounterKey : list byte := [x62; x69; x64].

(** ** The rest of the file *)

(** *** The registry of active iterators *)

Section active_iters.

(** The slice [tx.activeIters] holds pointers, and [removeActiveIter]
    compares them: it is modelled on a list of addresses [A]. *)
Context {A : Type} `{EqDecision A}.

(** The loop [for i := 0; i < len(tx.activeIters); i++] of
    [removeActiveIter]: a match is cut out of the slice, which shortens
    it, and the index moves on all the same.  It runs at most
    [len - i] times, the bound it recurses on. *)
Fixpoint removeActiveIterLoop (n : nat) (activeIters : list A) (iter : A) (i : nat)
  : list A :=
  match n with
  | O => activeIters
  | S n =>
      match activeIters !! i with
      | None => activeIters
      | Some x =>
          if decide (x = iter) then
            removeActiveIterLoop n (delete i activeIters) iter (S i)
          else removeActiveIterLoop n activeIters iter (S i)
      end
  end.

(** [removeActiveIter]. *)
Definition removeActiveIter (activeIters : list A) (iter : A) : list A :=
  removeActiveIterLoop (length activeIters) activeIters iter 0.

(** What the loop comes to on the part of the slice it has not visited:
    the entry after a match is passed over. *)
Fixpoint removeSkipping (iter : A) (l : list A) : list A :=
  match l with
  | [] => []
  | x :: rest =>
      if decide (x = iter) then
        match rest with
        | [] => []
        | y :: rest' => y :: removeSkipping iter rest'
        end
      else x :: removeSkipping iter rest
  end.

End active_iters.

(** *** The sorter *)

(** [bulkFetchDataSorter.Len]. *)
Definition Len (s : list bulkFetchData) : nat := length s.

(** [bulkFetchDataSorter.Swap]; an index out of range panics ([None]). *)
Definition Swap (s : list bulkFetchData) (i j : nat) : option (list bulkFetchData) :=
  match s !! i, s !! j with
  | Some a, Some b => Some (<[j := a]> (<[i := b]> s))
  | _, _ => None
  end.

(** [s[i]] is before [s[j]] by file number, then by file offset. *)
Definition lexLt (a b : bulkFetchData) : Prop :=
  blockFileNum (location a) < blockFileNum (location b)
  \/ (blockFileNum (location a) = blockFileNum (location b)
      /\ fileOffset (location a) < fileOffset (location b)).

(** *** Bucket ids *)

(** [binary.BigEndian.Uint32]: the first four bytes; a shorter slice
    panics ([None]). *)
Definition bigEndianUint32 (b : list byte) : option Z :=
  match b with
  | b0 :: b1 :: b2 :: b3 :: _ =>
      Some (Z.of_N (Byte.to_N b3)
            + Z.of_N (Byte.to_N b2) * 2 ^ 8
            + Z.of_N (Byte.to_N b1) * 2 ^ 16
            + Z.of_N (Byte.to_N b0) * 2 ^ 24)
  | _ => None
  end.

(** [binary.BigEndian.PutUint32] into a fresh [[4]byte]. *)
Definition bigEndianPutUint32 (v : Z) : list byte :=
  [byteOfZ (v `div` 2 ^ 24); byteOfZ (v `div` 2 ^ 16); byteOfZ (v `div` 2 ^ 8); byteOfZ v].

Section bucket_ids.

Context `{Externals}.

(** The reserved key of the bucket id counter, a constant of another file
    of the driver. *)
Variable curBucketIDKeyName : list byte.

(** [nextBucketID]; the error of [putKey] is always nil. *)
Definition nextBucketID (tx : transaction) : transaction * result (list byte) :=
  let curIDBytes :=
    match fetchKey tx curBucketIDKeyName with
    | Some b => b
    | None => blockIdxBucketID
    end in
  match bigEndianUint32 curIDBytes with
  | None => (tx, Panic "index out of range")
  | Some curBucketNum =>
      let nextBucketID := bigEndianPutUint32 (wrap32 (curBucketNum + 1)) in
      (putKey tx curBucketIDKeyName nextBucketID, Ok nextBucketID)
  end.

(** [Metadata]. *)
Definition Metadata (tx : transaction) : bucket := metaBucket.

(** The counter [nextBucketID] starts from: the stored one, or the id of
    the block index bucket when none is stored. *)
Definition curBucketID (tx : transaction) : list byte :=
  default blockIdxBucketID (fetchKey tx curBucketIDKeyName).

(** [nextBucketID] called [n] times in a row, and the ids it hands out. *)
Fixpoint nextBucketIDs (n : nat) (tx : transaction)
  : transaction * result (list (list byte)) :=
  match n with
  | O => (tx, Ok [])
  | S n =>
      match nextBucketID tx with
      | (tx, Ok id) =>
          match nextBucketIDs n tx with
          | (tx, Ok ids) => (tx, Ok (id :: ids))
          | (tx, r) => (tx, r)
          end
      | (tx, Err err) => (tx, Err err)
      | (tx, Panic msg) => (tx, Panic msg)
      end
  end.

End bucket_ids.

(** *** The paired mdbx handles *)

Section mdbx.

(** The answers of [tx.db.cache.mdb.BeginRw] and [BeginRo], of another
    package. *)
Variables (mdbBeginRw mdbBeginRo : result mdbTx).

(** [initMDBX_txs]: both fields are assigned on success, the one that was
    not begun with nil. *)
Definition initMDBX_txs (tx : transaction) : transaction * result unit :=
  if writable tx then
    match mdbBeginRw with
    | Err err => (tx, Err err)
    | Panic msg => (tx, Panic msg)
    | Ok mdbRwtx => (set_mdbRoTx None (set_mdbRwTx (Some mdbRwtx) tx), Ok tt)
    end
  else
    match mdbBeginRo with
    | Err err => (tx, Err err)
    | Panic msg => (tx, Panic msg)
    | Ok mdbRotx => (set_mdbRoTx (Some mdbRotx) (set_mdbRwTx None tx), Ok tt)
    end.

End mdbx.

(** *** Notions the further properties are stated with *)

Section specification_more.

Context `{Externals}.

Implicit Types (tx : transaction).

(** The transaction with another trace of calls. *)
Definition withTrace (t : list event) tx : transaction :=
  set_db {| store := store (db tx); cache := cache (db tx); trace := t |} tx.

(** The index of the pending blocks and their data agree: every pending
    hash is mapped to the place of a pending block with that hash, and
    every pending block is found under its hash. *)
Definition pendingBlocksOk tx : Prop :=
  (forall h idx,
      pendingIndex tx h = Some idx ->
      exists pb, pendingBlockData tx !! idx = Some pb /\ hash pb = h)
  /\ (forall idx pb,
        pendingBlockData tx !! idx = Some pb -> pendingIndex tx (hash pb) = Some idx).

(** The reads of the block files. *)
Definition isRead (e : event) : bool :=
  match e with
  | EvReadBlock _ _ | EvReadBlockRegion _ _ _ => true
  | _ => false
  end.

(** The calls that change the block files, the cache or the mdbx store. *)
Definition isWrite (e : event) : bool :=
  match e with
  | EvDeleteFile _ | EvWriteBlock _ _ | EvHandleRollback _ _
  | EvCommitTx | EvMdbCommit => true
  | _ => false
  end.

(** [tx'] is [tx] after some reads of the block files: nothing but the
    trace of calls differs. *)
Definition onlyReads tx tx' : Prop :=
  exists evs,
    tx' = withTrace (trace (db tx) ++ evs) tx
    /\ Forall (fun e => isRead e = true) evs.

(** Between [tx] and [tx'] the block files and the cache are as they
    were, and no call that changes them was made. *)
Definition noWrites tx tx' : Prop :=
  store (db tx') = store (db tx)
  /\ cache (db tx') = cache (db tx)
  /\ exists evs,
      trace (db tx') = trace (db tx) ++ evs
      /\ Forall (fun e => isWrite e = false) evs.

(** The flags, the snapshot and the mdbx handles of [tx'] are those of
    [tx]. *)
Definition sameHandles tx tx' : Prop :=
  managed tx' = managed tx /\ closed tx' = closed tx /\ writable tx' = writable tx
  /\ snapshot tx' = snapshot tx
  /\ mdbRoTx tx' = mdbRoTx tx /\ mdbRwTx tx' = mdbRwTx tx.

(** The pending blocks, the collaborators, the flags and the handles of
    [tx'] are those of [tx]. *)
Definition sameBlocks tx tx' : Prop :=
  pendingBlocks tx' = pendingBlocks tx
  /\ pendingBlockData tx' = pendingBlockData tx
  /\ db tx' = db tx
  /\ sameHandles tx tx'.

(** What [close] does: a handle rolled back, the snapshot or a lock
    released. *)
Definition isRelease (e : event) : bool :=
  match e with
  | EvMdbRollback | EvSnapshotRelease | EvCloseLockRUnlock | EvWriteLockUnlock => true
  | _ => false
  end.

(** Between [tx] and [tx'] nothing was released: the flags, snapshot and
    handles are the same, and the calls made release nothing. *)
Definition nothingReleased tx tx' : Prop :=
  sameHandles tx tx'
  /\ exists evs,
      trace (db tx') = trace (db tx) ++ evs
      /\ Forall (fun e => isRelease e = false) evs.

(** The calls [close] makes: the handles rolled back, the snapshot and
    the locks released. *)
Definition closeEvents tx : list event :=
  match mdbRoTx tx with Some _ => [EvMdbRollback] | None => [] end
  ++ match mdbRwTx tx with Some _ => [EvMdbRollback] | None => [] end
  ++ match snapshot tx with Some _ => [EvSnapshotRelease] | None => [] end
  ++ [EvCloseLockRUnlock]
  ++ (if writable tx then [EvWriteLockUnlock] else []).

(** The call [writeBlock] makes for a pending block. *)
Definition writeEvent (pb : pendingBlock) : event :=
  EvWriteBlock (height pb) (bytes pb).

End specification_more.

(* ================================================================== *)
(** * Properties *)

(** ** The pending key overlay *)

Section key_overlay.

Implicit Types (tx : transaction) (k v : list byte).

Lemma Has_true (t : treap.Mutable) k : treap.Has t k = true <-> is_Some (t !! k).
Proof. unfold treap.Has. apply bool_decide_eq_true. Qed.

Lemma Has_false (t : treap.Mutable) k : treap.Has t k = false <-> t !! k = None.
Proof.
  unfold treap.Has. rewrite bool_decide_eq_false.
  rewrite <- eq_None_not_Some. reflexivity.
Qed.

Lemma putKey_pendingKeys tx k v :
  pendingKeys (putKey tx k v) = <[k := v]> (pendingKeys tx).
Proof. reflexivity. Qed.

Lemma putKey_pendingRemove tx k v :
  pendingRemove (putKey tx k v) = delete k (pendingRemove tx).
Proof. reflexivity. Qed.

Lemma deleteKey_pendingKeys tx k n :
  pendingKeys (deleteKey tx k n) = delete k (pendingKeys tx).
Proof. destruct n; reflexivity. Qed.

Lemma deleteKey_pendingRemove tx k n :
  pendingRemove (deleteKey tx k n) = <[k := []]> (pendingRemove tx).
Proof. destruct n; reflexivity. Qed.

Lemma putKey_writable tx k v : writable (putKey tx k v) = writable tx.
Proof. reflexivity. Qed.

Lemma deleteKey_writable tx k n : writable (deleteKey tx k n) = writable tx.
Proof. destruct n; reflexivity. Qed.

Lemma putKey_disjoint tx k v : pendingDisjoint tx -> pendingDisjoint (putKey tx k v).
Proof.
  intros Hd k' [Hk Hr].
  rewrite putKey_pendingKeys in Hk. rewrite putKey_pendingRemove in Hr.
  destruct (decide (k = k')) as [->|Hne].
  - rewrite lookup_delete_eq in Hr. by destruct Hr.
  - rewrite lookup_insert_ne in Hk by done.
    rewrite lookup_delete_ne in Hr by done.
    by apply (Hd k').
Qed.

Lemma deleteKey_disjoint tx k n :
  pendingDisjoint tx -> pendingDisjoint (deleteKey tx k n).
Proof.
  intros Hd k' [Hk Hr].
  rewrite deleteKey_pendingKeys in Hk. rewrite deleteKey_pendingRemove in Hr.
  destruct (decide (k = k')) as [->|Hne].
  - rewrite lookup_delete_eq in Hk. by destruct Hk.
  - rewrite lookup_delete_ne in Hk by done.
    rewrite lookup_insert_ne in Hr by done.
    by apply (Hd k').
Qed.

Lemma empty_disjoint tx :
  pendingKeys tx = ∅ -> pendingRemove tx = ∅ -> pendingDisjoint tx.
Proof.
  intros Hk Hr k [Hs _]. rewrite Hk, lookup_empty in Hs. by destruct Hs.
Qed.

(** C6. In a writable transaction, whatever the snapshot holds for [k]:
    after [putKey k v] then [deleteKey k], [fetchKey k] is nil and
    [hasKey k] is false; after [deleteKey k] then [putKey k v],
    [fetchKey k] is [v]. *)
Theorem put_delete_overlay tx k v (n : bool) :
  writable tx = true ->
  (fetchKey (deleteKey (putKey tx k v) k n) k = None
   /\ hasKey (deleteKey (putKey tx k v) k n) k = false)
  /\ fetchKey (putKey (deleteKey tx k n) k v) k = Some v.
Proof.
  intros Hw. repeat split.
  - unfold fetchKey. rewrite deleteKey_writable, putKey_writable, Hw.
    replace (treap.Has _ k) with true; [done|].
    symmetry. apply Has_true. rewrite deleteKey_pendingRemove.
    rewrite lookup_insert_eq. eauto.
  - unfold hasKey. rewrite deleteKey_writable, putKey_writable, Hw.
    replace (treap.Has _ k) with true; [done|].
    symmetry. apply Has_true. rewrite deleteKey_pendingRemove.
    rewrite lookup_insert_eq. eauto.
  - unfold fetchKey. rewrite putKey_writable, deleteKey_writable, Hw.
    replace (treap.Has _ k) with false.
    + unfold treap.Get. rewrite putKey_pendingKeys, lookup_insert_eq. done.
    + symmetry. apply Has_false. rewrite putKey_pendingRemove.
      apply lookup_delete_eq.
Qed.

End key_overlay.

(** ** Storing blocks *)

Section store_block.

Context `{Externals}.
Implicit Types (tx : transaction) (block : btcutil.Block).

Lemma closed_checkClosed tx :
  closed tx = true ->
  checkClosed tx = Some (makeDbErr database.ErrTxClosed errTxClosedStr None).
Proof. unfold checkClosed. by intros ->. Qed.

Lemma open_checkClosed tx : closed tx = false -> checkClosed tx = None.
Proof. unfold checkClosed. by intros ->. Qed.

Lemma hasBlock_true tx h :
  hasBlock tx h = true <->
  is_Some (pendingIndex tx h) \/ hasKey tx (bucketizedKey blockIdxBucketID h) = true.
Proof.
  unfold hasBlock. destruct (pendingIndex tx h) as [i|].
  - split; eauto.
  - split; [by right|]. intros [[? ?]|?]; done.
Qed.

(** C8. [StoreBlock] answers [TxClosed] on a closed transaction,
    [TxNotWritable] on an open read-only one, and on an open writable one
    [BlockExists] when the hash is pending or has a block-index entry in
    the overlay, [DriverSpecific] when the block fails to serialize;
    otherwise it appends the block to [pendingBlockData], records its
    index in [pendingBlocks] and changes nothing else: the collaborators
    and the pending key sets are as before. *)
Theorem StoreBlock_outcomes tx block :
  (closed tx = true ->
   StoreBlock tx block
   = (tx, Err (makeDbErr database.ErrTxClosed errTxClosedStr None)))
  /\ (closed tx = false -> writable tx = false ->
      exists str,
        StoreBlock tx block = (tx, Err (makeDbErr database.ErrTxNotWritable str None)))
  /\ (closed tx = false -> writable tx = true ->
      is_Some (pendingIndex tx (btcutil.Hash block))
      \/ hasKey tx (bucketizedKey blockIdxBucketID (btcutil.Hash block)) = true ->
      exists str,
        StoreBlock tx block = (tx, Err (makeDbErr database.ErrBlockExists str None)))
  /\ (closed tx = false -> writable tx = true ->
      hasBlock tx (btcutil.Hash block) = false ->
      forall err, btcutil.Bytes block = Err err ->
      exists str,
        StoreBlock tx block
        = (tx, Err (makeDbErr database.ErrDriverSpecific str (Some err))))
  /\ (closed tx = false -> writable tx = true ->
      hasBlock tx (btcutil.Hash block) = false ->
      forall blockBytes, btcutil.Bytes block = Ok blockBytes ->
      exists tx',
        StoreBlock tx block = (tx', Ok tt)
        /\ pendingBlockData tx'
           = pendingBlockData tx
             ++ [{| hash := btcutil.Hash block; bytes := blockBytes;
                    height := btcutil.Height block |}]
        /\ pendingIndex tx' (btcutil.Hash block) = Some (length (pendingBlockData tx))
        /\ (forall h, h <> btcutil.Hash block -> pendingIndex tx' h = pendingIndex tx h)
        /\ db tx' = db tx
        /\ pendingKeys tx' = pendingKeys tx
        /\ pendingRemove tx' = pendingRemove tx
        /\ pendingDelFileNums tx' = pendingDelFileNums tx
        /\ snapshot tx' = snapshot tx
        /\ activeIters tx' = activeIters tx
        /\ (managed tx', closed tx', writable tx') = (managed tx, closed tx, writable tx)
        /\ (mdbRoTx tx', mdbRwTx tx') = (mdbRoTx tx, mdbRwTx tx)).
Proof.
  unfold StoreBlock. repeat split.
  - intros Hc. by rewrite (closed_checkClosed _ Hc).
  - intros Hc Hw. rewrite (open_checkClosed _ Hc), Hw. simpl. eauto.
  - intros Hc Hw Hex. rewrite (open_checkClosed _ Hc), Hw. simpl.
    apply hasBlock_true in Hex. rewrite Hex. eauto.
  - intros Hc Hw Hno err Hb. rewrite (open_checkClosed _ Hc), Hw. simpl.
    rewrite Hno, Hb. eauto.
  - intros Hc Hw Hno blockBytes Hb. rewrite (open_checkClosed _ Hc), Hw. simpl.
    rewrite Hno, Hb. eexists. split; [reflexivity|].
    destruct tx as [? ? ? ? ? pb ? ? ? ? ? ? ?]; simpl in *.
    unfold pendingIndex; simpl.
    destruct pb as [m|]; simpl; repeat split;
      try (by rewrite lookup_insert_eq);
      try (intros h Hh; by rewrite lookup_insert_ne);
      by subst.
Qed.

(** C10. Whenever [StoreBlock] returns an error the transaction is
    exactly as before the call: its five pending collections, and every
    other field. *)
Theorem StoreBlock_error_no_effect tx block err :
  (StoreBlock tx block).2 = Err err ->
  (StoreBlock tx block).1 = tx
  /\ pendingBlocks (StoreBlock tx block).1 = pendingBlocks tx
  /\ pendingBlockData (StoreBlock tx block).1 = pendingBlockData tx
  /\ pendingKeys (StoreBlock tx block).1 = pendingKeys tx
  /\ pendingRemove (StoreBlock tx block).1 = pendingRemove tx
  /\ pendingDelFileNums (StoreBlock tx block).1 = pendingDelFileNums tx.
Proof.
  intros He.
  assert (Heq : (StoreBlock tx block).1 = tx).
  { revert He. unfold StoreBlock.
    destruct (checkClosed tx); [done|].
    destruct (negb (writable tx)); [done|].
    destruct (hasBlock tx (btcutil.Hash block)); [done|].
    destruct (btcutil.Bytes block); done. }
  rewrite Heq. done.
Qed.

End store_block.

(** ** Closed and managed transactions *)

Section closing.

Context `{Externals}.
Implicit Types (tx : transaction).

Lemma close_released tx :
  closed (close tx) = true
  /\ pendingBlocks (close tx) = None
  /\ pendingBlockData (close tx) = []
  /\ pendingDelFileNums (close tx) = []
  /\ pendingKeys (close tx) = ∅
  /\ pendingRemove (close tx) = ∅
  /\ snapshot (close tx) = None
  /\ mdbRoTx (close tx) = None
  /\ mdbRwTx (close tx) = None.
Proof.
  unfold close, closeMdbTxs.
  destruct tx as [? ? w ? s ? ? ? ? ? ? ro rw]; simpl.
  destruct ro, rw, s, w; simpl; repeat split.
Qed.

(** C9. On a managed transaction [Commit] and [Rollback] close the
    transaction, which drops the pending sets and releases the snapshot,
    and then panic: the outcome is never a normal return or an error. *)
Theorem managed_commit_rollback_panic tx :
  managed tx = true ->
  Commit tx = (close tx, Panic "managed transaction commit not allowed")
  /\ Rollback tx = (close tx, Panic "managed transaction rollback not allowed")
  /\ closed (close tx) = true
  /\ pendingBlocks (close tx) = None
  /\ pendingBlockData (close tx) = []
  /\ pendingDelFileNums (close tx) = []
  /\ pendingKeys (close tx) = ∅
  /\ pendingRemove (close tx) = ∅
  /\ snapshot (close tx) = None.
Proof.
  intros Hm. unfold Commit, Rollback. rewrite Hm.
  destruct (close_released tx) as (? & ? & ? & ? & ? & ? & ? & _).
  repeat split; assumption.
Qed.

(** C5, as the code has it. On a closed transaction [HasBlock],
    [HasBlocks], [StoreBlock], [FetchBlock], [FetchBlocks],
    [FetchBlockRegion], [FetchBlockRegions] and [PruneBlocks] fail with
    [TxClosed] and leave the transaction alone; so do [Commit] and
    [Rollback] unless the transaction is managed, in which case they
    panic. *)
Theorem closed_tx_calls_fail tx :
  closed tx = true ->
  let failed {A} : transaction * result A :=
    (tx, Err (makeDbErr database.ErrTxClosed errTxClosedStr None)) in
  (forall h, HasBlock tx h = failed)
  /\ (forall hashes, HasBlocks tx hashes = failed)
  /\ (forall block, StoreBlock tx block = failed)
  /\ (forall h, FetchBlock tx h = failed)
  /\ (forall hashes, FetchBlocks tx hashes = failed)
  /\ (forall region, FetchBlockRegion tx region = failed)
  /\ (forall regions, FetchBlockRegions tx regions = failed)
  /\ (forall targetSize, PruneBlocks tx targetSize = failed)
  /\ (managed tx = false -> Commit tx = failed /\ Rollback tx = failed)
  /\ (managed tx = true ->
      exists m1 m2, (Commit tx).2 = Panic m1 /\ (Rollback tx).2 = Panic m2).
Proof.
  intros Hc failed. subst failed.
  pose proof (closed_checkClosed _ Hc) as Hcc.
  unfold HasBlock, HasBlocks, StoreBlock, FetchBlock, FetchBlocks,
    FetchBlockRegion, FetchBlockRegions, PruneBlocks, Commit, Rollback.
  rewrite Hcc.
  do 8 (split; [done|]). split.
  - intros ->. done.
  - intros ->. simpl. eauto.
Qed.

End closing.

(** ** Block regions *)

Section regions.

Context `{Externals}.
Implicit Types (tx : transaction) (region : database.BlockRegion).

Lemma pendingRegion_pendingIndex tx region :
  pendingRegion tx region = fetchPendingRegion tx region.
Proof.
  unfold pendingRegion, fetchPendingRegion, pendingIndex.
  destruct (pendingBlocks tx); reflexivity.
Qed.

Lemma wrap32_lt_iff (offset len : Z) :
  0 <= offset < 2 ^ 32 -> 0 <= len < 2 ^ 32 ->
  wrap32 (offset + len) < offset <-> 2 ^ 32 <= offset + len.
Proof.
  intros Ho Hl. unfold wrap32. split.
  - intros Hlt. destruct (Z_lt_ge_dec (offset + len) (2 ^ 32)) as [Hs|Hs]; [|lia].
    rewrite Z.mod_small in Hlt by lia. lia.
  - intros Hge.
    replace (offset + len) with ((offset + len - 2 ^ 32) + 1 * 2 ^ 32) by lia.
    rewrite Z.mod_add by lia. rewrite Z.mod_small by lia. lia.
Qed.

(** A block-index row that does not deserialize is reported as an
    invalid region as well. *)
Lemma FetchBlockRegion_bad_row tx region blockRow err :
  closed tx = false ->
  pendingIndex tx (database.Hash region) = None ->
  bucketGet tx blockIdxBucket (database.Hash region) = Some blockRow ->
  deserializeBlockLoc blockRow = Err err ->
  FetchBlockRegion tx region
  = (tx, Err (makeDbErr database.ErrBlockRegionInvalid "no data for: %s " (Some err))).
Proof.
  intros Hc Hp Hrow Hde. unfold FetchBlockRegion.
  rewrite (open_checkClosed _ Hc), pendingRegion_pendingIndex.
  unfold fetchPendingRegion, fetchBlockRow. rewrite Hp, Hrow, Hde. reflexivity.
Qed.

(** C3, as the code has it. On an open transaction, for a region whose
    block is pending or has a block-index entry that deserializes, and a
    store whose region read does not itself report an invalid region:
    [FetchBlockRegion] fails with [BlockRegionInvalid] exactly when the
    32-bit end offset wrapped around or lies beyond the block's length;
    on such a violation nothing is read and no bytes are returned.  For
    uint32 operands the first condition is the overflow of
    [offset + length]. *)
Theorem FetchBlockRegion_bounds tx region len :
  closed tx = false ->
  regionBlockLen tx region = Some len ->
  (forall loc o l e,
      readBlockRegion (store (db tx)) loc o l = Err e ->
      errorCode e <> Some database.ErrBlockRegionInvalid) ->
  let endOffset := wrap32 (database.Offset region + database.Len region) in
  (failsWith (FetchBlockRegion tx region).2 database.ErrBlockRegionInvalid
   <-> endOffset < database.Offset region \/ len < endOffset)
  /\ (endOffset < database.Offset region \/ len < endOffset ->
      FetchBlockRegion tx region
      = (tx, Err (makeDbErr database.ErrBlockRegionInvalid errRegionStr None)))
  /\ (0 <= database.Offset region < 2 ^ 32 -> 0 <= database.Len region < 2 ^ 32 ->
      endOffset < database.Offset region
      <-> 2 ^ 32 <= database.Offset region + database.Len region).
Proof.
  intros Hc Hlen Hstore endOffset.
  assert (Hviol : endOffset < database.Offset region \/ len < endOffset ->
                  FetchBlockRegion tx region
                  = (tx, Err (makeDbErr database.ErrBlockRegionInvalid errRegionStr None))).
  { intros Hv.
    assert (Hb : (endOffset <? database.Offset region) || (len <? endOffset) = true).
    { apply orb_true_iff. rewrite !Z.ltb_lt. exact Hv. }
    unfold FetchBlockRegion. rewrite (open_checkClosed _ Hc), pendingRegion_pendingIndex.
    unfold regionBlockLen in Hlen. unfold fetchPendingRegion, fetchBlockRow.
    destruct (pendingIndex tx (database.Hash region)) as [idx|].
    - destruct (pendingBlockData tx !! idx) as [pb|]; [|done].
      simpl in Hlen. injection Hlen as <-. fold endOffset. by rewrite Hb.
    - destruct (bucketGet tx blockIdxBucket (database.Hash region)) as [row|]; [|done].
      destruct (deserializeBlockLoc row) as [loc| |]; try done.
      injection Hlen as <-. fold endOffset. by rewrite Hb. }
  split; [|split; [exact Hviol|]].
  - split.
    + intros (e & He & Hcode).
      destruct (Z_lt_ge_dec endOffset (database.Offset region)) as [?|Hge1]; [by left|].
      destruct (Z_lt_ge_dec len endOffset) as [?|Hge2]; [by right|].
      exfalso.
      assert (Hb : (endOffset <? database.Offset region) || (len <? endOffset) = false).
      { apply orb_false_iff. rewrite !Z.ltb_ge. lia. }
      revert He. unfold FetchBlockRegion.
      rewrite (open_checkClosed _ Hc), pendingRegion_pendingIndex.
      unfold regionBlockLen in Hlen. unfold fetchPendingRegion, fetchBlockRow.
      destruct (pendingIndex tx (database.Hash region)) as [idx|].
      * destruct (pendingBlockData tx !! idx) as [pb|]; [|done].
        simpl in Hlen. injection Hlen as <-. fold endOffset. by rewrite Hb.
      * destruct (bucketGet tx blockIdxBucket (database.Hash region)) as [row|]; [|done].
        destruct (deserializeBlockLoc row) as [loc| |]; try done.
        injection Hlen as <-. fold endOffset. rewrite Hb. simpl.
        intros He. by apply (Hstore _ _ _ _ He).
    + intros Hv. rewrite (Hviol Hv). eexists. split; reflexivity.
  - intros Ho Hl. by apply wrap32_lt_iff.
Qed.

End regions.

(** ** Bulk region fetches *)

Section bulk_regions.

Context `{Externals}.
Implicit Types (tx : transaction) (regions : list database.BlockRegion).
Implicit Types (fd : bulkFetchData) (fl : list bulkFetchData).

Lemma readFetchList_spec regions : forall fl tx br,
  (forall fd, fd ∈ fl -> is_Some (regions !! replyIndex fd)) ->
  exists issued rest,
    fl = issued ++ rest
    /\ trace (db (readFetchList tx regions fl br).1)
       = trace (db tx) ++ readEvents regions issued
    /\ store (db (readFetchList tx regions fl br).1) = store (db tx)
    /\ match (readFetchList tx regions fl br).2 with
       | Ok out =>
           rest = []
           /\ Forall (readOk (store (db tx)) regions) fl
           /\ length out = length br
           /\ (forall k, k ∉ replyIndex <$> fl -> out !! k = br !! k)
           /\ (NoDup (replyIndex <$> fl) ->
               forall fd, fd ∈ fl -> (replyIndex fd < length br)%nat ->
               exists b, readOf (store (db tx)) regions fd = Ok b
                         /\ out !! replyIndex fd = Some b)
       | Err e =>
           exists pre fd, issued = pre ++ [fd]
             /\ Forall (readOk (store (db tx)) regions) pre
             /\ readOf (store (db tx)) regions fd = Err e
       | Panic m =>
           exists pre fd, issued = pre ++ [fd]
             /\ Forall (readOk (store (db tx)) regions) pre
             /\ readOf (store (db tx)) regions fd = Panic m
       end.
Proof.
  induction fl as [|fd fl IH]; intros tx br Hrange.
  - exists [], []. simpl. rewrite app_nil_r.
    repeat split; auto. intros _ fd Hfd. by apply elem_of_nil in Hfd.
  - destruct (Hrange fd) as [region Hregion]; [left|].
    assert (Hev : readEvent regions fd
                  = Some (EvReadBlockRegion (location fd) (database.Offset region)
                            (database.Len region))).
    { unfold readEvent. by rewrite Hregion. }
    assert (Hro : readOf (store (db tx)) regions fd
                  = readBlockRegion (store (db tx)) (location fd)
                      (database.Offset region) (database.Len region)).
    { unfold readOf. by rewrite Hregion. }
    simpl. rewrite Hregion. simpl.
    destruct (readBlockRegion (store (db tx)) (location fd)
                (database.Offset region) (database.Len region))
      as [b|e|m] eqn:Hread.
    + set (tx1 := emit _ tx).
      destruct (IH tx1 (<[replyIndex fd := b]> br)) as (issued & rest & Hfl & Htr & Hst & Hres).
      { intros fd' Hfd'. apply Hrange. by right. }
      exists (fd :: issued), rest. split; [by rewrite Hfl|].
      split.
      { rewrite Htr. unfold tx1. simpl. unfold readEvents. simpl. rewrite Hev.
        by rewrite <- app_assoc. }
      split; [by rewrite Hst|].
      assert (Hs1 : store (db tx1) = store (db tx)) by reflexivity.
      rewrite Hs1 in Hres.
      destruct ((readFetchList tx1 regions fl (<[replyIndex fd:=b]> br)).2)
        as [out|e|m].
      * destruct Hres as (Hrest & Hall & Hlen & Hother & Hmine).
        split; [done|]. split.
        { constructor; [|done]. exists b. by rewrite Hro. }
        split; [by rewrite Hlen, length_insert|].
        split.
        { intros k Hk. rewrite ?fmap_cons, not_elem_of_cons in Hk.
          destruct Hk as [Hne Hk]. rewrite (Hother k Hk).
          by apply list_lookup_insert_ne. }
        intros Hnd fd' Hfd' Hlt. rewrite ?fmap_cons in Hnd.
        apply NoDup_cons in Hnd as [Hnotin Hnd].
        apply elem_of_cons in Hfd' as [->|Hfd'].
        -- exists b. split; [by rewrite Hro|].
           rewrite (Hother _ Hnotin). by apply list_lookup_insert_eq.
        -- apply (Hmine Hnd fd' Hfd'). by rewrite length_insert.
      * destruct Hres as (pre & fd' & -> & Hall & Hbad).
        exists (fd :: pre), fd'. split; [done|]. split; [|done].
        constructor; [|done]. exists b. by rewrite Hro.
      * destruct Hres as (pre & fd' & -> & Hall & Hbad).
        exists (fd :: pre), fd'. split; [done|]. split; [|done].
        constructor; [|done]. exists b. by rewrite Hro.
    + exists [fd], fl. split; [done|]. split.
      { simpl. unfold readEvents. simpl. by rewrite Hev. }
      split; [done|]. exists [], fd. rewrite Hro. done.
    + exists [fd], fl. split; [done|]. split.
      { simpl. unfold readEvents. simpl. by rewrite Hev. }
      split; [done|]. exists [], fd. rewrite Hro. done.
Qed.

Lemma resolveRegions_spec tx : forall regions i br fl,
  match resolveRegions tx regions i br fl with
  | Ok (br', fl') =>
      length br' = length br
      /\ (forall k, (k < i)%nat -> br' !! k = br !! k)
      /\ exists fl2,
          fl' = fl ++ fl2
          /\ NoDup (replyIndex <$> fl2)
          /\ (forall fd, fd ∈ fl2 ->
              exists j region,
                replyIndex fd = (i + j)%nat /\ regions !! j = Some region
                /\ resolveRegion tx region = Ok (FromDisk (location fd)))
          /\ (forall j region, regions !! j = Some region ->
              match resolveRegion tx region with
              | Ok (Inline b) =>
                  ((i + j < length br)%nat -> br' !! (i + j)%nat = Some b)
                  /\ (i + j)%nat ∉ replyIndex <$> fl2
              | Ok (FromDisk loc) =>
                  {| location := loc; replyIndex := (i + j)%nat |} ∈ fl2
              | _ => False
              end)
  | Err e =>
      exists pre region post,
        regions = pre ++ region :: post
        /\ Forall (resolvesOk tx) pre /\ resolveRegion tx region = Err e
  | Panic m =>
      exists pre region post,
        regions = pre ++ region :: post
        /\ Forall (resolvesOk tx) pre /\ resolveRegion tx region = Panic m
  end.
Proof.
  induction regions as [|region rest IH]; intros i br fl.
  - simpl. split; [done|]. split; [done|]. exists [].
    rewrite app_nil_r. repeat split; [constructor| |].
    + intros fd Hfd. by apply elem_of_nil in Hfd.
    + intros j region Hj. by rewrite lookup_nil in Hj.
  - simpl. destruct (resolveRegion tx region) as [[b|loc]|e|m] eqn:Hres.
    + specialize (IH (S i) (<[i := b]> br) fl).
      destruct (resolveRegions tx rest (S i) (<[i:=b]> br) fl) as [[br' fl']|e|m].
      * destruct IH as (Hlen & Hlow & fl2 & -> & Hnd & Hmem & Hall).
        rewrite length_insert in Hlen. split; [done|]. split.
        { intros k Hk. rewrite Hlow by lia. apply list_lookup_insert_ne. lia. }
        exists fl2. split; [done|]. split; [done|]. split.
        { intros fd Hfd. destruct (Hmem fd Hfd) as (j & r & Hri & Hj & Hr).
          exists (S j), r. split; [lia|]. done. }
        intros [|j] r Hj; simpl in Hj.
        -- injection Hj as <-. rewrite Hres. rewrite Nat.add_0_r. split.
           ++ intros Hlt. rewrite Hlow by lia. by apply list_lookup_insert_eq.
           ++ intros Hin. apply list_elem_of_fmap in Hin as (fd & Hri & Hfd).
              destruct (Hmem fd Hfd) as (j & ? & Hri' & _). lia.
        -- specialize (Hall j r Hj). rewrite length_insert in Hall.
           replace (i + S j)%nat with (S i + j)%nat by lia. exact Hall.
      * destruct IH as (pre & r & post & -> & Hpre & Hbad).
        exists (region :: pre), r, post. split; [done|]. split; [|done].
        constructor; [|done]. by eexists.
      * destruct IH as (pre & r & post & -> & Hpre & Hbad).
        exists (region :: pre), r, post. split; [done|]. split; [|done].
        constructor; [|done]. by eexists.
    + specialize (IH (S i) br (fl ++ [{| location := loc; replyIndex := i |}])).
      destruct (resolveRegions tx rest (S i) br _) as [[br' fl']|e|m].
      * destruct IH as (Hlen & Hlow & fl2 & -> & Hnd & Hmem & Hall).
        split; [done|]. split.
        { intros k Hk. apply Hlow. lia. }
        exists ({| location := loc; replyIndex := i |} :: fl2).
        split; [by rewrite <- app_assoc|]. split.
        { rewrite ?fmap_cons. apply NoDup_cons. split; [|done]. simpl.
          intros Hin. apply list_elem_of_fmap in Hin as (fd & Hri & Hfd).
          destruct (Hmem fd Hfd) as (j & ? & Hri' & _). lia. }
        split.
        { intros fd Hfd. apply elem_of_cons in Hfd as [->|Hfd].
          - exists 0%nat, region. simpl. split; [lia|]. done.
          - destruct (Hmem fd Hfd) as (j & r & Hri & Hj & Hr).
            exists (S j), r. split; [lia|]. done. }
        intros [|j] r Hj; simpl in Hj.
        -- injection Hj as <-. rewrite Hres. rewrite Nat.add_0_r. left.
        -- specialize (Hall j r Hj).
           replace (i + S j)%nat with (S i + j)%nat by lia.
           destruct (resolveRegion tx r) as [[b'|loc']|e|m]; [| |done|done].
           ++ destruct Hall as [Hb Hnot]. split; [done|].
              rewrite ?fmap_cons. apply not_elem_of_cons. split; [simpl; lia|done].
           ++ by right.
      * destruct IH as (pre & r & post & -> & Hpre & Hbad).
        exists (region :: pre), r, post. split; [done|]. split; [|done].
        constructor; [|done]. by eexists.
      * destruct IH as (pre & r & post & -> & Hpre & Hbad).
        exists (region :: pre), r, post. split; [done|]. split; [|done].
        constructor; [|done]. by eexists.
    + exists [], region, rest. done.
    + exists [], region, rest. done.
Qed.

(** Sorted for [Less] is ascending by file number, then by file offset. *)
Lemma fetchSorted_lookup fl (i j : nat) a b :
  fetchSorted fl -> (i < j)%nat -> fl !! i = Some a -> fl !! j = Some b ->
  blockFileNum (location a) < blockFileNum (location b)
  \/ (blockFileNum (location a) = blockFileNum (location b)
      /\ fileOffset (location a) <= fileOffset (location b)).
Proof.
  intros Hs. revert i j. induction Hs as [|x l Hs IH Hall]; intros i j Hij Hi Hj.
  - by rewrite lookup_nil in Hi.
  - destruct j as [|j]; [lia|]. simpl in Hj. destruct i as [|i].
    + simpl in Hi. injection Hi as ->.
      rewrite Forall_forall in Hall.
      assert (Hle : fetchLe a b).
      { apply Hall. by eapply list_elem_of_lookup_2. }
      unfold fetchLe, lessData in Hle.
      repeat case_match; rewrite ?Z.ltb_lt, ?Z.ltb_ge in *; try done; lia.
    + simpl in Hi. apply (IH i j); [lia|done|done].
Qed.

Lemma resolveRegion_single tx region :
  closed tx = false ->
  match resolveRegion tx region with
  | Ok (Inline b) =>
      is_Some (pendingIndex tx (database.Hash region))
      /\ FetchBlockRegion tx region = (tx, Ok b)
  | Ok (FromDisk loc) =>
      pendingIndex tx (database.Hash region) = None
      /\ (FetchBlockRegion tx region).2
         = readBlockRegion (store (db tx)) loc
             (database.Offset region) (database.Len region)
  | _ => True
  end.
Proof.
  intros Hc. unfold resolveRegion, FetchBlockRegion.
  rewrite (open_checkClosed _ Hc), pendingRegion_pendingIndex.
  unfold fetchPendingRegion.
  destruct (pendingIndex tx (database.Hash region)) as [idx|].
  - destruct (pendingBlockData tx !! idx) as [pb|]; [|done].
    match goal with |- context [if ?c then _ else _] => destruct c end;
      [done|]. split; [by eexists|done].
  - destruct (fetchBlockRow tx (database.Hash region)) as [row| |]; try done.
    destruct (deserializeBlockLoc row) as [loc| |]; try done.
    match goal with |- context [if ?c then _ else _] => destruct c end; done.
Qed.

(** C4. On an open transaction [FetchBlockRegions] issues reads [issued]
    on the store and nothing else; they are in ascending (file number,
    file offset) order; each is for a region whose block is not pending,
    and no region is read twice.  On success the result has one entry
    per region, entry [i] being what [FetchBlockRegion] answers for
    region [i], and exactly the regions of blocks that are not pending
    were read.  An error is the first one met: either of the first
    region that does not resolve, before any read is issued, or of the
    last read issued, every read before it having succeeded; an error
    carries no results. *)
Theorem FetchBlockRegions_order tx regions :
  closed tx = false ->
  exists issued : list bulkFetchData,
    trace (db (FetchBlockRegions tx regions).1)
    = trace (db tx) ++ readEvents regions issued
    /\ fetchSorted issued
    /\ (forall (i j : nat) a b,
        (i < j)%nat -> issued !! i = Some a -> issued !! j = Some b ->
        blockFileNum (location a) < blockFileNum (location b)
        \/ (blockFileNum (location a) = blockFileNum (location b)
            /\ fileOffset (location a) <= fileOffset (location b)))
    /\ NoDup (replyIndex <$> issued)
    /\ (forall fd, fd ∈ issued ->
        exists region,
          regions !! replyIndex fd = Some region
          /\ pendingIndex tx (database.Hash region) = None
          /\ resolveRegion tx region = Ok (FromDisk (location fd)))
    /\ match (FetchBlockRegions tx regions).2 with
       | Ok out =>
           length out = length regions
           /\ Forall (readOk (store (db tx)) regions) issued
           /\ (forall i region, regions !! i = Some region ->
               exists b,
                 out !! i = Some b
                 /\ (FetchBlockRegion tx region).2 = Ok b
                 /\ (i ∈ replyIndex <$> issued
                     <-> pendingIndex tx (database.Hash region) = None))
       | Err e =>
           (issued = []
            /\ exists pre region post,
                regions = pre ++ region :: post
                /\ Forall (resolvesOk tx) pre /\ resolveRegion tx region = Err e)
           \/ (exists pre fd,
                issued = pre ++ [fd]
                /\ Forall (readOk (store (db tx)) regions) pre
                /\ readOf (store (db tx)) regions fd = Err e)
       | Panic m =>
           (issued = []
            /\ exists pre region post,
                regions = pre ++ region :: post
                /\ Forall (resolvesOk tx) pre /\ resolveRegion tx region = Panic m)
           \/ (exists pre fd,
                issued = pre ++ [fd]
                /\ Forall (readOk (store (db tx)) regions) pre
                /\ readOf (store (db tx)) regions fd = Panic m)
       end.
Proof.
  intros Hc. unfold FetchBlockRegions. rewrite (open_checkClosed _ Hc).
  pose proof (resolveRegions_spec tx regions 0 (replicate (length regions) []) [])
    as Hres.
  destruct (resolveRegions tx regions 0 (replicate (length regions) []) [])
    as [[br fl]|e|m].
  - destruct Hres as (Hlen & _ & fl2 & -> & Hnd & Hmem & Hall).
    rewrite length_replicate in Hlen. simpl.
    pose proof (sortFetchList_perm fl2) as Hperm.
    pose proof (sortFetchList_sorted fl2) as Hsorted.
    assert (Hnds : NoDup (replyIndex <$> sortFetchList fl2)) by by rewrite Hperm.
    assert (Hmems : forall fd, fd ∈ sortFetchList fl2 ->
              exists region, regions !! replyIndex fd = Some region
                /\ pendingIndex tx (database.Hash region) = None
                /\ resolveRegion tx region = Ok (FromDisk (location fd))).
    { intros fd Hfd. rewrite Hperm in Hfd.
      destruct (Hmem fd Hfd) as (j & region & Hri & Hj & Hr).
      exists region. simpl in Hri. rewrite Hri. split; [done|]. split; [|done].
      pose proof (resolveRegion_single tx region Hc) as Hs. rewrite Hr in Hs.
      by destruct Hs. }
    destruct (readFetchList_spec regions (sortFetchList fl2) tx br)
      as (issued & rest & Hsplit & Htr & Hst & Hout).
    { intros fd Hfd. destruct (Hmems fd Hfd) as (region & -> & _). by eexists. }
    exists issued. split; [exact Htr|].
    assert (Hsi : fetchSorted issued).
    { unfold fetchSorted in *. rewrite Hsplit in Hsorted.
      by apply StronglySorted_app_1_l in Hsorted. }
    split; [exact Hsi|].
    split. { intros i j a b. by apply fetchSorted_lookup. }
    split. { rewrite Hsplit, fmap_app in Hnds. by apply NoDup_app in Hnds as [? _]. }
    split. { intros fd Hfd. apply Hmems. rewrite Hsplit. apply elem_of_app. by left. }
    destruct (readFetchList tx regions (sortFetchList fl2) br).2 as [out|e|m].
    + destruct Hout as (-> & Hok & Hlen' & Hother & Hmine).
      rewrite app_nil_r in Hsplit. subst issued.
      split; [lia|]. split; [done|].
      intros i region Hi.
      pose proof (Hall i region Hi) as Hcase. simpl in Hcase.
      pose proof (resolveRegion_single tx region Hc) as Hs.
      assert (Hilt : (i < length regions)%nat) by by eapply lookup_lt_Some.
      destruct (resolveRegion tx region) as [[b|loc]| |]; [| |done|done].
      * destruct Hcase as [Hb Hnot]. destruct Hs as [Hpend Hsingle].
        exists b. split.
        { rewrite Hother; [apply Hb; rewrite length_replicate; lia|].
          by rewrite Hperm. }
        split; [by rewrite Hsingle|].
        split.
        -- intros Hin. rewrite Hperm in Hin. exfalso. exact (Hnot Hin).
        -- intros Hnone. rewrite Hnone in Hpend. by destruct Hpend.
      * destruct Hs as [Hnone Hsingle].
        assert (Hin : {| location := loc; replyIndex := i |} ∈ sortFetchList fl2)
          by by rewrite Hperm.
        destruct (Hmine Hnds _ Hin) as (b & Hread & Hlook); [simpl; lia|].
        simpl in Hlook. exists b. split; [done|]. split.
        { rewrite Hsingle. unfold readOf in Hread. simpl in Hread.
          by rewrite Hi in Hread. }
        split; [done|]. intros _.
        apply list_elem_of_fmap. by exists {| location := loc; replyIndex := i |}.
    + by right.
    + by right.
  - exists []. simpl. rewrite app_nil_r. split; [done|].
    split; [constructor|].
    split. { intros i j a b _ Hi. by rewrite lookup_nil in Hi. }
    split; [constructor|].
    split. { intros fd Hfd. by apply elem_of_nil in Hfd. }
    left. done.
  - exists []. simpl. rewrite app_nil_r. split; [done|].
    split; [constructor|].
    split. { intros i j a b _ Hi. by rewrite lookup_nil in Hi. }
    split; [constructor|].
    split. { intros fd Hfd. by apply elem_of_nil in Hfd. }
    left. done.
Qed.

End bulk_regions.

(** ** Pruning *)

Section pruning.

Context `{Externals}.
Implicit Types (tx : transaction).

Lemma wrap32_small z : 0 <= z < 2 ^ 32 -> wrap32 z = z.
Proof. intros Hz. unfold wrap32. by apply Z.mod_small. Qed.

Lemma wrap64_small z : 0 <= z < 2 ^ 64 -> wrap64 z = z.
Proof. intros Hz. unfold wrap64. by apply Z.mod_small. Qed.

(** The bound the file loop recurses on is the loop's own: with more of
    it the loop does the same. *)
Lemma pruneFilesLoop_fuel n : forall k tx i last dels total target maxSize,
  0 <= i -> last - i <= Z.of_nat n -> last < 2 ^ 32 ->
  pruneFilesLoop (n + k) tx i last dels total target maxSize
  = pruneFilesLoop n tx i last dels total target maxSize.
Proof.
  induction n as [|n IH]; intros k tx i last dels total target maxSize Hi Hn Hl.
  - simpl. destruct k as [|k]; [done|]. simpl.
    assert (Hge : (i <? last) = false) by (apply Z.ltb_ge; lia).
    by rewrite Hge.
  - simpl. destruct (i <? last) eqn:Hlt; [|done]. apply Z.ltb_lt in Hlt.
    destruct (wrap64 (total - maxSize) <=? target); [done|].
    rewrite wrap32_small by lia. apply IH; lia.
Qed.

(** In particular for the bound [PruneBlocks] gives it. *)
Lemma pruneFilesLoop_enough (first last : Z) k tx dels total target maxSize :
  pruneFilesLoop (Z.to_nat (wrap32 last - wrap32 first) + k) tx
    (wrap32 first) (wrap32 last) dels total target maxSize
  = pruneFilesLoop (Z.to_nat (wrap32 last - wrap32 first)) tx
      (wrap32 first) (wrap32 last) dels total target maxSize.
Proof.
  assert (Hf : 0 <= wrap32 first < 2 ^ 32) by (apply Z.mod_pos_bound; lia).
  assert (Hl : 0 <= wrap32 last < 2 ^ 32) by (apply Z.mod_pos_bound; lia).
  apply pruneFilesLoop_fuel; lia.
Qed.

(** The file loop, under the conditions it is entered with: it takes
    [m >= 1] consecutive files from [i] on, the least number that brings
    the size down to the target, or all [n] of them. *)
Lemma pruneFilesLoop_spec n : forall tx i last dels total target maxSize,
  0 <= i -> i + Z.of_nat (S n) = last -> last < 2 ^ 32 ->
  0 <= maxSize <= target -> target < total < 2 ^ 64 ->
  exists m dels',
    1 <= m <= Z.of_nat (S n)
    /\ pruneFilesLoop (S n) tx i last dels total target maxSize
       = (set_pendingDelFileNums (pendingDelFileNums tx ++ seqZ i m) tx,
          dels', total - m * maxSize)
    /\ (forall f, f ∈ dels' <-> i <= f < i + m \/ f ∈ dels)
    /\ (m = Z.of_nat (S n) \/ total - m * maxSize <= target)
    /\ (forall m', 1 <= m' < m -> target < total - m' * maxSize).
Proof.
  induction n as [|n IH]; intros tx i last dels total target maxSize Hi Hn Hl Hm Ht.
  - exists 1, ({[i]} ∪ dels). simpl.
    assert (Hlt : (i <? last) = true) by (apply Z.ltb_lt; lia).
    rewrite Hlt. rewrite wrap64_small by lia. rewrite Z.mul_1_l.
    split; [lia|]. split.
    { rewrite (seqZ_cons i 1) by lia. rewrite seqZ_nil by lia.
      by destruct (total - maxSize <=? target). }
    split. { intros f. rewrite elem_of_union, elem_of_singleton. intuition lia. }
    split; [by left|]. lia.
  - remember (S n) as n1 eqn:Hn1. simpl.
    assert (Hlt : (i <? last) = true) by (apply Z.ltb_lt; lia).
    rewrite Hlt. rewrite wrap64_small by lia.
    destruct (total - maxSize <=? target) eqn:Hstop.
    + apply Z.leb_le in Hstop. exists 1, ({[i]} ∪ dels). rewrite Z.mul_1_l.
      split; [lia|]. split.
      { rewrite (seqZ_cons i 1) by lia. by rewrite seqZ_nil by lia. }
      split. { intros f. rewrite elem_of_union, elem_of_singleton. intuition lia. }
      split; [by right|]. lia.
    + apply Z.leb_gt in Hstop. rewrite wrap32_small by lia. subst n1.
      destruct (IH (set_pendingDelFileNums (pendingDelFileNums tx ++ [i]) tx)
                  (i + 1) last ({[i]} ∪ dels) (total - maxSize) target maxSize)
        as (m & dels' & Hmr & Heq & Hdels & Hend & Hmin); try lia.
      exists (m + 1), dels'. split; [lia|]. split.
      { rewrite Heq. simpl. rewrite <- app_assoc.
        rewrite (seqZ_cons i (m + 1)) by lia.
        replace (Z.pred (m + 1)) with m by lia.
        replace (Z.succ i) with (i + 1) by lia.
        replace (total - maxSize - m * maxSize) with (total - (m + 1) * maxSize) by lia.
        done. }
      split.
      { intros f. rewrite Hdels, elem_of_union, elem_of_singleton. intuition lia. }
      split.
      { destruct Hend as [->|Hle]; [left; lia|right; lia]. }
      intros m' Hm'. destruct (decide (m' = 1)) as [->|Hne]; [lia|].
      specialize (Hmin (m' - 1)). lia.
Qed.

Lemma deleteKey_closed tx k n : closed (deleteKey tx k n) = closed tx.
Proof. destruct n; reflexivity. Qed.

Lemma deleteKey_snapshot tx k n : snapshot (deleteKey tx k n) = snapshot tx.
Proof. destruct n; reflexivity. Qed.

Lemma deleteKey_pendingDel tx k n :
  pendingDelFileNums (deleteKey tx k n) = pendingDelFileNums tx.
Proof. destruct n; reflexivity. Qed.

Lemma fetchKey_deleteKey tx k n key :
  writable tx = true ->
  fetchKey (deleteKey tx k n) key
  = if decide (key = k) then None else fetchKey tx key.
Proof.
  intros Hw. unfold fetchKey.
  rewrite deleteKey_writable, Hw, deleteKey_snapshot.
  unfold treap.Has, treap.Get.
  rewrite deleteKey_pendingRemove, deleteKey_pendingKeys.
  destruct (decide (key = k)) as [->|Hne].
  - rewrite lookup_insert_eq. by rewrite bool_decide_eq_true_2 by eauto.
  - rewrite lookup_insert_ne, lookup_delete_ne by done. done.
Qed.

Lemma hasKey_deleteKey tx k n key :
  writable tx = true ->
  hasKey (deleteKey tx k n) key
  = if decide (key = k) then false else hasKey tx key.
Proof.
  intros Hw. unfold hasKey.
  rewrite deleteKey_writable, Hw, deleteKey_snapshot.
  unfold treap.Has.
  rewrite deleteKey_pendingRemove, deleteKey_pendingKeys.
  destruct (decide (key = k)) as [->|Hne].
  - rewrite lookup_insert_eq. by rewrite bool_decide_eq_true_2 by eauto.
  - rewrite lookup_insert_ne, lookup_delete_ne by done. done.
Qed.

Lemma deleteKeys_writable keys : forall tx,
  writable (deleteKeys tx keys) = writable tx.
Proof.
  induction keys as [|k keys IH]; intros tx; simpl; [done|].
  unfold deleteKeys in IH. by rewrite IH.
Qed.

Lemma fetchKey_deleteKeys keys : forall tx key,
  writable tx = true ->
  fetchKey (deleteKeys tx keys) key
  = if decide (key ∈ keys) then None else fetchKey tx key.
Proof.
  induction keys as [|k keys IH]; intros tx key Hw.
  - destruct (decide (key ∈ [])) as [Hin|_]; [|done].
    by apply elem_of_nil in Hin.
  - change (deleteKeys tx (k :: keys)) with (deleteKeys (deleteKey tx k true) keys).
    rewrite IH by done. rewrite fetchKey_deleteKey by done.
    destruct (decide (key ∈ keys)) as [Hin|Hnin];
      destruct (decide (key = k)) as [->|Hne];
      destruct (decide (_ ∈ k :: keys)) as [Hin'|Hnin']; try done.
    + exfalso. apply Hnin'. by right.
    + exfalso. apply Hnin'. by right.
    + exfalso. apply Hnin'. by left.
    + exfalso. apply elem_of_cons in Hin' as [?|?]; done.
Qed.

Lemma hasKey_deleteKeys keys : forall tx key,
  writable tx = true ->
  hasKey (deleteKeys tx keys) key
  = if decide (key ∈ keys) then false else hasKey tx key.
Proof.
  induction keys as [|k keys IH]; intros tx key Hw.
  - destruct (decide (key ∈ [])) as [Hin|_]; [|done].
    by apply elem_of_nil in Hin.
  - change (deleteKeys tx (k :: keys)) with (deleteKeys (deleteKey tx k true) keys).
    rewrite IH by done. rewrite hasKey_deleteKey by done.
    destruct (decide (key ∈ keys)) as [Hin|Hnin];
      destruct (decide (key = k)) as [->|Hne];
      destruct (decide (_ ∈ k :: keys)) as [Hin'|Hnin']; try done.
    + exfalso. apply Hnin'. by right.
    + exfalso. apply Hnin'. by right.
    + exfalso. apply Hnin'. by left.
    + exfalso. apply elem_of_cons in Hin' as [?|?]; done.
Qed.

Lemma pruneIndex_pendingDel entries : forall tx dels acc,
  pendingDelFileNums (pruneIndex tx entries dels acc).1 = pendingDelFileNums tx.
Proof.
  induction entries as [|[k v] entries IH]; intros tx dels acc; simpl; [done|].
  destruct (deserializeBlockLoc v) as [loc| |]; [|done|done].
  destruct (bool_decide (blockFileNum loc ∈ dels)); [|apply IH].
  destruct (hashOfKey k); [|done].
  unfold cursorDelete. destruct (checkClosed tx); [done|].
  by rewrite IH.
Qed.

Lemma hashOfKey_hash k : length k = HashSize -> hashOfKey k = Some k.
Proof.
  intros Hk. unfold hashOfKey. rewrite Hk, Nat.ltb_irrefl.
  by rewrite take_ge by lia.
Qed.

(** The cursor walk over a well-formed block index: it deletes the
    entries that point into the deleted files, and returns their hashes,
    in cursor order. *)
Lemma pruneIndex_spec (lo n : Z) (dels : gset Z) entries : forall tx acc,
  closed tx = false ->
  (forall f, f ∈ dels <-> lo <= f < lo + n) ->
  Forall entryOk entries ->
  pruneIndex tx entries dels acc
  = (deleteKeys tx
       (bucketizedKey blockIdxBucketID
          <$> (fst <$> filter (fun e => inFiles lo n e) entries)),
     Ok (acc ++ (fst <$> filter (fun e => inFiles lo n e) entries))).
Proof.
  induction entries as [|[k v] entries IH]; intros tx acc Hc Hdels Hok.
  - simpl. by rewrite app_nil_r.
  - apply Forall_cons in Hok as [[Hk [f Hf]] Hok]. simpl in Hk.
    simpl. unfold entryFile in Hf. simpl in Hf.
    destruct (deserializeBlockLoc v) as [loc| |] eqn:Hde; try done.
    injection Hf as <-.
    destruct (bool_decide (blockFileNum loc ∈ dels)) eqn:Hin.
    + apply bool_decide_eq_true in Hin. apply Hdels in Hin.
      rewrite (hashOfKey_hash _ Hk). unfold cursorDelete.
      rewrite (open_checkClosed _ Hc).
      rewrite IH; [|by rewrite deleteKey_closed|done|done].
      rewrite filter_cons_True.
      2:{ unfold inFiles, entryFile. simpl. rewrite Hde.
          by rewrite bool_decide_eq_true_2. }
      simpl. by rewrite <- app_assoc.
    + apply bool_decide_eq_false in Hin. rewrite Hdels in Hin.
      rewrite IH by done.
      rewrite filter_cons_False; [done|].
      unfold inFiles, entryFile. simpl. rewrite Hde.
      rewrite bool_decide_eq_false_2 by done. by intros [].
Qed.

Lemma hasPrefix_app p s : hasPrefix p (p ++ s) = true.
Proof.
  induction p as [|x p IH]; simpl; [done|].
  by rewrite bool_decide_eq_true_2, IH.
Qed.

Lemma hasPrefix_drop p : forall key,
  hasPrefix p key = true -> key = p ++ drop (length p) key.
Proof.
  induction p as [|x p IH]; intros [|y key] Hp; simpl in *; try done.
  apply andb_true_iff in Hp as [Hxy Hp]. apply bool_decide_eq_true in Hxy.
  subst y. f_equal. by apply IH.
Qed.

Lemma fetchKey_Some_hasKey tx key v :
  fetchKey tx key = Some v ->
  hasKey tx key = true
  /\ key ∈ elements (dom (default ∅ (snapshot tx)) ∪ dom (pendingKeys tx)).
Proof.
  unfold fetchKey, hasKey, treap.Has, treap.Get, snapshotGet, snapshotHas.
  rewrite elem_of_elements, elem_of_union, !elem_of_dom.
  destruct (writable tx).
  - destruct (bool_decide (is_Some (pendingRemove tx !! key))); [done|].
    destruct (pendingKeys tx !! key) as [v'|] eqn:Hpk.
    + intros _. rewrite bool_decide_eq_true_2 by eauto. split; [done|]. right. eauto.
    + rewrite bool_decide_eq_false_2 by (by intros [? ?]).
      destruct (snapshot tx) as [root|]; [|done]. simpl. intros Hs.
      rewrite bool_decide_eq_true_2 by eauto. split; [done|]. left. eauto.
  - destruct (snapshot tx) as [root|]; [|done]. simpl. intros Hs.
    rewrite bool_decide_eq_true_2 by eauto. split; [done|]. left. eauto.
Qed.

(** The cursor meets exactly the entries of the bucket, as the
    transaction sees them through its overlay. *)
Lemma cursorEntries_elem tx (b : bucket) k v :
  (k, v) ∈ cursorEntries tx b <-> fetchKey tx (bucketizedKey (id b) k) = Some v.
Proof.
  unfold cursorEntries, bucketKeys. rewrite list_elem_of_omap. split.
  - intros (key & Hkey & Hf).
    rewrite merge_sort_Permutation in Hkey.
    apply list_elem_of_filter in Hkey as [Hp _].
    apply andb_prop_elim in Hp as [Hp _]. apply Is_true_eq_true in Hp.
    destruct (fetchKey tx key) as [v'|] eqn:Hfetch; [|done].
    simpl in Hf. injection Hf as <- <-.
    unfold bucketizedKey. by rewrite <- (hasPrefix_drop _ _ Hp).
  - intros Hfetch. exists (bucketizedKey (id b) k).
    destruct (fetchKey_Some_hasKey _ _ _ Hfetch) as [Hhas Hin].
    split.
    + rewrite merge_sort_Permutation. apply list_elem_of_filter. split; [|done].
      unfold bucketizedKey at 1. rewrite hasPrefix_app, Hhas. done.
    + rewrite Hfetch. simpl. unfold bucketizedKey.
      by rewrite drop_app_length.
Qed.

#[local] Instance bytesLe_total : Total (fun a b : list byte => Is_true (bytesLe a b)).
Proof.
  intros a. induction a as [|x a IH]; intros [|y b]; simpl; auto.
  destruct (Byte.to_N x <? Byte.to_N y)%N eqn:Hxy; [by left|].
  destruct (Byte.to_N y <? Byte.to_N x)%N eqn:Hyx; [by right|].
  apply IH.
Qed.

(** The cursor meets the keys of the bucket in ascending order, each
    once. *)
Lemma bucketKeys_sorted tx (b : bucket) :
  Sorted (fun a b : list byte => Is_true (bytesLe a b)) (bucketKeys tx b).
Proof. unfold bucketKeys. apply Sorted_merge_sort, _. Qed.

Lemma bucketKeys_NoDup tx (b : bucket) : NoDup (bucketKeys tx b).
Proof.
  unfold bucketKeys. rewrite merge_sort_Permutation.
  apply NoDup_filter, NoDup_elements.
Qed.

Lemma bucketKeys_prefix tx (b : bucket) key :
  key ∈ bucketKeys tx b -> hasPrefix (id b) key = true.
Proof.
  unfold bucketKeys. rewrite merge_sort_Permutation.
  intros [Hp _]%list_elem_of_filter.
  apply andb_prop_elim in Hp as [Hp _]. by apply Is_true_eq_true.
Qed.

Lemma cursorEntries_NoDup tx (b : bucket) : NoDup (cursorEntries tx b).*1.
Proof.
  unfold cursorEntries.
  pose proof (bucketKeys_NoDup tx b) as Hnd.
  pose proof (bucketKeys_prefix tx b) as Hpre.
  induction (bucketKeys tx b) as [|key keys IH]; simpl; [constructor|].
  apply NoDup_cons in Hnd as [Hnotin Hnd].
  assert (IH' := IH Hnd (fun k Hk => Hpre k (list_elem_of_further _ _ _ Hk))).
  destruct (fetchKey tx key) as [v|]; simpl; [|done].
  constructor; [|done].
  intros Hin. apply list_elem_of_fmap in Hin as ([k' v'] & Hk' & Hin). simpl in Hk'.
  apply list_elem_of_omap in Hin as (key' & Hkey' & Hf).
  destruct (fetchKey tx key') as [v''|]; [|done]. simpl in Hf.
  injection Hf as <- <-.
  apply Hnotin.
  rewrite (hasPrefix_drop (id b) key) by (apply Hpre; left).
  rewrite Hk'.
  rewrite <- (hasPrefix_drop (id b) key') by (apply Hpre; by right).
  done.
Qed.

(** C1. On an open writable transaction, for a uint64 target and a
    uint32 [maxBlockFileSize]: [PruneBlocks] fails with a plain (domain)
    error when the target is below [maxBlockFileSize].  Otherwise, with
    [(first, last, lastFileSize)] scanned from the block files, it
    changes nothing and returns no hashes when [first = last], or when
    [totalSize = lastFileSize + maxBlockFileSize * (last - first)] is at
    most the target.  Otherwise it appends to [pendingDelFileNums] the
    files [first, first + 1, ...], [n] of them, never [last], where [n]
    is the least count that brings [totalSize - n * maxBlockFileSize]
    down to the target, or all but the last file; then, over a
    well-formed block index, it deletes exactly the entries whose
    location is in one of these files and returns exactly their hashes,
    in cursor order. *)
Theorem PruneBlocks_spec tx (targetSize : Z) :
  closed tx = false -> writable tx = true ->
  0 <= targetSize < 2 ^ 64 ->
  0 <= maxBlockFileSize (store (db tx)) < 2 ^ 32 ->
  let maxSize := maxBlockFileSize (store (db tx)) in
  (targetSize < maxSize ->
   PruneBlocks tx targetSize = (tx, Err (GoError errTargetSizeStr)))
  /\ (maxSize <= targetSize ->
      forall first last lastFileSize,
        scanBlockFiles (store (db tx)) = Ok (first, last, lastFileSize) ->
        (first = last -> PruneBlocks tx targetSize = (tx, Ok []))
        /\ (0 <= first < last -> last < 2 ^ 32 -> 0 <= lastFileSize < 2 ^ 32 ->
            let totalSize := lastFileSize + maxSize * (last - first) in
            (totalSize <= targetSize -> PruneBlocks tx targetSize = (tx, Ok []))
            /\ (targetSize < totalSize ->
                exists n,
                  1 <= n <= last - first
                  /\ (n = last - first \/ totalSize - n * maxSize <= targetSize)
                  /\ (forall m, 1 <= m < n -> targetSize < totalSize - m * maxSize)
                  /\ (last ∉ seqZ first n)
                  /\ pendingDelFileNums (PruneBlocks tx targetSize).1
                     = pendingDelFileNums tx ++ seqZ first n
                  /\ (Forall entryOk (cursorEntries tx blockIdxBucket) ->
                      let hashes := (prunedEntries tx first n).*1 in
                      let tx' := (PruneBlocks tx targetSize).1 in
                      (PruneBlocks tx targetSize).2 = Ok hashes
                      /\ NoDup hashes
                      /\ (forall h,
                          h ∈ hashes <->
                          exists row loc,
                            fetchKey tx (bucketizedKey blockIdxBucketID h) = Some row
                            /\ deserializeBlockLoc row = Ok loc
                            /\ blockFileNum loc ∈ seqZ first n)
                      /\ (forall key,
                          fetchKey tx' key
                          = if decide (key ∈ bucketizedKey blockIdxBucketID <$> hashes)
                            then None else fetchKey tx key)
                      /\ (forall key,
                          hasKey tx' key
                          = if decide (key ∈ bucketizedKey blockIdxBucketID <$> hashes)
                            then false else hasKey tx key))))).
Proof.
  intros Hc Hw Ht Hmax maxSize.
  assert (Hmax' : 0 <= maxSize < 2 ^ 32) by exact Hmax.
  split.
  - intros Hlt. unfold PruneBlocks.
    rewrite (open_checkClosed _ Hc), Hw. simpl.
    rewrite wrap64_small by (fold maxSize; lia). fold maxSize.
    assert (Hb : (targetSize <? maxSize) = true) by (apply Z.ltb_lt; lia).
    by rewrite Hb.
  - intros Hge first last lastFileSize Hscan.
    assert (Hentry : PruneBlocks tx targetSize
              = if bool_decide (first = last) then (tx, Ok [])
                else
                  let totalSize :=
                    wrap64 (wrap64 lastFileSize
                            + wrap64 (maxSize * wrap64 (last - first))) in
                  if totalSize <=? targetSize then (tx, Ok [])
                  else
                    let '(tx, deletedFiles, totalSize) :=
                      pruneFilesLoop (Z.to_nat (wrap32 last - wrap32 first)) tx
                        (wrap32 first) (wrap32 last) ∅ totalSize targetSize maxSize in
                    let tx := bucketCursor tx blockIdxBucket in
                    pruneIndex tx (cursorEntries tx blockIdxBucket) deletedFiles []).
    { unfold PruneBlocks. rewrite (open_checkClosed _ Hc), Hw. simpl.
      rewrite wrap64_small by (fold maxSize; lia). fold maxSize.
      assert (Hb : (targetSize <? maxSize) = false) by (apply Z.ltb_ge; lia).
      by rewrite Hb, Hscan. }
    split.
    + intros ->. rewrite Hentry. by rewrite bool_decide_eq_true_2.
    + intros Hfl Hl Hlfs totalSize.
      assert (Hprod : 0 <= maxSize * (last - first) < 2 ^ 64 - 2 ^ 32) by nia.
      assert (Htotal : wrap64 (wrap64 lastFileSize
                               + wrap64 (maxSize * wrap64 (last - first)))
                       = totalSize).
      { rewrite (wrap64_small (last - first)) by lia.
        rewrite (wrap64_small (maxSize * _)) by lia.
        rewrite (wrap64_small lastFileSize) by lia.
        rewrite wrap64_small by lia. done. }
      rewrite bool_decide_eq_false_2 in Hentry by lia.
      cbv zeta in Hentry. rewrite Htotal in Hentry.
      split.
      * intros Hle. rewrite Hentry.
        assert (Hb : (totalSize <=? targetSize) = true) by (apply Z.leb_le; lia).
        by rewrite Hb.
      * intros Hgt.
        assert (Hb : (totalSize <=? targetSize) = false) by (apply Z.leb_gt; lia).
        rewrite Hb in Hentry.
        rewrite (wrap32_small first), (wrap32_small last) in Hentry by lia.
        assert (Hfuel : Z.to_nat (last - first) = S (Z.to_nat (last - first - 1)))
          by lia.
        rewrite Hfuel in Hentry.
        destruct (pruneFilesLoop_spec (Z.to_nat (last - first - 1)) tx first last ∅
                    totalSize targetSize maxSize)
          as (n & dels & Hn & Hloop & Hdels & Hend & Hmin); try lia.
        rewrite Hloop in Hentry.
        set (tx1 := bucketCursor
                      (set_pendingDelFileNums (pendingDelFileNums tx ++ seqZ first n) tx)
                      blockIdxBucket) in Hentry.
        change (cursorEntries tx1 blockIdxBucket)
          with (cursorEntries tx blockIdxBucket) in Hentry.
        exists n. split; [lia|]. split; [destruct Hend; [left|right]; lia|].
        split; [exact Hmin|]. split; [rewrite elem_of_seqZ; lia|].
        split. { rewrite Hentry, pruneIndex_pendingDel. done. }
        intros Hok hashes tx'.
        assert (Hdels' : forall f, f ∈ dels <-> first <= f < first + n).
        { intros f. rewrite Hdels. rewrite elem_of_empty. intuition. }
        pose proof (pruneIndex_spec first n dels (cursorEntries tx blockIdxBucket)
                      tx1 [] Hc Hdels' Hok) as Hwalk.
        fold (prunedEntries tx first n) in Hwalk. fold hashes in Hwalk.
        simpl in Hwalk.
        assert (Htx' : tx' = deleteKeys tx1 (bucketizedKey blockIdxBucketID <$> hashes)).
        { unfold tx'. by rewrite Hentry, Hwalk. }
        split; [by rewrite Hentry, Hwalk|].
        split.
        { unfold hashes, prunedEntries.
          eapply sublist_NoDup; [apply (cursorEntries_NoDup tx blockIdxBucket)|].
          apply fmap_sublist, sublist_filter. }
        split.
        { intros h. unfold hashes, prunedEntries.
          rewrite list_elem_of_fmap. split.
          - intros ([k row] & -> & Hin). simpl.
            apply list_elem_of_filter in Hin as [Hfiles Hin].
            apply cursorEntries_elem in Hin. simpl in Hin.
            unfold inFiles, entryFile in Hfiles. simpl in Hfiles.
            destruct (deserializeBlockLoc row) as [loc| |] eqn:Hde; try done.
            apply bool_decide_unpack in Hfiles.
            exists row, loc. rewrite elem_of_seqZ. done.
          - intros (row & loc & Hfetch & Hde & Hin).
            exists (h, row). split; [done|].
            apply list_elem_of_filter. split.
            + unfold inFiles, entryFile. simpl. rewrite Hde.
              apply bool_decide_pack. by apply elem_of_seqZ.
            + by apply cursorEntries_elem. }
        split.
        { intros key. rewrite Htx'. by rewrite fetchKey_deleteKeys. }
        { intros key. rewrite Htx'. by rewrite hasKey_deleteKeys. }
Qed.

End pruning.

(** ** The commit path *)

Section commit_path.

Context `{Externals}.
Implicit Types (tx : transaction).

Lemma deletePendingFiles_store fileNums : forall tx,
  store (db (deletePendingFiles tx fileNums).1) = store (db tx).
Proof.
  induction fileNums as [|f fileNums IH]; intros tx; simpl; [done|].
  destruct (deleteFileFunc (store (db tx)) f); [done|]. by rewrite IH.
Qed.

(** The pending file deletions are the only calls the first loop makes,
    in order, up to the first one that fails. *)
Lemma deletePendingFiles_trace fileNums : forall tx,
  exists done_,
    done_ `prefix_of` fileNums
    /\ trace (db (deletePendingFiles tx fileNums).1)
       = trace (db tx) ++ (EvDeleteFile <$> done_)
    /\ match (deletePendingFiles tx fileNums).2 with
       | None => done_ = fileNums
       | Some _ => exists f, last done_ = Some f
       end.
Proof.
  induction fileNums as [|f fileNums IH]; intros tx; simpl.
  - exists []. rewrite app_nil_r. done.
  - destruct (deleteFileFunc (store (db tx)) f) eqn:Hdel.
    + exists [f]. simpl. split; [by exists fileNums|]. split; [done|]. by exists f.
    + destruct (IH (emit (EvDeleteFile f) tx)) as (done_ & Hpre & Htr & Hres).
      exists (f :: done_). split; [by apply prefix_cons|]. split.
      { rewrite Htr. simpl. by rewrite <- app_assoc. }
      destruct ((deletePendingFiles (emit (EvDeleteFile f) tx) fileNums).2).
      * destruct Hres as [f' Hf']. exists f'.
        destruct done_; [done|]. by rewrite last_cons_cons.
      * by rewrite Hres.
Qed.

(** A failure of [writeBlock] or of the block-index [Put] in the second
    loop runs the rollback closure last. *)
Lemma writePendingBlocks_failure rollback blocks : forall tx tx' e,
  writePendingBlocks tx rollback blocks = (tx', Err e) ->
  exists tx0, tx' = rollback tx0.
Proof.
  induction blocks as [|blockData blocks IH]; intros tx tx' e; simpl; [done|].
  destruct (writeBlock _ _ _ _) as [wc [location|err|msg]].
  - destruct (bucketPut _ _ _ _) as [tx1 [err|]].
    + intros [= <- <-]. by eexists.
    + apply IH.
  - intros [= <- <-]. by eexists.
  - done.
Qed.

(** The failures of [writePendingAndCommit], by the call it made last:
    a file deletion that failed; the rollback to the write position saved
    before the first append, after a failed [writeBlock] or [Put]; or
    [commitTx], whose failure is returned as it is. *)
Lemma writePendingAndCommit_failures tx tx' e :
  writePendingAndCommit tx = (tx', Err e) ->
  (exists f, last (trace (db tx')) = Some (EvDeleteFile f))
  \/ last (trace (db tx'))
     = Some (EvHandleRollback (curFileNum (writeCursor (store (db tx))))
               (curOffset (writeCursor (store (db tx)))))
  \/ last (trace (db tx')) = Some EvCommitTx.
Proof.
  unfold writePendingAndCommit.
  pose proof (deletePendingFiles_store (pendingDelFileNums tx) tx) as Hst.
  destruct (deletePendingFiles_trace (pendingDelFileNums tx) tx)
    as (done_ & _ & Htr & Hres).
  destruct (deletePendingFiles tx (pendingDelFileNums tx)) as [tx1 [err|]];
    simpl in *.
  - intros [= <- <-]. left. destruct Hres as [f Hf]. exists f.
    rewrite Htr. apply last_Some in Hf as [l' ->].
    rewrite fmap_app, app_assoc. simpl. apply last_snoc.
  - rewrite Hst.
    destruct (writePendingBlocks tx1 _ (pendingBlockData tx1))
      as [tx2 [[]|err|msg]] eqn:Hw.
    + destruct (bucketPut tx2 metaBucket _ _) as [tx3 [err|]].
      * intros [= <- <-]. right. left. unfold handleRollback. simpl.
        apply last_snoc.
      * unfold commitTx.
        destruct (backendFlush _ _ _); [|done].
        intros [= <- <-]. right. right. simpl. apply last_snoc.
    + intros [= <- <-]. right. left.
      apply writePendingBlocks_failure in Hw as [tx0 ->].
      unfold handleRollback. simpl. apply last_snoc.
    + done.
Qed.

End commit_path.

(** ** The pending key sets stay disjoint *)

Section pending_invariant.

Context `{Externals}.

Implicit Types (tx : transaction).

Lemma samePending_disjoint tx tx' :
  samePending tx tx' -> pendingDisjoint tx -> pendingDisjoint tx'.
Proof. intros [Hk Hr] Hd k. rewrite Hk, Hr. apply Hd. Qed.

Lemma samePending_refl tx : samePending tx tx.
Proof. by split. Qed.

Lemma samePending_trans tx1 tx2 tx3 :
  samePending tx1 tx2 -> samePending tx2 tx3 -> samePending tx1 tx3.
Proof. intros [? ?] [? ?]. split; congruence. Qed.

Lemma FetchBlock_pending tx h : samePending tx (FetchBlock tx h).1.
Proof. unfold FetchBlock. repeat case_match; by split. Qed.

Lemma fetchBlocksLoop_pending hashes : forall tx blocks,
  samePending tx (fetchBlocksLoop tx hashes blocks).1.
Proof.
  induction hashes as [|h hashes IH]; intros tx blocks; simpl; [by split|].
  pose proof (FetchBlock_pending tx h) as Hf.
  destruct (FetchBlock tx h) as [tx1 [b|e|m]]; [|done|done].
  eapply samePending_trans; [exact Hf|apply IH].
Qed.

Lemma FetchBlocks_pending tx hashes : samePending tx (FetchBlocks tx hashes).1.
Proof.
  unfold FetchBlocks. destruct (checkClosed tx); [by split|].
  apply fetchBlocksLoop_pending.
Qed.

Lemma FetchBlockRegion_pending tx region : samePending tx (FetchBlockRegion tx region).1.
Proof. unfold FetchBlockRegion. repeat case_match; by split. Qed.

Lemma readFetchList_pending regions fl : forall tx br,
  samePending tx (readFetchList tx regions fl br).1.
Proof.
  induction fl as [|fd fl IH]; intros tx br; simpl; [by split|].
  destruct (regions !! replyIndex fd) as [region|]; [|by split].
  destruct (readBlockRegion _ _ _ _); [|by split|by split].
  eapply samePending_trans; [|apply IH]. by split.
Qed.

Lemma FetchBlockRegions_pending tx regions :
  samePending tx (FetchBlockRegions tx regions).1.
Proof.
  unfold FetchBlockRegions. destruct (checkClosed tx); [by split|].
  destruct (resolveRegions _ _ _ _ _) as [[br fl]| |]; [|by split|by split].
  apply readFetchList_pending.
Qed.

Lemma StoreBlock_pending tx block : samePending tx (StoreBlock tx block).1.
Proof. unfold StoreBlock. repeat case_match; by split. Qed.

Lemma pruneFilesLoop_pending n : forall tx i last dels total target maxSize,
  samePending tx (pruneFilesLoop n tx i last dels total target maxSize).1.1.
Proof.
  induction n as [|n IH]; intros tx i last dels total target maxSize; simpl;
    [by split|].
  destruct (i <? last); [|by split].
  destruct (_ <=? target); [by split|].
  eapply samePending_trans; [|apply IH]. by split.
Qed.

Lemma pruneIndex_disjoint entries : forall tx dels acc,
  pendingDisjoint tx -> pendingDisjoint (pruneIndex tx entries dels acc).1.
Proof.
  induction entries as [|[k v] entries IH]; intros tx dels acc Hd; simpl; [done|].
  destruct (deserializeBlockLoc v) as [loc| |]; [|done|done].
  destruct (bool_decide (blockFileNum loc ∈ dels)); [|by apply IH].
  destruct (hashOfKey k); [|done].
  unfold cursorDelete. destruct (checkClosed tx); [done|].
  apply IH. by apply deleteKey_disjoint.
Qed.

Lemma PruneBlocks_disjoint tx targetSize :
  pendingDisjoint tx -> pendingDisjoint (PruneBlocks tx targetSize).1.
Proof.
  intros Hd. unfold PruneBlocks.
  destruct (checkClosed tx); [done|].
  destruct (negb (writable tx)); [done|].
  destruct (targetSize <? _); [done|].
  destruct (scanBlockFiles (store (db tx))) as [[[first last] lfs]| |]; [|done|done].
  destruct (bool_decide (first = last)); [done|].
  cbv zeta. destruct (_ <=? targetSize); [done|].
  match goal with
  | |- context [pruneFilesLoop ?n ?t ?i ?l ?d ?a ?b ?c] =>
      pose proof (pruneFilesLoop_pending n t i l d a b c) as Hloop;
      destruct (pruneFilesLoop n t i l d a b c) as [[tx1 dels] total]
  end.
  simpl in Hloop. apply pruneIndex_disjoint.
  eapply samePending_disjoint; [|exact Hd].
  destruct Hloop as [Hk Hr]. by split.
Qed.

Lemma deletePendingFiles_pending fileNums : forall tx,
  samePending tx (deletePendingFiles tx fileNums).1.
Proof.
  induction fileNums as [|f fileNums IH]; intros tx; simpl; [by split|].
  destruct (deleteFileFunc _ f); [by split|].
  eapply samePending_trans; [|apply IH]. by split.
Qed.

Lemma bucketPut_disjoint tx (b : bucket) key value :
  pendingDisjoint tx -> pendingDisjoint (bucketPut tx b key value).1.
Proof.
  intros Hd. unfold bucketPut. destruct (checkClosed tx); [done|].
  destruct (negb (writable tx)); [done|]. by apply putKey_disjoint.
Qed.

Lemma writePendingBlocks_disjoint rollback blocks : forall tx,
  (forall tx0, samePending tx0 (rollback tx0)) ->
  pendingDisjoint tx -> pendingDisjoint (writePendingBlocks tx rollback blocks).1.
Proof.
  induction blocks as [|blockData blocks IH]; intros tx Hrb Hd; simpl; [done|].
  destruct (writeBlock _ _ _ _) as [wc [location|err|msg]]; simpl.
  - match goal with
    | |- context [bucketPut ?t ?b ?k ?v] =>
        pose proof (bucketPut_disjoint t b k v) as Hput;
        destruct (bucketPut t b k v) as [tx1 [err|]]
    end; simpl in *.
    + eapply samePending_disjoint; [apply Hrb|]. by apply Hput.
    + apply IH; [done|]. by apply Hput.
  - eapply samePending_disjoint; [apply Hrb|]. done.
  - done.
Qed.

Lemma writePendingAndCommit_disjoint tx :
  pendingDisjoint tx -> pendingDisjoint (writePendingAndCommit tx).1.
Proof.
  intros Hd. unfold writePendingAndCommit.
  pose proof (deletePendingFiles_pending (pendingDelFileNums tx) tx) as Hdel.
  destruct (deletePendingFiles tx (pendingDelFileNums tx)) as [tx1 [err|]];
    simpl in Hdel.
  - by eapply samePending_disjoint.
  - assert (Hd1 : pendingDisjoint tx1) by by eapply samePending_disjoint.
    match goal with
    | |- context [writePendingBlocks ?t ?r ?b] =>
        pose proof (writePendingBlocks_disjoint r b t) as Hw;
        destruct (writePendingBlocks t r b) as [tx2 [[]|err|msg]]
    end; simpl in Hw.
    + assert (Hd2 : pendingDisjoint tx2) by (apply Hw; [by split|done]).
      match goal with
      | |- context [bucketPut ?t ?b ?k ?v] =>
          pose proof (bucketPut_disjoint t b k v Hd2) as Hput;
          destruct (bucketPut t b k v) as [tx3 [err|]]
      end; simpl in *.
      * done.
      * unfold commitTx. destruct (backendFlush _ _ _); done.
    + apply Hw; [by split|done].
    + apply Hw; [by split|done].
Qed.

Lemma close_disjoint tx : pendingDisjoint (close tx).
Proof.
  destruct (close_released tx) as (_ & _ & _ & _ & Hk & Hr & _).
  by apply empty_disjoint.
Qed.

Lemma perform_disjoint tx c : pendingDisjoint tx -> pendingDisjoint (perform tx c).
Proof.
  intros Hd. destruct c; simpl.
  - by apply putKey_disjoint.
  - by apply deleteKey_disjoint.
  - unfold HasBlock. by destruct (checkClosed tx).
  - unfold HasBlocks. by destruct (checkClosed tx).
  - eapply samePending_disjoint; [apply StoreBlock_pending|done].
  - eapply samePending_disjoint; [apply FetchBlock_pending|done].
  - eapply samePending_disjoint; [apply FetchBlocks_pending|done].
  - eapply samePending_disjoint; [apply FetchBlockRegion_pending|done].
  - eapply samePending_disjoint; [apply FetchBlockRegions_pending|done].
  - by apply PruneBlocks_disjoint.
  - unfold BeenPruned. by repeat case_match.
  - unfold Commit. destruct (managed tx); [apply close_disjoint|].
    destruct (checkClosed tx); [done|].
    destruct (if negb (writable tx) then _ else _) as [tx1 r]. apply close_disjoint.
  - unfold Rollback. destruct (managed tx); [apply close_disjoint|].
    destruct (checkClosed tx); [done|]. apply close_disjoint.
Qed.

Lemma performAll_disjoint calls : forall tx,
  pendingDisjoint tx -> pendingDisjoint (performAll tx calls).
Proof.
  unfold performAll.
  induction calls as [|c calls IH]; intros tx Hd; simpl; [done|].
  apply IH. by apply perform_disjoint.
Qed.

(** C7. [putKey] takes the key out of [pendingRemove] before it puts it
    into [pendingKeys]; [deleteKey] takes it out of [pendingKeys] before it
    puts it into [pendingRemove]; every call keeps the two sets disjoint,
    and so no run of calls from the empty pending sets ever brings a key
    into both. *)
Theorem pending_sets_disjoint :
  (forall tx k v,
      pendingRemove (putKey tx k v) !! k = None
      /\ pendingKeys (putKey tx k v) !! k = Some v)
  /\ (forall tx k (n : bool),
      pendingKeys (deleteKey tx k n) !! k = None
      /\ is_Some (pendingRemove (deleteKey tx k n) !! k))
  /\ (forall tx c, pendingDisjoint tx -> pendingDisjoint (perform tx c))
  /\ (forall tx calls,
      pendingKeys tx = ∅ -> pendingRemove tx = ∅ ->
      pendingDisjoint (performAll tx calls)).
Proof.
  split; [|split; [|split]].
  - intros tx k v. rewrite putKey_pendingRemove, putKey_pendingKeys.
    by rewrite lookup_delete_eq, lookup_insert_eq.
  - intros tx k n. rewrite deleteKey_pendingRemove, deleteKey_pendingKeys.
    rewrite lookup_delete_eq, lookup_insert_eq. eauto.
  - intros tx c. apply perform_disjoint.
  - intros tx calls Hk Hr. apply performAll_disjoint. by apply empty_disjoint.
Qed.

End pending_invariant.

(** ** Instances of the theorems *)

Lemma put_delete_overlay_witness :
  (fetchKey (deleteKey (putKey exTx (idxKey exHashA) [x01]) (idxKey exHashA) true)
     (idxKey exHashA) = None
   /\ hasKey (deleteKey (putKey exTx (idxKey exHashA) [x01]) (idxKey exHashA) true)
        (idxKey exHashA) = false)
  /\ fetchKey (putKey (deleteKey exTx (idxKey exHashA) true) (idxKey exHashA) [x01])
       (idxKey exHashA) = Some [x01].
Proof. exact (put_delete_overlay exTx (idxKey exHashA) [x01] true eq_refl). Defined.

Lemma pending_sets_disjoint_witness :
  pendingDisjoint
    (performAll exTx
       [CallPutKey [x01] [x02]; CallDeleteKey [x01] true; CallPutKey [x03] [];
        CallStoreBlock exBlockB; CallPutKey [x01] [x04]; CallDeleteKey [x03] false;
        CallPruneBlocks 512; CallCommit]).
Proof.
  exact (proj2 (proj2 (proj2 pending_sets_disjoint)) exTx _ eq_refl eq_refl).
Defined.

Lemma StoreBlock_outcomes_witness :
  (exists str,
      StoreBlock exTx exBlockBad
      = (exTx, Err (makeDbErr database.ErrDriverSpecific str
                      (Some (GoError "serialize failed")))))
  /\ exists tx',
      StoreBlock exTx exBlockB = (tx', Ok tt)
      /\ pendingBlockData tx'
         = [{| hash := exHashB; bytes := replicate 100 x42; height := 7 |}]
      /\ pendingIndex tx' exHashB = Some 0%nat
      /\ db tx' = exDB.
Proof.
  split.
  - apply (proj1 (proj2 (proj2 (proj2 (StoreBlock_outcomes exTx exBlockBad)))));
      reflexivity.
  - assert (Hno : hasBlock exTx (btcutil.Hash exBlockB) = false) by reflexivity.
    destruct (proj2 (proj2 (proj2 (proj2 (StoreBlock_outcomes exTx exBlockB))))
                eq_refl eq_refl Hno (replicate 100 x42) eq_refl)
      as (tx' & Hs & Hd & Hi & _ & Hdb & _).
    exists tx'. repeat split; assumption.
Defined.

Lemma StoreBlock_error_no_effect_witness :
  (StoreBlock exTx exBlockBad).1 = exTx.
Proof.
  eapply (StoreBlock_error_no_effect exTx exBlockBad). reflexivity.
Defined.

Lemma managed_commit_rollback_panic_witness :
  (Commit (set_managed true exTx)).2 = Panic "managed transaction commit not allowed"
  /\ (Rollback (set_managed true exTx)).2 = Panic "managed transaction rollback not allowed"
  /\ closed (Commit (set_managed true exTx)).1 = true.
Proof.
  destruct (managed_commit_rollback_panic (set_managed true exTx) eq_refl)
    as (Hc & Hr & Hcl & _).
  rewrite Hc, Hr. split; [reflexivity|]. split; [reflexivity|]. exact Hcl.
Defined.

Lemma closed_tx_calls_fail_witness :
  FetchBlock (close exTx) exHashA
  = (close exTx, Err (makeDbErr database.ErrTxClosed errTxClosedStr None))
  /\ Commit (close exTx)
     = (close exTx, Err (makeDbErr database.ErrTxClosed errTxClosedStr None)).
Proof.
  pose proof (closed_tx_calls_fail (close exTx) eq_refl) as Hall.
  cbv zeta in Hall.
  destruct Hall as (_ & _ & _ & Hf & _ & _ & _ & _ & Hcr & _).
  split; [exact (Hf exHashA) | exact (proj1 (Hcr eq_refl))].
Defined.

(** C5, as stated, fails on the code. On the closed transaction
    [close exTx], [BeenPruned] scans the block files and answers [true]
    with no error; on the closed and managed [set_managed true (close
    exTx)], [Commit] and [Rollback] panic.  None of the three fails with
    [TxClosed]. *)
Lemma closed_tx_calls_counterexample :
  closed (close exTx) = true
  /\ (BeenPruned (close exTx)).2 = Ok true
  /\ closed (set_managed true (close exTx)) = true
  /\ (Commit (set_managed true (close exTx))).2
     = Panic "managed transaction commit not allowed"
  /\ (Rollback (set_managed true (close exTx))).2
     = Panic "managed transaction rollback not allowed".
Proof. vm_compute. repeat split. Qed.

Lemma PruneBlocks_spec_witness :
  pendingDelFileNums (PruneBlocks exTxPrune 1024).1 = [0; 1; 2]
  /\ (PruneBlocks exTxPrune 1024).2
     = Ok [exHash x10; exHash x11; exHash x12; exHash x13]
  /\ hasKey (PruneBlocks exTxPrune 1024).1 (idxKey (exHash x13)) = false
  /\ hasKey (PruneBlocks exTxPrune 1024).1 (idxKey (exHash x15)) = true.
Proof.
  assert (Hrange : 0 <= 1024 < 2 ^ 64) by lia.
  assert (Hmax : 0 <= maxBlockFileSize (store (db exTxPrune)) < 2 ^ 32)
    by (vm_compute; split; [discriminate|reflexivity]).
  destruct (PruneBlocks_spec exTxPrune 1024 eq_refl eq_refl Hrange Hmax) as [_ Hprune].
  assert (Hge : maxBlockFileSize (store (db exTxPrune)) <= 1024)
    by (vm_compute; discriminate).
  destruct (Hprune Hge 0 4 512 eq_refl) as [_ Hfiles].
  destruct Hfiles as [_ Hover]; [lia | lia | lia |].
  destruct Hover as (n & Hn & Hend & Hmin & _ & Hdel & Hidx);
    [vm_compute; reflexivity|].
  assert (Hn3 : n = 3).
  { change (maxBlockFileSize (store (db exTxPrune))) with 512 in *.
    pose proof (Hmin 3). lia. }
  subst n.
  assert (Hok : Forall entryOk (cursorEntries exTxPrune blockIdxBucket)).
  { apply Forall_forall. intros e He.
    assert (Hb : forallb (fun e => bool_decide (length e.1 = HashSize)
                            && bool_decide (is_Some (entryFile e)))
                   (cursorEntries exTxPrune blockIdxBucket) = true)
      by (vm_compute; reflexivity).
    rewrite forallb_forall in Hb. apply list_elem_of_In in He.
    specialize (Hb e He). apply andb_true_iff in Hb as [H1 H2].
    split; [by apply bool_decide_eq_true in H1|by apply bool_decide_eq_true in H2]. }
  destruct (Hidx Hok) as (Hres & _ & _ & _ & Hhas).
  split; [exact Hdel|]. split; [rewrite Hres; vm_compute; reflexivity|].
  split; rewrite Hhas; vm_compute; reflexivity.
Defined.

(** C2, on the code. With one block pending, [writeBlock] and both [Put]s
    succeeding and [cache.commitTx] failing, [writePendingAndCommit]
    returns the error of [commitTx] having appended the block and never
    called [handleRollback]: the write cursor stays advanced past the
    position saved before the append.  The cache root is as before. *)
Lemma writePendingAndCommit_commitTx_failure :
  (writePendingAndCommit exTxFlushFails).2 = Err (GoError "flush failed")
  /\ trace (db (writePendingAndCommit exTxFlushFails).1)
     = [EvWriteBlock 7 (replicate 100 x42); EvCommitTx]
  /\ writeCursor (store (db exTxFlushFails)) = {| curFileNum := 5; curOffset := 100 |}
  /\ writeCursor (store (db (writePendingAndCommit exTxFlushFails).1))
     = {| curFileNum := 5; curOffset := 200 |}
  /\ cacheRoot (cache (db (writePendingAndCommit exTxFlushFails).1))
     = cacheRoot (cache (db exTxFlushFails)).
Proof. vm_compute. repeat split. Qed.

Lemma FetchBlockRegion_bounds_witness :
  FetchBlockRegion exTx exRegionS4
  = (exTx, Err (makeDbErr database.ErrBlockRegionInvalid errRegionStr None))
  /\ FetchBlockRegion exTx exRegionWrap
     = (exTx, Err (makeDbErr database.ErrBlockRegionInvalid errRegionStr None)).
Proof.
  assert (Hlen : forall r, database.Hash r = exHashA -> regionBlockLen exTx r = Some 100).
  { intros [h o l]. simpl. intros ->. vm_compute. reflexivity. }
  assert (Hstore : forall loc o l e,
             readBlockRegion (store (db exTx)) loc o l = Err e ->
             errorCode e <> Some database.ErrBlockRegionInvalid) by discriminate.
  split.
  - apply (FetchBlockRegion_bounds exTx exRegionS4 100 eq_refl (Hlen exRegionS4 eq_refl) Hstore).
    right. vm_compute. reflexivity.
  - apply (FetchBlockRegion_bounds exTx exRegionWrap 100 eq_refl (Hlen exRegionWrap eq_refl) Hstore).
    left. vm_compute. reflexivity.
Defined.

(** C3, as stated, fails on the code. The end offset of the region
    [(0xFFFFFFF0, 0x20)] wraps around, yet on a closed transaction
    [FetchBlockRegion] fails with [TxClosed], and on an open one that does
    not know the block with [BlockNotFound]: the transaction and the block
    are looked up before the bounds. *)
Lemma FetchBlockRegion_counterexample :
  wrap32 (database.Offset exRegionWrap + database.Len exRegionWrap)
  < database.Offset exRegionWrap
  /\ (FetchBlockRegion (close exTx) exRegionWrap).2
     = Err (makeDbErr database.ErrTxClosed errTxClosedStr None)
  /\ (FetchBlockRegion exTx exRegionUnknown).2
     = Err (makeDbErr database.ErrBlockNotFound "block %s does not exist" None).
Proof. vm_compute. repeat split. Qed.

Lemma FetchBlockRegions_order_witness :
  exists issued,
    trace (db (FetchBlockRegions exTxBulk exRegionsBulk).1)
    = readEvents exRegionsBulk issued
    /\ fetchSorted issued
    /\ NoDup (replyIndex <$> issued).
Proof.
  destruct (FetchBlockRegions_order exTxBulk exRegionsBulk eq_refl)
    as (issued & Htr & Hsorted & _ & Hnd & _).
  exists issued. split; [exact Htr|]. split; assumption.
Defined.

(** The reads go out in ascending (file, offset) order, the pending region
    is not read, and the results come back in the order of the request. *)
Example FetchBlockRegions_sorted_reads :
  trace (db (FetchBlockRegions exTxBulk exRegionsBulk).1)
  = [ EvReadBlockRegion {| blockFileNum := 0; fileOffset := 50; blockLen := 40 |} 4 8;
      EvReadBlockRegion {| blockFileNum := 1; fileOffset := 0; blockLen := 40 |} 2 8;
      EvReadBlockRegion {| blockFileNum := 2; fileOffset := 10; blockLen := 40 |} 0 8;
      EvReadBlockRegion {| blockFileNum := 2; fileOffset := 100; blockLen := 40 |} 0 8 ]
  /\ (FetchBlockRegions exTxBulk exRegionsBulk).2
     = Ok [ putUint32 2 ++ putUint32 100; putUint32 0 ++ putUint32 54;
            [x02; x03; x04]; putUint32 2 ++ putUint32 10; putUint32 1 ++ putUint32 2 ].
Proof. vm_compute. split; reflexivity. Qed.

(* ================================================================== *)
(** * Further properties *)

(** ** The overlay as a map *)

Section overlay_more.

Implicit Types (tx : transaction) (k v : list byte).

Lemma putKey_snapshot tx k v : snapshot (putKey tx k v) = snapshot tx.
Proof. reflexivity. Qed.

Lemma fetchKey_putKey tx k v k' :
  writable tx = true ->
  fetchKey (putKey tx k v) k' = (if decide (k' = k) then Some v else fetchKey tx k').
Proof.
  intros Hw. unfold fetchKey.
  rewrite putKey_writable, Hw, putKey_snapshot.
  unfold treap.Has, treap.Get. rewrite putKey_pendingRemove, putKey_pendingKeys.
  destruct (decide (k' = k)) as [->|Hne].
  - rewrite lookup_delete_eq, lookup_insert_eq.
    by rewrite bool_decide_eq_false_2 by (by intros [? ?]).
  - by rewrite lookup_delete_ne, lookup_insert_ne by done.
Qed.

Lemma hasKey_putKey tx k v k' :
  writable tx = true ->
  hasKey (putKey tx k v) k' = (if decide (k' = k) then true else hasKey tx k').
Proof.
  intros Hw. unfold hasKey.
  rewrite putKey_writable, Hw, putKey_snapshot.
  unfold treap.Has. rewrite putKey_pendingRemove, putKey_pendingKeys.
  destruct (decide (k' = k)) as [->|Hne].
  - rewrite lookup_delete_eq, lookup_insert_eq.
    rewrite bool_decide_eq_false_2 by (by intros [? ?]).
    by rewrite bool_decide_eq_true_2 by eauto.
  - by rewrite lookup_delete_ne, lookup_insert_ne by done.
Qed.

(** X1. On a writable transaction [putKey k v] is read back at once, also
    when [k] was scheduled for removal, and no other key is affected:
    [fetchKey] and [hasKey] answer [v] and true at [k] and what they
    answered before elsewhere. *)
Theorem putKey_overlay tx k v k' :
  writable tx = true ->
  fetchKey (putKey tx k v) k' = (if decide (k' = k) then Some v else fetchKey tx k')
  /\ hasKey (putKey tx k v) k' = (if decide (k' = k) then true else hasKey tx k').
Proof.
  intros Hw. split; [by apply fetchKey_putKey | by apply hasKey_putKey].
Qed.

(** X2. On a writable transaction [deleteKey k] hides [k], whether it was
    pending or committed, and no other key is affected, with or without
    the notification of the iterators. *)
Theorem deleteKey_overlay tx k (n : bool) k' :
  writable tx = true ->
  fetchKey (deleteKey tx k n) k' = (if decide (k' = k) then None else fetchKey tx k')
  /\ hasKey (deleteKey tx k n) k' = (if decide (k' = k) then false else hasKey tx k').
Proof.
  intros Hw. split; [by apply fetchKey_deleteKey | by apply hasKey_deleteKey].
Qed.

Lemma hasKey_is_Some tx k : hasKey tx k = true <-> is_Some (fetchKey tx k).
Proof.
  unfold hasKey, fetchKey, treap.Has, treap.Get, snapshotHas, snapshotGet.
  destruct (writable tx).
  - destruct (pendingRemove tx !! k) as [r|].
    + rewrite bool_decide_eq_true_2 by eauto. split; [done|]. by intros [? ?].
    + rewrite bool_decide_eq_false_2 by (by intros [? ?]).
      destruct (pendingKeys tx !! k) as [v|].
      * rewrite bool_decide_eq_true_2 by eauto. split; eauto.
      * rewrite bool_decide_eq_false_2 by (by intros [? ?]).
        destruct (snapshot tx); [apply bool_decide_eq_true|].
        split; [done|]. by intros [? ?].
  - destruct (snapshot tx); [apply bool_decide_eq_true|].
    split; [done|]. by intros [? ?].
Qed.

(** X3. [hasKey] and [fetchKey] agree on every transaction: a key exists
    exactly when its fetched value is not nil. *)
Theorem hasKey_fetchKey tx k : hasKey tx k = true <-> is_Some (fetchKey tx k).
Proof. apply hasKey_is_Some. Qed.

(** X4. A read-only transaction reads its snapshot only: whatever
    [putKey] and [deleteKey] stage on it, against the note that they must
    only be called on a writable transaction, [fetchKey] and [hasKey] do
    not see. *)
Theorem readonly_ignores_pending tx k v (n : bool) k' :
  writable tx = false ->
  (fetchKey (putKey tx k v) k' = fetchKey tx k'
   /\ hasKey (putKey tx k v) k' = hasKey tx k')
  /\ (fetchKey (deleteKey tx k n) k' = fetchKey tx k'
      /\ hasKey (deleteKey tx k n) k' = hasKey tx k').
Proof.
  intros Hw. unfold fetchKey, hasKey.
  rewrite putKey_writable, deleteKey_writable, Hw, putKey_snapshot.
  destruct n; done.
Qed.

(** X5. A mutation that notifies, [putKey] or [deleteKey] with the flag,
    marks every registered iterator for a re-seek and registers or drops
    none; [deleteKey] without the flag leaves the iterators as they are. *)
Theorem mutations_notify tx k v :
  (length (activeIters (putKey tx k v)) = length (activeIters tx)
   /\ Forall (fun it => treap.reseek it = true) (activeIters (putKey tx k v)))
  /\ (length (activeIters (deleteKey tx k true)) = length (activeIters tx)
      /\ Forall (fun it => treap.reseek it = true) (activeIters (deleteKey tx k true)))
  /\ activeIters (deleteKey tx k false) = activeIters tx.
Proof.
  assert (Hall : forall l : list treap.Iterator,
             Forall (fun it => treap.reseek it = true) (treap.ForceReseek <$> l)).
  { intros l. apply Forall_fmap, Forall_forall. done. }
  repeat split; simpl; try apply length_fmap; apply Hall.
Qed.

End overlay_more.

(** ** The registry of active iterators *)

Section active_iters_props.

Context {A : Type} `{EqDecision A}.

Implicit Types (l : list A) (iter : A).

Lemma removeActiveIterLoop_done iter n l i :
  (length l <= i)%nat -> removeActiveIterLoop n l iter i = l.
Proof.
  intros Hi. destruct n; [done|]. simpl.
  by rewrite (proj2 (lookup_ge_None l i)) by lia.
Qed.

(** With enough of its bound the loop keeps what it has passed and is
    [removeSkipping] on the rest. *)
Lemma removeActiveIterLoop_spec iter n : forall pre rest,
  (length rest <= n)%nat ->
  removeActiveIterLoop n (pre ++ rest) iter (length pre) = pre ++ removeSkipping iter rest.
Proof.
  induction n as [|n IH]; intros pre rest Hn.
  - destruct rest; [done|simpl in Hn; lia].
  - destruct rest as [|x rest].
    + apply removeActiveIterLoop_done. rewrite length_app. simpl. lia.
    + simpl. rewrite lookup_app_r by lia.
      replace (length pre - length pre)%nat with 0%nat by lia. simpl.
      simpl in Hn.
      destruct (decide (x = iter)) as [->|Hne].
      * replace (delete (length pre) (pre ++ iter :: rest)) with (pre ++ rest).
        2:{ rewrite delete_take_drop, take_app_length.
            rewrite (cons_middle iter pre rest), app_assoc.
            replace (S (length pre)) with (length (pre ++ [iter]))
              by (rewrite length_app; simpl; lia).
            by rewrite drop_app_length. }
        destruct rest as [|y rest].
        -- rewrite app_nil_r. apply removeActiveIterLoop_done. lia.
        -- rewrite (cons_middle y pre rest), app_assoc.
           replace (S (length pre)) with (length (pre ++ [y]))
             by (rewrite length_app; simpl; lia).
           simpl in Hn. rewrite IH by lia. by rewrite <- app_assoc.
      * rewrite (cons_middle x pre rest), app_assoc.
        replace (S (length pre)) with (length (pre ++ [x]))
          by (rewrite length_app; simpl; lia).
        rewrite IH by lia. by rewrite <- app_assoc.
Qed.

Lemma removeActiveIter_skipping l iter :
  removeActiveIter l iter = removeSkipping iter l.
Proof.
  unfold removeActiveIter. by rewrite (removeActiveIterLoop_spec iter _ [] l).
Qed.

Lemma removeSkipping_absent iter : forall l,
  iter ∉ l -> removeSkipping iter l = l.
Proof.
  induction l as [|x l IH]; [done|]. intros Hnot. simpl.
  apply not_elem_of_cons in Hnot as [Hne Hnot].
  rewrite decide_False by done. by rewrite IH.
Qed.

Lemma removeSkipping_app iter pre l :
  iter ∉ pre -> removeSkipping iter (pre ++ l) = pre ++ removeSkipping iter l.
Proof.
  induction pre as [|x pre IH]; [done|]. intros Hnot. simpl.
  apply not_elem_of_cons in Hnot as [Hne Hnot].
  rewrite decide_False by done. by rewrite IH.
Qed.

(** X6. [removeActiveIter] never drops, adds or reorders another
    iterator: the iterators other than the one removed are, in order,
    those registered before; and the result is no longer than the
    slice. *)
Theorem removeActiveIter_others l iter :
  filter (fun x => x <> iter) (removeActiveIter l iter) = filter (fun x => x <> iter) l
  /\ removeActiveIter l iter `sublist_of` l.
Proof.
  rewrite removeActiveIter_skipping.
  assert (Hstrong : forall n l, (length l <= n)%nat ->
    filter (fun x => x <> iter) (removeSkipping iter l) = filter (fun x => x <> iter) l
    /\ removeSkipping iter l `sublist_of` l).
  { clear l. induction n as [|n IH]; intros l Hn.
    - destruct l; [done|simpl in Hn; lia].
    - destruct l as [|x l]; [done|]. simpl in Hn. simpl.
      destruct (decide (x = iter)) as [->|Hne].
      + rewrite filter_cons_False by (intros Hc; by apply Hc).
        destruct l as [|y l]; [split; [done|apply sublist_nil_l]|].
        simpl in Hn. destruct (IH l ltac:(lia)) as [Hf Hs].
        split.
        * destruct (decide (y = iter)) as [->|Hy].
          -- rewrite !filter_cons_False by (intros Hc; by apply Hc). done.
          -- rewrite !filter_cons_True by done. by rewrite Hf.
        * apply sublist_cons, sublist_skip. done.
      + destruct (IH l ltac:(lia)) as [Hf Hs]. split.
        * rewrite !filter_cons_True by done. by rewrite Hf.
        * by apply sublist_skip. }
  apply (Hstrong (length l)). lia.
Qed.

(** X7. An iterator that is registered once is removed: the rest of the
    slice is kept as it is, and the iterator is no longer in it. *)
Theorem removeActiveIter_once pre post iter :
  iter ∉ pre -> iter ∉ post ->
  removeActiveIter (pre ++ iter :: post) iter = pre ++ post
  /\ iter ∉ removeActiveIter (pre ++ iter :: post) iter.
Proof.
  intros Hpre Hpost. rewrite removeActiveIter_skipping, removeSkipping_app by done.
  assert (Hr : removeSkipping iter (iter :: post) = post).
  { simpl. rewrite decide_True by done. destruct post as [|y post]; [done|].
    apply not_elem_of_cons in Hpost as [Hne Hpost].
    f_equal. by apply removeSkipping_absent. }
  rewrite Hr. split; [done|]. rewrite elem_of_app. tauto.
Qed.

(** X8. An iterator that is absent leaves the slice as it is; and of two
    adjacent registrations of the same iterator only the first is
    removed, since the loop steps over the element that the cut moved
    into the place it has just examined. *)
Theorem removeActiveIter_adjacent pre post iter :
  iter ∉ pre ->
  removeActiveIter pre iter = pre
  /\ removeActiveIter (pre ++ iter :: iter :: post) iter
     = pre ++ iter :: removeActiveIter post iter.
Proof.
  intros Hpre. rewrite !removeActiveIter_skipping, removeSkipping_app by done.
  split; [by apply removeSkipping_absent|].
  simpl. by rewrite decide_True by done.
Qed.

End active_iters_props.
(** ** The sorter of the bulk fetch list *)

Section sorter.

Implicit Types (s : list bulkFetchData) (a b c : bulkFetchData).

Lemma lessData_lexLt a b : lessData a b = true <-> lexLt a b.
Proof.
  unfold lessData, lexLt.
  destruct (Z.ltb_spec (blockFileNum (location a)) (blockFileNum (location b)));
    [intuition lia|].
  destruct (Z.ltb_spec (blockFileNum (location b)) (blockFileNum (location a)));
    [split; [done|lia]|].
  rewrite Z.ltb_lt. lia.
Qed.

Lemma lessData_false a b : lessData a b = false <-> ~ lexLt a b.
Proof. rewrite <- lessData_lexLt. by destruct (lessData a b). Qed.

(** X9. [Less] panics exactly when an index is out of range, and in
    range it is the strict order by file number, then by offset in the
    file: irreflexive, asymmetric and transitive, and so is its
    complement, which is what [sort.Sort] needs of it. *)
Theorem Less_strict_weak_order s i j k :
  (Less s i j = None <-> (length s <= i \/ length s <= j)%nat)
  /\ (Less s i j = Some true <->
      exists a b, s !! i = Some a /\ s !! j = Some b /\ lexLt a b)
  /\ Less s i i <> Some true
  /\ (Less s i j = Some true -> Less s j i = Some false)
  /\ (Less s i j = Some true -> Less s j k = Some true -> Less s i k = Some true)
  /\ (Less s i j = Some false -> Less s j k = Some false -> Less s i k = Some false).
Proof.
  unfold Less.
  destruct (s !! i) as [a|] eqn:Hi; destruct (s !! j) as [b|] eqn:Hj;
    try apply lookup_lt_Some in Hi as Hi'; try apply lookup_lt_Some in Hj as Hj';
    try apply lookup_ge_None in Hi as Hi'; try apply lookup_ge_None in Hj as Hj'.
  - split; [split; [done|lia]|].
    split.
    { split.
      - intros [= Hl]. apply lessData_lexLt in Hl. eauto.
      - intros (a' & b' & [= <-] & [= <-] & Hl). f_equal. by apply lessData_lexLt. }
    split.
    { intros [= Hl]. apply lessData_lexLt in Hl. unfold lexLt in Hl. lia. }
    split.
    { intros [= Hl]. f_equal. apply lessData_lexLt in Hl. apply lessData_false.
      unfold lexLt in *. lia. }
    destruct (s !! k) as [c|]; [|split; intros _ [=]].
    split.
    + intros [= H1] [= H2]. f_equal. apply lessData_lexLt in H1, H2.
      apply lessData_lexLt. unfold lexLt in *. lia.
    + intros [= H1] [= H2]. f_equal. apply lessData_false in H1, H2.
      apply lessData_false. unfold lexLt in *. lia.
  - split; [split; [lia|done]|].
    split; [split; [done|by intros (? & ? & _ & [=] & _)]|].
    split; [|split; [done|split; done]].
    intros [= Hl]. apply lessData_lexLt in Hl. unfold lexLt in Hl. lia.
  - split; [split; [lia|done]|].
    split; [split; [done|by intros (? & ? & [=] & _)]|].
    repeat split; done.
  - split; [split; [lia|done]|].
    split; [split; [done|by intros (? & ? & [=] & _)]|].
    repeat split; done.
Qed.

Lemma insert_Permutation_cons {B} (l : list B) i x y :
  l !! i = Some x -> <[i := y]> l ≡ₚ y :: delete i l.
Proof.
  intros Hi. pose proof (lookup_lt_Some _ _ _ Hi) as Hlt.
  rewrite insert_take_drop by done. rewrite delete_take_drop.
  by rewrite Permutation_middle.
Qed.

(** X10. [Swap] of two indices in range exchanges the two items and
    nothing else: every other position keeps its item, the slice keeps
    its length and its items, and swapping again restores it; an index
    out of range panics. *)
Theorem Swap_exchanges s i j :
  (i < length s)%nat -> (j < length s)%nat ->
  exists s', Swap s i j = Some s'
    /\ Len s' = Len s
    /\ s' !! i = s !! j /\ s' !! j = s !! i
    /\ (forall k, k <> i -> k <> j -> s' !! k = s !! k)
    /\ s' ≡ₚ s
    /\ Swap s' i j = Some s.
Proof.
  intros Hi Hj. unfold Swap, Len.
  destruct (lookup_lt_is_Some_2 s i Hi) as [a Ha].
  destruct (lookup_lt_is_Some_2 s j Hj) as [b Hb].
  rewrite Ha, Hb. eexists. split; [done|].
  assert (Hlen : length (<[j:=a]> (<[i:=b]> s)) = length s)
    by by rewrite !length_insert.
  assert (Hli : <[j:=a]> (<[i:=b]> s) !! i = Some b).
  { destruct (decide (i = j)) as [->|Hne].
    - rewrite list_lookup_insert_eq by (by rewrite length_insert). congruence.
    - rewrite list_lookup_insert_ne by done.
      by rewrite list_lookup_insert_eq by done. }
  assert (Hlj : <[j:=a]> (<[i:=b]> s) !! j = Some a).
  { by rewrite list_lookup_insert_eq by (by rewrite length_insert). }
  split; [done|]. split; [done|]. split; [done|].
  split.
  { intros k Hki Hkj. by rewrite !list_lookup_insert_ne by done. }
  split.
  - destruct (decide (i = j)) as [->|Hne].
    + assert (a = b) as -> by congruence.
      rewrite list_insert_insert_eq. by rewrite list_insert_id.
    + assert (Htj : <[i:=b]> s !! j = Some b)
        by by rewrite list_lookup_insert_ne by done.
      etrans; [exact (insert_Permutation_cons _ _ b a Htj)|].
      etrans; [|symmetry; exact (delete_Permutation s i a Ha)].
      apply Permutation_skip.
      apply (Permutation_cons_inv (a := b)).
      etrans; [symmetry; exact (delete_Permutation _ j b Htj)|].
      exact (insert_Permutation_cons s i a b Ha).
  - rewrite Hli, Hlj. f_equal.
    apply list_eq. intros k.
    destruct (decide (k = j)) as [->|Hkj].
    + rewrite list_lookup_insert_eq by (by rewrite !length_insert). done.
    + rewrite list_lookup_insert_ne by done.
      destruct (decide (k = i)) as [->|Hki].
      * rewrite list_lookup_insert_eq by (by rewrite !length_insert). done.
      * by rewrite !list_lookup_insert_ne by done.
Qed.

End sorter.

(** ** Bucket identifiers *)

Section bucket_ids_props.

Context `{Externals}.

Implicit Types (tx : transaction) (key : list byte).

Lemma byteOfZ_value z : Z.of_N (Byte.to_N (byteOfZ z)) = z `mod` 256.
Proof.
  unfold byteOfZ.
  pose proof (Z.mod_pos_bound z 256 ltac:(lia)) as Hb.
  destruct (Byte.of_N (Z.to_N (z `mod` 256))) as [b|] eqn:Hof.
  - simpl. apply Byte.to_of_N in Hof. rewrite Hof. lia.
  - apply Byte.of_N_None_iff in Hof. lia.
Qed.

(** The four bytes written for a number read back as the number, cut to
    32 bits. *)
Lemma bigEndian_roundtrip v :
  bigEndianUint32 (bigEndianPutUint32 v) = Some (wrap32 v).
Proof.
  unfold bigEndianUint32, bigEndianPutUint32, wrap32. f_equal.
  rewrite !byteOfZ_value.
  change (2 ^ 8) with 256. change (2 ^ 16) with 65536.
  change (2 ^ 24) with 16777216. change (2 ^ 32) with 4294967296.
  Z.div_mod_to_equations. lia.
Qed.

Lemma bigEndianUint32_None b : bigEndianUint32 b = None <-> (length b < 4)%nat.
Proof.
  destruct b as [|b0 [|b1 [|b2 [|b3 b]]]]; simpl; split; (done || lia).
Qed.

Lemma bigEndianUint32_range b n : bigEndianUint32 b = Some n -> 0 <= n < 2 ^ 32.
Proof.
  destruct b as [|b0 [|b1 [|b2 [|b3 b]]]]; simpl; try done.
  intros [= <-].
  pose proof (Byte.to_N_bounded b0). pose proof (Byte.to_N_bounded b1).
  pose proof (Byte.to_N_bounded b2). pose proof (Byte.to_N_bounded b3).
  change (2 ^ 8) with 256. change (2 ^ 16) with 65536.
  change (2 ^ 24) with 16777216. change (2 ^ 32) with 4294967296. lia.
Qed.

Lemma nextBucketID_step key tx n :
  writable tx = true ->
  bigEndianUint32 (curBucketID key tx) = Some n ->
  let id := bigEndianPutUint32 (wrap32 (n + 1)) in
  nextBucketID key tx = (putKey tx key id, Ok id)
  /\ writable (putKey tx key id) = true
  /\ curBucketID key (putKey tx key id) = id.
Proof.
  intros Hw Hn id. unfold nextBucketID.
  replace (match fetchKey tx key with Some b => b | None => blockIdxBucketID end)
    with (curBucketID key tx) by (unfold curBucketID; by destruct (fetchKey tx key)).
  rewrite Hn. split; [done|]. split; [by rewrite putKey_writable|].
  unfold curBucketID.
  by rewrite (fetchKey_putKey tx key id key Hw), decide_True by done.
Qed.

(** X11. On a writable transaction whose counter has at least the four
    bytes a bucket id takes, [nextBucketID] answers the four bytes of the
    counter plus one, modulo 2^32, and stores them as the new counter,
    where the next call finds them; no other key is touched.  A counter
    of fewer than four bytes panics, and nothing is stored. *)
Theorem nextBucketID_increments key tx :
  writable tx = true ->
  ((length (curBucketID key tx) < 4)%nat ->
   nextBucketID key tx = (tx, Panic "index out of range"))
  /\ ((4 <= length (curBucketID key tx))%nat ->
      exists n tx' id,
        bigEndianUint32 (curBucketID key tx) = Some n
        /\ nextBucketID key tx = (tx', Ok id)
        /\ length id = 4%nat
        /\ bigEndianUint32 id = Some (wrap32 (n + 1))
        /\ curBucketID key tx' = id
        /\ (forall k, k <> key -> fetchKey tx' k = fetchKey tx k)).
Proof.
  intros Hw. split.
  - intros Hlen. apply bigEndianUint32_None in Hlen. unfold nextBucketID.
    replace (match fetchKey tx key with Some b => b | None => blockIdxBucketID end)
      with (curBucketID key tx) by (unfold curBucketID; by destruct (fetchKey tx key)).
    by rewrite Hlen.
  - intros Hlen.
    destruct (bigEndianUint32 (curBucketID key tx)) as [n|] eqn:Hn.
    2:{ apply bigEndianUint32_None in Hn. lia. }
    destruct (nextBucketID_step key tx n Hw Hn) as (Hnext & _ & Hcur).
    exists n, (putKey tx key (bigEndianPutUint32 (wrap32 (n + 1)))),
      (bigEndianPutUint32 (wrap32 (n + 1))).
    split; [done|]. split; [exact Hnext|]. split; [done|].
    split.
    { rewrite bigEndian_roundtrip. f_equal. unfold wrap32. by rewrite Z.mod_mod. }
    split; [exact Hcur|].
    intros k Hk. by rewrite (fetchKey_putKey tx key _ k Hw), decide_False by done.
Qed.

Lemma nextBucketIDs_spec key k : forall tx n,
  writable tx = true ->
  bigEndianUint32 (curBucketID key tx) = Some n ->
  exists tx',
    nextBucketIDs key k tx
    = (tx', Ok ((fun i => bigEndianPutUint32 (wrap32 (n + i))) <$> seqZ 1 (Z.of_nat k)))
    /\ writable tx' = true.
Proof.
  induction k as [|k IH]; intros tx n Hw Hn.
  - exists tx. done.
  - destruct (nextBucketID_step key tx n Hw Hn) as (Hnext & Hw' & Hcur).
    assert (Hn' : bigEndianUint32
                    (curBucketID key (putKey tx key (bigEndianPutUint32 (wrap32 (n + 1)))))
                  = Some (wrap32 (n + 1))).
    { rewrite Hcur, bigEndian_roundtrip. f_equal. unfold wrap32. by rewrite Z.mod_mod. }
    destruct (IH _ _ Hw' Hn') as (tx' & Hids & Hwr).
    exists tx'. split; [|exact Hwr].
    cbn [nextBucketIDs]. rewrite Hnext, Hids.
    replace (Z.of_nat (S k)) with (Z.succ (Z.of_nat k)) by lia.
    rewrite (seqZ_cons 1 (Z.succ (Z.of_nat k))) by lia. rewrite fmap_cons.
    replace (Z.pred (Z.succ (Z.of_nat k))) with (Z.of_nat k) by lia.
    do 3 f_equal.
    change (Z.succ 1) with (1 + 1). rewrite <- (fmap_add_seqZ 1 1), <- list_fmap_compose.
    apply list_fmap_ext. intros _ i _. simpl. f_equal.
    unfold wrap32. rewrite Z.add_assoc, (Z.add_comm n 1), <- Z.add_assoc.
    rewrite (Z.add_comm 1), Zplus_mod_idemp_l. f_equal. lia.
Qed.

(** X12. Buckets created one after the other get consecutive ids: from a
    counter [n], [k] calls of [nextBucketID] on a writable transaction
    answer the four-byte forms of [n + 1], ..., [n + k] modulo 2^32, so up
    to 2^32 calls in a row answer ids that differ from one another. *)
Theorem nextBucketID_consecutive key (k : nat) tx n :
  writable tx = true ->
  bigEndianUint32 (curBucketID key tx) = Some n ->
  exists tx' ids,
    nextBucketIDs key k tx = (tx', Ok ids)
    /\ ids = (fun i => bigEndianPutUint32 (wrap32 (n + i))) <$> seqZ 1 (Z.of_nat k)
    /\ (Z.of_nat k <= 2 ^ 32 -> NoDup ids).
Proof.
  intros Hw Hn. destruct (nextBucketIDs_spec key k tx n Hw Hn) as (tx' & Hids & _).
  eexists tx', _. split; [exact Hids|]. split; [done|].
  intros Hk. apply NoDup_fmap_2_strong; [|apply NoDup_seqZ].
  intros i j Hi Hj Heq. apply elem_of_seqZ in Hi, Hj.
  apply (f_equal bigEndianUint32) in Heq. rewrite !bigEndian_roundtrip in Heq.
  injection Heq as Heq. unfold wrap32 in Heq. rewrite !Z.mod_mod in Heq by lia.
  revert Heq Hk. change (2 ^ 32) with 4294967296.
  intros Heq Hk. Z.div_mod_to_equations. lia.
Qed.

End bucket_ids_props.

(** ** Reads, and what only a commit does *)

Section reads.

Context `{Externals}.

Implicit Types (tx : transaction) (h : list byte).

Lemma withTrace_id tx : withTrace (trace (db tx)) tx = tx.
Proof. by destruct tx as [? ? ? [? ? ?] ? ? ? ? ? ? ? ? ?]. Qed.

Lemma onlyReads_refl tx : onlyReads tx tx.
Proof. exists []. by rewrite app_nil_r, withTrace_id. Qed.

Lemma onlyReads_emit tx e : isRead e = true -> onlyReads tx (emit e tx).
Proof. intros He. exists [e]. split; [done|]. by apply Forall_singleton. Qed.

Lemma onlyReads_trans tx1 tx2 tx3 :
  onlyReads tx1 tx2 -> onlyReads tx2 tx3 -> onlyReads tx1 tx3.
Proof.
  intros (evs1 & -> & H1) (evs2 & -> & H2). exists (evs1 ++ evs2).
  split; [|by apply Forall_app]. unfold withTrace. simpl. by rewrite app_assoc.
Qed.

Lemma FetchBlock_onlyReads tx h : onlyReads tx (FetchBlock tx h).1.
Proof.
  unfold FetchBlock. repeat case_match; simpl;
    (apply onlyReads_refl || by apply onlyReads_emit).
Qed.

(** What a fetch answers does not depend on the calls made before. *)
Lemma FetchBlock_withTrace tx t h : (FetchBlock (withTrace t tx) h).2 = (FetchBlock tx h).2.
Proof.
  unfold FetchBlock, fetchBlockRow, bucketGet, checkClosed, pendingIndex, fetchKey,
    snapshotGet. simpl. repeat case_match; simplify_eq; done.
Qed.

Lemma fetchBlocksLoop_onlyReads hashes : forall tx blocks,
  onlyReads tx (fetchBlocksLoop tx hashes blocks).1.
Proof.
  induction hashes as [|h hashes IH]; intros tx blocks; simpl; [apply onlyReads_refl|].
  pose proof (FetchBlock_onlyReads tx h) as Hf.
  destruct (FetchBlock tx h) as [tx1 [b|e|m]]; [|done|done].
  eapply onlyReads_trans; [exact Hf|apply IH].
Qed.

Lemma FetchBlockRegion_onlyReads tx region : onlyReads tx (FetchBlockRegion tx region).1.
Proof.
  unfold FetchBlockRegion. repeat case_match; simpl;
    (apply onlyReads_refl || by apply onlyReads_emit).
Qed.

Lemma readFetchList_onlyReads regions fl : forall tx br,
  onlyReads tx (readFetchList tx regions fl br).1.
Proof.
  induction fl as [|fd fl IH]; intros tx br; simpl; [apply onlyReads_refl|].
  destruct (regions !! replyIndex fd) as [region|]; [|apply onlyReads_refl].
  destruct (readBlockRegion _ _ _ _); simpl; try by apply onlyReads_emit.
  eapply onlyReads_trans; [|apply IH]. by apply onlyReads_emit.
Qed.

Lemma FetchBlockRegions_onlyReads tx regions :
  onlyReads tx (FetchBlockRegions tx regions).1.
Proof.
  unfold FetchBlockRegions. destruct (checkClosed tx); [apply onlyReads_refl|].
  cbv zeta. destruct (resolveRegions _ _ _ _ _) as [[br fl]| |];
    try apply onlyReads_refl.
  apply readFetchList_onlyReads.
Qed.

(** X13. The fetches only read: [HasBlock], [HasBlocks], [FetchBlock],
    [FetchBlocks], [FetchBlockRegion], [FetchBlockRegions], the two header
    fetches and [BeenPruned] leave the transaction as it was, whatever
    they answer, and the only calls they make are reads of the block
    files. *)
Theorem fetches_only_read tx h hashes region regions :
  (HasBlock tx h).1 = tx
  /\ (HasBlocks tx hashes).1 = tx
  /\ (BeenPruned tx).1 = tx
  /\ onlyReads tx (FetchBlock tx h).1
  /\ onlyReads tx (FetchBlocks tx hashes).1
  /\ onlyReads tx (FetchBlockRegion tx region).1
  /\ onlyReads tx (FetchBlockRegions tx regions).1
  /\ onlyReads tx (FetchBlockHeader tx h).1
  /\ onlyReads tx (FetchBlockHeaders tx hashes).1.
Proof.
  split; [unfold HasBlock; by destruct (checkClosed tx)|].
  split; [unfold HasBlocks; by destruct (checkClosed tx)|].
  split; [unfold BeenPruned; by repeat case_match|].
  split; [apply FetchBlock_onlyReads|].
  split.
  { unfold FetchBlocks. destruct (checkClosed tx); [apply onlyReads_refl|].
    apply fetchBlocksLoop_onlyReads. }
  split; [apply FetchBlockRegion_onlyReads|].
  split; [apply FetchBlockRegions_onlyReads|].
  split; [apply FetchBlockRegion_onlyReads|apply FetchBlockRegions_onlyReads].
Qed.

Lemma noWrites_refl tx : noWrites tx tx.
Proof. split; [done|]. split; [done|]. exists []. by rewrite app_nil_r. Qed.

Lemma noWrites_trans tx1 tx2 tx3 :
  noWrites tx1 tx2 -> noWrites tx2 tx3 -> noWrites tx1 tx3.
Proof.
  intros (Hs1 & Hc1 & evs1 & Ht1 & H1) (Hs2 & Hc2 & evs2 & Ht2 & H2).
  split; [congruence|]. split; [congruence|].
  exists (evs1 ++ evs2). split; [|by apply Forall_app].
  by rewrite Ht2, Ht1, app_assoc.
Qed.

Lemma noWrites_db tx tx' : db tx' = db tx -> noWrites tx tx'.
Proof.
  intros Hdb. unfold noWrites. rewrite Hdb. split; [done|]. split; [done|].
  exists []. by rewrite app_nil_r.
Qed.

Lemma onlyReads_noWrites tx tx' : onlyReads tx tx' -> noWrites tx tx'.
Proof.
  intros (evs & -> & Hev). split; [done|]. split; [done|]. exists evs.
  split; [done|]. eapply Forall_impl; [exact Hev|]. by intros [].
Qed.

Lemma close_trace tx :
  store (db (close tx)) = store (db tx)
  /\ cache (db (close tx)) = cache (db tx)
  /\ trace (db (close tx)) = trace (db tx) ++ closeEvents tx.
Proof.
  unfold close, closeMdbTxs, closeEvents.
  destruct tx as [? ? w [? ? ?] s ? ? ? ? ? ? ro rw]; simpl.
  destruct ro, rw, s, w; simpl; rewrite <- ?app_assoc; done.
Qed.

Lemma close_noWrites tx : noWrites tx (close tx).
Proof.
  destruct (close_trace tx) as (Hs & Hc & Ht).
  split; [done|]. split; [done|]. exists (closeEvents tx). split; [done|].
  unfold closeEvents. repeat apply Forall_app_2; repeat case_match;
    repeat constructor.
Qed.

Lemma sameBlocks_refl tx : sameBlocks tx tx.
Proof. by repeat split. Qed.

Lemma sameBlocks_trans tx1 tx2 tx3 :
  sameBlocks tx1 tx2 -> sameBlocks tx2 tx3 -> sameBlocks tx1 tx3.
Proof.
  intros (? & ? & ? & ? & ? & ? & ? & ? & ?) (? & ? & ? & ? & ? & ? & ? & ? & ?).
  repeat split; congruence.
Qed.

Lemma pruneFilesLoop_sameBlocks n : forall tx i last dels total target maxSize,
  sameBlocks tx (pruneFilesLoop n tx i last dels total target maxSize).1.1.
Proof.
  induction n as [|n IH]; intros tx i last dels total target maxSize; simpl;
    [apply sameBlocks_refl|].
  destruct (i <? last); [|apply sameBlocks_refl].
  destruct (_ <=? target); [by repeat split|].
  eapply sameBlocks_trans; [|apply IH]. by repeat split.
Qed.

Lemma pruneIndex_sameBlocks entries : forall tx dels acc,
  sameBlocks tx (pruneIndex tx entries dels acc).1.
Proof.
  induction entries as [|[k v] entries IH]; intros tx dels acc; simpl;
    [apply sameBlocks_refl|].
  destruct (deserializeBlockLoc v) as [loc| |]; try apply sameBlocks_refl.
  destruct (bool_decide (blockFileNum loc ∈ dels)); [|by apply IH].
  destruct (hashOfKey k); [|apply sameBlocks_refl].
  unfold cursorDelete. destruct (checkClosed tx); [apply sameBlocks_refl|].
  eapply sameBlocks_trans; [|apply IH]. by repeat split.
Qed.

Lemma PruneBlocks_sameBlocks tx targetSize :
  sameBlocks tx (PruneBlocks tx targetSize).1.
Proof.
  unfold PruneBlocks.
  destruct (checkClosed tx); [apply sameBlocks_refl|].
  destruct (negb (writable tx)); [apply sameBlocks_refl|].
  destruct (targetSize <? _); [apply sameBlocks_refl|].
  destruct (scanBlockFiles (store (db tx))) as [[[first last] lfs]| |];
    try apply sameBlocks_refl.
  destruct (bool_decide (first = last)); [apply sameBlocks_refl|].
  cbv zeta. destruct (_ <=? targetSize); [apply sameBlocks_refl|].
  match goal with
  | |- context [pruneFilesLoop ?n ?t ?i ?l ?d ?a ?b ?c] =>
      pose proof (pruneFilesLoop_sameBlocks n t i l d a b c) as Hloop;
      destruct (pruneFilesLoop n t i l d a b c) as [[tx1 dels] total]
  end.
  simpl in Hloop. eapply sameBlocks_trans; [exact Hloop|].
  eapply sameBlocks_trans; [|apply pruneIndex_sameBlocks]. by repeat split.
Qed.

Lemma StoreBlock_db tx block :
  db (StoreBlock tx block).1 = db tx /\ sameHandles tx (StoreBlock tx block).1.
Proof. unfold StoreBlock, sameHandles. by repeat case_match. Qed.

Lemma Rollback_cases tx : (Rollback tx).1 = tx \/ (Rollback tx).1 = close tx.
Proof. unfold Rollback. repeat case_match; simpl; eauto. Qed.

Lemma Commit_cases tx : (Commit tx).1 = tx \/ exists tx0, (Commit tx).1 = close tx0.
Proof.
  unfold Commit. destruct (managed tx); [right; by eexists|].
  destruct (checkClosed tx); [by left|].
  destruct (if negb (writable tx) then _ else _) as [tx1 r]. right. by eexists.
Qed.

(** What a call other than [Commit] leaves of the collaborators. *)
Lemma perform_noWrites tx c : c <> CallCommit -> noWrites tx (perform tx c).
Proof.
  intros Hc. destruct c; simpl; try done.
  - by apply noWrites_db.
  - apply noWrites_db. by destruct notifyIterators.
  - unfold HasBlock. destruct (checkClosed tx); apply noWrites_refl.
  - unfold HasBlocks. destruct (checkClosed tx); apply noWrites_refl.
  - apply noWrites_db, StoreBlock_db.
  - apply onlyReads_noWrites, FetchBlock_onlyReads.
  - apply onlyReads_noWrites. unfold FetchBlocks.
    destruct (checkClosed tx); [apply onlyReads_refl|apply fetchBlocksLoop_onlyReads].
  - apply onlyReads_noWrites, FetchBlockRegion_onlyReads.
  - apply onlyReads_noWrites, FetchBlockRegions_onlyReads.
  - apply noWrites_db. by destruct (PruneBlocks_sameBlocks tx targetSize) as (_ & _ & ? & _).
  - unfold BeenPruned. repeat case_match; apply noWrites_refl.
  - destruct (Rollback_cases tx) as [-> | ->]; [apply noWrites_refl|apply close_noWrites].
Qed.

(** X14. Nothing but [Commit] changes the block files or the cache:
    over any calls with no [Commit] among them, a [Rollback] included,
    the store and the cache stay as they were, and no file is deleted,
    no block written, nothing rolled back or committed. *)
Theorem only_commit_writes tx (calls : list call) :
  CallCommit ∉ calls -> noWrites tx (performAll tx calls).
Proof.
  unfold performAll. revert tx.
  induction calls as [|c calls IH]; intros tx Hnot; simpl; [apply noWrites_refl|].
  apply not_elem_of_cons in Hnot as [Hc Hnot].
  eapply noWrites_trans; [apply perform_noWrites; intros Heq; by apply Hc|by apply IH].
Qed.

End reads.

(** ** Pending blocks *)

Section pending_blocks.

Context `{Externals}.

Implicit Types (tx : transaction) (h : list byte).

Lemma pendingBlocksOk_fresh tx :
  pendingBlocks tx = None -> pendingBlockData tx = [] -> pendingBlocksOk tx.
Proof.
  intros Hb Hd. unfold pendingBlocksOk, pendingIndex. rewrite Hb, Hd.
  split; [done|]. by intros idx pb.
Qed.

Lemma pendingBlocksOk_same tx tx' :
  pendingBlocks tx' = pendingBlocks tx -> pendingBlockData tx' = pendingBlockData tx ->
  pendingBlocksOk tx -> pendingBlocksOk tx'.
Proof.
  intros Hb Hd. unfold pendingBlocksOk, pendingIndex. by rewrite Hb, Hd.
Qed.

Lemma pendingBlocksOk_onlyReads tx tx' :
  onlyReads tx tx' -> pendingBlocksOk tx -> pendingBlocksOk tx'.
Proof. intros (evs & -> & _). by apply pendingBlocksOk_same. Qed.

(** The transaction [StoreBlock] leaves behind when it succeeds. *)
Lemma StoreBlock_ok tx block blockBytes :
  closed tx = false -> writable tx = true ->
  hasBlock tx (btcutil.Hash block) = false ->
  btcutil.Bytes block = Ok blockBytes ->
  StoreBlock tx block
  = (set_pendingBlockData
       (pendingBlockData tx
        ++ [{| hash := btcutil.Hash block; bytes := blockBytes;
               height := btcutil.Height block |}])
       (set_pendingBlocks
          (Some (<[btcutil.Hash block := length (pendingBlockData tx)]>
                   (default ∅ (pendingBlocks tx)))) tx),
     Ok tt).
Proof.
  intros Hc Hw Hno Hb. unfold StoreBlock.
  rewrite (open_checkClosed _ Hc), Hw, Hno, Hb. simpl.
  destruct tx as [? ? ? ? ? pbs ? ? ? ? ? ? ?]. by destruct pbs.
Qed.

Lemma StoreBlock_pendingBlocksOk tx block :
  pendingBlocksOk tx -> pendingBlocksOk (StoreBlock tx block).1.
Proof.
  intros Hok.
  destruct (closed tx) eqn:Hc.
  { unfold StoreBlock. by rewrite (closed_checkClosed _ Hc). }
  destruct (writable tx) eqn:Hw.
  2:{ unfold StoreBlock. by rewrite (open_checkClosed _ Hc), Hw. }
  destruct (hasBlock tx (btcutil.Hash block)) eqn:Hhas.
  { unfold StoreBlock. by rewrite (open_checkClosed _ Hc), Hw, Hhas. }
  destruct (btcutil.Bytes block) as [blockBytes|e|m] eqn:Hb.
  2,3: unfold StoreBlock; by rewrite (open_checkClosed _ Hc), Hw, Hhas, Hb.
  rewrite (StoreBlock_ok _ _ _ Hc Hw Hhas Hb). simpl.
  assert (Hnone : pendingIndex tx (btcutil.Hash block) = None).
  { unfold hasBlock in Hhas. by destruct (pendingIndex tx (btcutil.Hash block)). }
  destruct Hok as [Hfwd Hbwd]. split.
  - intros h idx. unfold pendingIndex. simpl.
    destruct (decide (h = btcutil.Hash block)) as [->|Hne].
    + rewrite lookup_insert_eq. intros [= <-]. eexists.
      split; [by rewrite lookup_app_r, Nat.sub_diag by lia|done].
    + rewrite lookup_insert_ne by done. intros Hidx.
      destruct (Hfwd h idx) as (pb & Hpb & Hh).
      { unfold pendingIndex. by destruct (pendingBlocks tx). }
      exists pb. split; [|done]. by apply lookup_app_l_Some.
  - intros idx pb. unfold pendingIndex. simpl. intros Hpb.
    apply lookup_app_Some in Hpb as [Hpb|[Hlen Hpb]].
    + pose proof (Hbwd idx pb Hpb) as Hidx.
      assert (hash pb <> btcutil.Hash block) by (intros Heq; congruence).
      rewrite lookup_insert_ne by done.
      unfold pendingIndex in Hidx. by destruct (pendingBlocks tx).
    + destruct (idx - length (pendingBlockData tx))%nat as [|n] eqn:Hn; [|done].
      injection Hpb as <-. simpl. rewrite lookup_insert_eq. f_equal. lia.
Qed.

Lemma close_pendingBlocksOk tx : pendingBlocksOk (close tx).
Proof.
  destruct (close_released tx) as (_ & Hb & Hd & _). by apply pendingBlocksOk_fresh.
Qed.

Lemma perform_pendingBlocksOk tx c : pendingBlocksOk tx -> pendingBlocksOk (perform tx c).
Proof.
  intros Hok. destruct c; simpl.
  - done.
  - by destruct notifyIterators.
  - unfold HasBlock. by destruct (checkClosed tx).
  - unfold HasBlocks. by destruct (checkClosed tx).
  - by apply StoreBlock_pendingBlocksOk.
  - eapply pendingBlocksOk_onlyReads; [apply FetchBlock_onlyReads|done].
  - eapply pendingBlocksOk_onlyReads; [|done]. unfold FetchBlocks.
    destruct (checkClosed tx); [apply onlyReads_refl|apply fetchBlocksLoop_onlyReads].
  - eapply pendingBlocksOk_onlyReads; [apply FetchBlockRegion_onlyReads|done].
  - eapply pendingBlocksOk_onlyReads; [apply FetchBlockRegions_onlyReads|done].
  - destruct (PruneBlocks_sameBlocks tx targetSize) as (Hb & Hd & _).
    by apply (pendingBlocksOk_same tx).
  - unfold BeenPruned. by repeat case_match.
  - destruct (Commit_cases tx) as [-> | [tx0 ->]]; [done|apply close_pendingBlocksOk].
  - destruct (Rollback_cases tx) as [-> | ->]; [done|apply close_pendingBlocksOk].
Qed.

(** X15. The index of the pending blocks and their data stay in step over
    any calls: every hash in [pendingBlocks] is mapped to the place in
    [pendingBlockData] of a block with that hash, so that a fetch of a
    pending block never indexes out of range, and every pending block is
    found under its hash, so that no hash is pending twice. *)
Theorem pendingBlocks_indexed tx (calls : list call) :
  pendingBlocksOk tx ->
  pendingBlocksOk (performAll tx calls)
  /\ NoDup (hash <$> pendingBlockData (performAll tx calls))
  /\ (closed (performAll tx calls) = false ->
      forall h, is_Some (pendingIndex (performAll tx calls) h) ->
      exists pb,
        pb ∈ pendingBlockData (performAll tx calls) /\ hash pb = h
        /\ FetchBlock (performAll tx calls) h = (performAll tx calls, Ok (bytes pb))).
Proof.
  intros Hok.
  assert (Hall : pendingBlocksOk (performAll tx calls)).
  { unfold performAll. revert tx Hok.
    induction calls as [|c calls IH]; intros tx Hok; simpl; [done|].
    apply IH. by apply perform_pendingBlocksOk. }
  split; [exact Hall|]. destruct Hall as [Hfwd Hbwd]. split.
  - apply NoDup_alt. intros i j h Hi Hj.
    apply list_lookup_fmap_Some in Hi as (pbi & -> & Hi).
    apply list_lookup_fmap_Some in Hj as (pbj & Heq & Hj).
    apply Hbwd in Hi, Hj. rewrite Heq in Hi. congruence.
  - intros Hc h [idx Hidx]. destruct (Hfwd h idx Hidx) as (pb & Hpb & Hh).
    exists pb. split; [by eapply list_elem_of_lookup_2|]. split; [done|].
    unfold FetchBlock. by rewrite (open_checkClosed _ Hc), Hidx, Hpb.
Qed.

End pending_blocks.

(** ** Storing and fetching blocks *)

Section block_round_trip.

Context `{Externals}.

Implicit Types (tx : transaction) (h : list byte).

Lemma hasBlock_false tx h :
  hasBlock tx h = false ->
  pendingIndex tx h = None /\ bucketGet tx blockIdxBucket h = None.
Proof.
  unfold hasBlock, bucketGet. destruct (pendingIndex tx h); [done|]. intros Hk.
  split; [done|]. destruct (checkClosed tx); [done|]. simpl.
  destruct (fetchKey tx (bucketizedKey blockIdxBucketID h)) eqn:Hf; [|done].
  assert (Ht : hasKey tx (bucketizedKey blockIdxBucketID h) = true)
    by (apply hasKey_is_Some; eauto).
  congruence.
Qed.

(** X16. A block stored in an open writable transaction is there at
    once: [HasBlock] answers true, [FetchBlock] answers the bytes the
    block serialized to without a read of the block files, and storing
    it again fails with [BlockExists]; what [HasBlock] and [FetchBlock]
    answer for any other hash is not affected. *)
Theorem StoreBlock_then_fetch tx block blockBytes :
  closed tx = false -> writable tx = true ->
  hasBlock tx (btcutil.Hash block) = false ->
  btcutil.Bytes block = Ok blockBytes ->
  pendingBlocksOk tx ->
  exists tx',
    StoreBlock tx block = (tx', Ok tt)
    /\ HasBlock tx' (btcutil.Hash block) = (tx', Ok true)
    /\ FetchBlock tx' (btcutil.Hash block) = (tx', Ok blockBytes)
    /\ (exists str,
         StoreBlock tx' block = (tx', Err (makeDbErr database.ErrBlockExists str None)))
    /\ (forall h, h <> btcutil.Hash block ->
        hasBlock tx' h = hasBlock tx h
        /\ (FetchBlock tx' h).2 = (FetchBlock tx h).2).
Proof.
  intros Hc Hw Hno Hb [Hfwd _].
  rewrite (StoreBlock_ok _ _ _ Hc Hw Hno Hb).
  set (pb := {| hash := btcutil.Hash block; bytes := blockBytes;
                height := btcutil.Height block |}).
  set (tx' := set_pendingBlockData _ _).
  assert (Hidx : pendingIndex tx' (btcutil.Hash block) = Some (length (pendingBlockData tx))).
  { unfold pendingIndex. simpl. apply lookup_insert_eq. }
  assert (Hdata : pendingBlockData tx' !! length (pendingBlockData tx) = Some pb).
  { simpl. by rewrite lookup_app_r, Nat.sub_diag by lia. }
  assert (Hc' : checkClosed tx' = None) by (by apply open_checkClosed).
  assert (Hhas : hasBlock tx' (btcutil.Hash block) = true).
  { unfold hasBlock. by rewrite Hidx. }
  assert (Hother : forall h, h <> btcutil.Hash block -> pendingIndex tx' h = pendingIndex tx h).
  { intros h Hne. unfold pendingIndex. simpl. rewrite lookup_insert_ne by done.
    by destruct (pendingBlocks tx). }
  exists tx'. split; [done|].
  split; [unfold HasBlock; by rewrite Hc', Hhas|].
  split; [unfold FetchBlock; by rewrite Hc', Hidx, Hdata|].
  split.
  { eexists. unfold StoreBlock. rewrite Hc'.
    change (writable tx') with (writable tx). rewrite Hw. simpl. by rewrite Hhas. }
  intros h Hne. split.
  - unfold hasBlock. by rewrite (Hother h Hne).
  - unfold FetchBlock. rewrite Hc', (open_checkClosed _ Hc), (Hother h Hne).
    destruct (pendingIndex tx h) as [idx|] eqn:Hi.
    + destruct (Hfwd h idx Hi) as (pb' & Hpb' & _). rewrite Hpb'.
      change (pendingBlockData tx') with (pendingBlockData tx ++ [pb]).
      by rewrite (lookup_app_l_Some _ _ _ _ Hpb').
    + change (fetchBlockRow tx' h) with (fetchBlockRow tx h).
      by repeat case_match.
Qed.

(** X17. A hash that [hasBlock] does not know is answered with
    [BlockNotFound] by [FetchBlock], by [FetchBlockRegion] for any
    offset and length, out of range or not, and by [FetchBlockHeader];
    the block files are not read. *)
Theorem unknown_block_not_found tx h :
  closed tx = false -> hasBlock tx h = false ->
  let notFound :=
    Err (makeDbErr database.ErrBlockNotFound "block %s does not exist" None) in
  HasBlock tx h = (tx, Ok false)
  /\ FetchBlock tx h = (tx, notFound)
  /\ (forall offset len,
      FetchBlockRegion tx {| database.Hash := h; database.Offset := offset;
                             database.Len := len |} = (tx, notFound))
  /\ FetchBlockHeader tx h = (tx, notFound).
Proof.
  intros Hc Hno notFound.
  destruct (hasBlock_false _ _ Hno) as [Hidx Hget].
  assert (Hregion : forall offset len,
    FetchBlockRegion tx {| database.Hash := h; database.Offset := offset;
                           database.Len := len |} = (tx, notFound)).
  { intros offset len. unfold FetchBlockRegion.
    rewrite (open_checkClosed _ Hc), pendingRegion_pendingIndex.
    unfold fetchPendingRegion, fetchBlockRow. simpl. by rewrite Hidx, Hget. }
  split; [unfold HasBlock; by rewrite (open_checkClosed _ Hc), Hno|].
  split.
  { unfold FetchBlock, fetchBlockRow. by rewrite (open_checkClosed _ Hc), Hidx, Hget. }
  split; [exact Hregion|apply Hregion].
Qed.

Lemma fetchBlocksLoop_spec tx0 hashes : forall tx acc,
  onlyReads tx0 tx ->
  match (fetchBlocksLoop tx hashes acc).2 with
  | Ok blocks =>
      exists bs, blocks = acc ++ bs
        /\ Forall2 (fun h b => (FetchBlock tx0 h).2 = Ok b) hashes bs
  | Err e =>
      exists pre h post,
        hashes = pre ++ h :: post
        /\ Forall (fun h' => exists b, (FetchBlock tx0 h').2 = Ok b) pre
        /\ (FetchBlock tx0 h).2 = Err e
  | Panic m =>
      exists pre h post,
        hashes = pre ++ h :: post
        /\ Forall (fun h' => exists b, (FetchBlock tx0 h').2 = Ok b) pre
        /\ (FetchBlock tx0 h).2 = Panic m
  end.
Proof.
  induction hashes as [|h hashes IH]; intros tx acc Hr; simpl.
  - exists []. by rewrite app_nil_r.
  - assert (Hsame : (FetchBlock tx h).2 = (FetchBlock tx0 h).2).
    { destruct Hr as (evs & -> & _). apply FetchBlock_withTrace. }
    pose proof (FetchBlock_onlyReads tx h) as Hr1.
    destruct (FetchBlock tx h) as [tx1 [b|e|m]]; simpl in *.
    + specialize (IH tx1 (acc ++ [b]) (onlyReads_trans _ _ _ Hr Hr1)).
      destruct (fetchBlocksLoop tx1 hashes (acc ++ [b])).2 as [blocks|e|m].
      * destruct IH as (bs & -> & Hall). exists (b :: bs).
        split; [by rewrite <- app_assoc|]. by constructor.
      * destruct IH as (pre & h' & post & -> & Hpre & Hh).
        exists (h :: pre), h', post. split; [done|]. split; [|done].
        constructor; [eauto|done].
      * destruct IH as (pre & h' & post & -> & Hpre & Hh).
        exists (h :: pre), h', post. split; [done|]. split; [|done].
        constructor; [eauto|done].
    + exists [], h, hashes. by repeat split.
    + exists [], h, hashes. by repeat split.
Qed.

(** X18. On an open transaction [FetchBlocks] is [FetchBlock] for each
    hash in order: on success block [i] is what [FetchBlock] answers for
    hash [i]; it fails with what [FetchBlock] answers for the first hash
    that cannot be fetched, those before it having been fetched; no
    hashes give no blocks. *)
Theorem FetchBlocks_pointwise tx hashes :
  closed tx = false ->
  FetchBlocks tx [] = (tx, Ok [])
  /\ match (FetchBlocks tx hashes).2 with
     | Ok blocks => Forall2 (fun h b => (FetchBlock tx h).2 = Ok b) hashes blocks
     | Err e =>
         exists pre h post,
           hashes = pre ++ h :: post
           /\ Forall (fun h' => exists b, (FetchBlock tx h').2 = Ok b) pre
           /\ (FetchBlock tx h).2 = Err e
     | Panic m =>
         exists pre h post,
           hashes = pre ++ h :: post
           /\ Forall (fun h' => exists b, (FetchBlock tx h').2 = Ok b) pre
           /\ (FetchBlock tx h).2 = Panic m
     end.
Proof.
  intros Hc. unfold FetchBlocks. rewrite (open_checkClosed _ Hc). split; [done|].
  pose proof (fetchBlocksLoop_spec tx hashes tx [] (onlyReads_refl tx)) as Hl.
  destruct (fetchBlocksLoop tx hashes []).2 as [blocks|e|m]; [|done|done].
  by destruct Hl as (bs & -> & Hall).
Qed.

(** X19. A region of a pending block that lies within its bytes is
    answered from memory: [FetchBlockRegion] returns the [Len] bytes from
    [Offset] on of what was stored, and reads nothing; so the header of a
    pending block is the first [blockHdrSize] bytes of what [FetchBlock]
    answers for it. *)
Theorem FetchBlockRegion_pending_bytes tx region idx pb :
  closed tx = false ->
  pendingIndex tx (database.Hash region) = Some idx ->
  pendingBlockData tx !! idx = Some pb ->
  0 <= database.Offset region -> 0 <= database.Len region ->
  database.Offset region + database.Len region <= Z.of_nat (length (bytes pb)) < 2 ^ 32 ->
  FetchBlockRegion tx region
  = (tx, Ok (take (Z.to_nat (database.Len region))
               (drop (Z.to_nat (database.Offset region)) (bytes pb))))
  /\ length (take (Z.to_nat (database.Len region))
               (drop (Z.to_nat (database.Offset region)) (bytes pb)))
     = Z.to_nat (database.Len region)
  /\ FetchBlock tx (database.Hash region) = (tx, Ok (bytes pb))
  /\ (database.Offset region = 0 -> database.Len region = blockHdrSize ->
      FetchBlockHeader tx (database.Hash region)
      = (tx, Ok (take (Z.to_nat blockHdrSize) (bytes pb)))).
Proof.
  intros Hc Hidx Hpb Hoff Hlen Hbound.
  assert (Hregion : FetchBlockRegion tx region
    = (tx, Ok (take (Z.to_nat (database.Len region))
                 (drop (Z.to_nat (database.Offset region)) (bytes pb))))).
  { unfold FetchBlockRegion.
    rewrite (open_checkClosed _ Hc), pendingRegion_pendingIndex.
    unfold fetchPendingRegion. rewrite Hidx, Hpb. cbv zeta.
    rewrite !wrap32_small by lia.
    assert (Hb : (database.Offset region + database.Len region <? database.Offset region)
                 || (Z.of_nat (length (bytes pb))
                     <? database.Offset region + database.Len region) = false).
    { apply orb_false_iff. rewrite !Z.ltb_ge. lia. }
    rewrite Hb. do 3 f_equal. lia. }
  split; [exact Hregion|].
  split; [rewrite length_take, length_drop; lia|].
  split; [unfold FetchBlock; by rewrite (open_checkClosed _ Hc), Hidx, Hpb|].
  intros H0 Hhdr. unfold FetchBlockHeader.
  destruct region as [rh ro rl]. simpl in *. subst ro rl.
  rewrite Hregion. by rewrite drop_0.
Qed.

End block_round_trip.

(** ** Commit, rollback and close *)

Section commit_more.

Context `{Externals}.

Implicit Types (tx : transaction).

Lemma deletePendingFiles_withTrace fileNums : forall tx,
  exists evs,
    (deletePendingFiles tx fileNums).1 = withTrace (trace (db tx) ++ evs) tx
    /\ Forall (fun e => isRelease e = false) evs.
Proof.
  induction fileNums as [|f fileNums IH]; intros tx; simpl.
  - exists []. by rewrite app_nil_r, withTrace_id.
  - destruct (deleteFileFunc (store (db tx)) f).
    + exists [EvDeleteFile f]. split; [done|]. by apply Forall_singleton.
    + destruct (IH (emit (EvDeleteFile f) tx)) as (evs & -> & Hev).
      exists (EvDeleteFile f :: evs). split; [|by constructor].
      unfold withTrace. simpl. by rewrite <- app_assoc.
Qed.

Lemma nothingReleased_refl tx : nothingReleased tx tx.
Proof. split; [by repeat split|]. exists []. by rewrite app_nil_r. Qed.

Lemma nothingReleased_trans tx1 tx2 tx3 :
  nothingReleased tx1 tx2 -> nothingReleased tx2 tx3 -> nothingReleased tx1 tx3.
Proof.
  intros [(? & ? & ? & ? & ? & ?) (evs1 & Ht1 & Hev1)]
         [(? & ? & ? & ? & ? & ?) (evs2 & Ht2 & Hev2)].
  split; [repeat split; congruence|].
  exists (evs1 ++ evs2). split; [|by apply Forall_app].
  by rewrite Ht2, Ht1, app_assoc.
Qed.

Lemma nothingReleased_same tx tx' :
  sameHandles tx tx' -> db tx' = db tx -> nothingReleased tx tx'.
Proof.
  intros Hh Hdb. split; [done|]. exists []. by rewrite Hdb, app_nil_r.
Qed.

Lemma nothingReleased_emit tx e : isRelease e = false -> nothingReleased tx (emit e tx).
Proof.
  intros He. split; [by repeat split|]. exists [e]. split; [done|].
  by apply Forall_singleton.
Qed.


Lemma bucketPut_nothingReleased tx b k v : nothingReleased tx (bucketPut tx b k v).1.
Proof.
  unfold bucketPut. destruct (checkClosed tx); [apply nothingReleased_refl|].
  destruct (negb (writable tx)); [apply nothingReleased_refl|].
  by apply nothingReleased_same.
Qed.

Lemma handleRollback_nothingReleased tx f o : nothingReleased tx (handleRollback tx f o).
Proof.
  split; [by repeat split|]. exists [EvHandleRollback f o]. split; [done|].
  by apply Forall_singleton.
Qed.

Lemma writePendingBlocks_nothingReleased rollback blocks :
  (forall tx, nothingReleased tx (rollback tx)) ->
  forall tx, nothingReleased tx (writePendingBlocks tx rollback blocks).1.
Proof.
  intros Hrb. induction blocks as [|pb blocks IH]; intros tx; simpl;
    [apply nothingReleased_refl|].
  assert (Hstep : forall wc,
    nothingReleased tx
      (set_writeCursor wc (emit (EvWriteBlock (height pb) (bytes pb)) tx))).
  { intros wc. split; [by repeat split|].
    exists [EvWriteBlock (height pb) (bytes pb)]. split; [done|].
    by apply Forall_singleton. }
  destruct (writeBlock _ _ _ _) as [wc [location|err|msg]]; simpl.
  - pose proof (bucketPut_nothingReleased
                  (set_writeCursor wc (emit (EvWriteBlock (height pb) (bytes pb)) tx))
                  blockIdxBucket (hash pb) (serializeBlockLoc location)) as Hput.
    destruct (bucketPut _ _ _ _) as [tx1 [err|]]; simpl in *.
    + eapply nothingReleased_trans; [apply Hstep|].
      eapply nothingReleased_trans; [exact Hput|apply Hrb].
    + eapply nothingReleased_trans; [apply Hstep|].
      eapply nothingReleased_trans; [exact Hput|apply IH].
  - eapply nothingReleased_trans; [apply Hstep|apply Hrb].
  - apply Hstep.
Qed.

Lemma commitTx_nothingReleased tx : nothingReleased tx (commitTx tx).1.
Proof.
  unfold commitTx. cbv zeta.
  destruct (backendFlush _ _ _); simpl.
  - by apply nothingReleased_emit.
  - split; [by repeat split|]. exists [EvCommitTx]. split; [done|].
    by apply Forall_singleton.
Qed.

Lemma writePendingAndCommit_nothingReleased tx :
  nothingReleased tx (writePendingAndCommit tx).1.
Proof.
  unfold writePendingAndCommit.
  destruct (deletePendingFiles_withTrace (pendingDelFileNums tx) tx) as (evs & Hd & Hev).
  assert (Hdel : nothingReleased tx (deletePendingFiles tx (pendingDelFileNums tx)).1).
  { rewrite Hd. split; [by repeat split|]. by exists evs. }
  destruct (deletePendingFiles tx (pendingDelFileNums tx)) as [tx1 [err|]];
    simpl in Hdel; [exact Hdel|]. clear Hd.
  cbv zeta.
  match goal with
  | |- context [writePendingBlocks tx1 ?rb ?bl] =>
      pose proof (writePendingBlocks_nothingReleased rb bl
                    (fun t => handleRollback_nothingReleased t _ _) tx1) as Hw;
      destruct (writePendingBlocks tx1 rb bl) as [tx2 [[]|err|msg]]
  end; simpl in Hw.
  - match goal with
    | |- context [bucketPut tx2 ?b ?k ?v] =>
        pose proof (bucketPut_nothingReleased tx2 b k v) as Hput;
        destruct (bucketPut tx2 b k v) as [tx3 [err|]]
    end; simpl in Hput.
    + simpl. eapply nothingReleased_trans; [exact Hdel|].
      eapply nothingReleased_trans; [exact Hw|].
      eapply nothingReleased_trans; [exact Hput|apply handleRollback_nothingReleased].
    + eapply nothingReleased_trans; [exact Hdel|].
      eapply nothingReleased_trans; [exact Hw|].
      eapply nothingReleased_trans; [exact Hput|apply commitTx_nothingReleased].
  - simpl. eapply nothingReleased_trans; [exact Hdel|exact Hw].
  - simpl. eapply nothingReleased_trans; [exact Hdel|exact Hw].
Qed.


Lemma closeEvents_same tx tx' : sameHandles tx tx' -> closeEvents tx' = closeEvents tx.
Proof.
  intros (_ & _ & Hw & Hs & Hro & Hrw). unfold closeEvents.
  by rewrite Hw, Hs, Hro, Hrw.
Qed.






Lemma writePendingBlocks_ok rollback blocks : forall tx tx',
  writePendingBlocks tx rollback blocks = (tx', Ok tt) ->
  trace (db tx') = trace (db tx) ++ (writeEvent <$> blocks)
  /\ cache (db tx') = cache (db tx)
  /\ (forall pb, pb ∈ blocks ->
      is_Some (pendingKeys tx' !! bucketizedKey blockIdxBucketID (hash pb)))
  /\ (forall k, is_Some (pendingKeys tx !! k) -> is_Some (pendingKeys tx' !! k))
  /\ (forall k, pendingRemove tx !! k = None -> pendingRemove tx' !! k = None)
  /\ closed tx' = closed tx /\ writable tx' = writable tx.
Proof.
  induction blocks as [|pb blocks IH]; intros tx tx'; simpl.
  - intros [= <-]. rewrite app_nil_r. repeat split; try done.
    intros pb Hin. by apply elem_of_nil in Hin.
  - destruct (writeBlock _ _ _ _) as [wc [location|err|msg]]; [|done|done].
    unfold bucketPut, checkClosed. simpl.
    destruct (closed tx) eqn:Hc; [done|].
    destruct (writable tx) eqn:Hw; [|done]. simpl.
    intros Hrest. apply IH in Hrest as (Ht & Hca & Hidx & Hkeep & Hrem & Hc' & Hw').
    split; [rewrite Ht; simpl; by rewrite <- app_assoc|].
    split; [by rewrite Hca|].
    split.
    { intros pb' Hin. apply elem_of_cons in Hin as [->|Hin]; [|by apply Hidx].
      apply Hkeep. rewrite putKey_pendingKeys. simpl. rewrite lookup_insert_eq. eauto. }
    split.
    { intros k Hk. apply Hkeep. rewrite putKey_pendingKeys. simpl.
      destruct (decide (k = bucketizedKey blockIdxBucketID (hash pb))) as [->|Hne].
      - rewrite lookup_insert_eq. eauto.
      - by rewrite lookup_insert_ne. }
    split.
    { intros k Hk. apply Hrem. rewrite putKey_pendingRemove. simpl.
      destruct (decide (k = bucketizedKey blockIdxBucketID (hash pb))) as [->|Hne].
      - by rewrite lookup_delete_eq.
      - by rewrite lookup_delete_ne. }
    by rewrite Hc', Hw'.
Qed.

Lemma writePendingBlocks_err rollback blocks :
  (forall t, cache (db (rollback t)) = cache (db t)) ->
  forall tx tx' e,
    writePendingBlocks tx rollback blocks = (tx', Err e) ->
    exists tx0, tx' = rollback tx0 /\ cache (db tx0) = cache (db tx).
Proof.
  intros Hrb. induction blocks as [|pb blocks IH]; intros tx tx' e; simpl; [done|].
  destruct (writeBlock _ _ _ _) as [wc [location|err|msg]].
  - unfold bucketPut, checkClosed. simpl.
    destruct (closed tx).
    { intros [= <- <-]. by eexists. }
    destruct (writable tx); simpl.
    + intros Hrest. apply IH in Hrest as (tx0 & -> & Hca). by exists tx0.
    + intros [= <- <-]. by eexists.
  - intros [= <- <-]. by eexists.
  - done.
Qed.

Lemma writePendingAndCommit_ok tx tx' :
  writePendingAndCommit tx = (tx', Ok tt) ->
  (closed tx = false /\ writable tx = true)
  /\ trace (db tx')
     = trace (db tx) ++ (EvDeleteFile <$> pendingDelFileNums tx)
         ++ (writeEvent <$> pendingBlockData tx) ++ [EvCommitTx]
  /\ cacheRoot (cache (db tx')) !! bucketizedKey metadataBucketID writeLocKeyName
     = Some (serializeWriteRow (curFileNum (writeCursor (store (db tx'))))
               (curOffset (writeCursor (store (db tx')))))
  /\ (forall pb, pb ∈ pendingBlockData tx ->
      is_Some (cacheRoot (cache (db tx')) !! bucketizedKey blockIdxBucketID (hash pb)))
  /\ (forall k, is_Some (pendingKeys tx !! k) ->
      is_Some (cacheRoot (cache (db tx')) !! k))
  /\ (forall k, is_Some (cacheRoot (cache (db tx)) !! k) ->
      pendingRemove tx !! k = None ->
      is_Some (cacheRoot (cache (db tx')) !! k)).
Proof.
  intros Hwc. unfold writePendingAndCommit in Hwc.
  destruct (deletePendingFiles_withTrace (pendingDelFileNums tx) tx) as (evs & Hd & _).
  destruct (deletePendingFiles_trace (pendingDelFileNums tx) tx)
    as (done_ & _ & Htr & Hres).
  destruct (deletePendingFiles tx (pendingDelFileNums tx)) as [tx1 [err|]];
    [done|]. cbn [fst snd] in Hd, Htr, Hres. subst done_.
  cbv zeta in Hwc.
  destruct (writePendingBlocks tx1 _ (pendingBlockData tx1))
    as [tx2 [[]|err|msg]] eqn:Hw; [|done|done].
  apply writePendingBlocks_ok in Hw as (Ht2 & Hca2 & Hidx & Hkeep & Hrem & Hcl & Hwr).
  revert Hwc. unfold bucketPut, checkClosed.
  destruct (closed tx2) eqn:Hc2; [done|].
  destruct (writable tx2) eqn:Hw2; [|done]. cbn [negb].
  unfold commitTx. cbv zeta.
  destruct (backendFlush _ _ _); [done|]. intros [= <-].
  assert (Hdata : pendingBlockData tx1 = pendingBlockData tx) by (by rewrite Hd).
  assert (Hpk : pendingKeys tx1 = pendingKeys tx) by (by rewrite Hd).
  assert (Hpr : pendingRemove tx1 = pendingRemove tx) by (by rewrite Hd).
  assert (Hroot : cache (db tx1) = cache (db tx)) by (by rewrite Hd).
  split.
  { rewrite Hd in Hcl, Hwr. by split. }
  split.
  { simpl. rewrite Ht2, Htr, Hdata, <- !app_assoc. done. }
  simpl. unfold treap.Put, treap.Delete. split.
  { apply lookup_union_Some_l. apply lookup_insert_eq. }
  split.
  { intros pb Hin. rewrite <- Hdata in Hin. destruct (Hidx pb Hin) as [v Hv].
    destruct (decide (bucketizedKey blockIdxBucketID (hash pb)
                      = bucketizedKey metadataBucketID writeLocKeyName)) as [Heq|Hne].
    - rewrite Heq. eexists. apply lookup_union_Some_l. apply lookup_insert_eq.
    - exists v. apply lookup_union_Some_l. by rewrite lookup_insert_ne. }
  split.
  { intros k Hk. rewrite <- Hpk in Hk. destruct (Hkeep k Hk) as [v Hv].
    destruct (decide (k = bucketizedKey metadataBucketID writeLocKeyName)) as [->|Hne].
    - eexists. apply lookup_union_Some_l. apply lookup_insert_eq.
    - exists v. apply lookup_union_Some_l. by rewrite lookup_insert_ne. }
  intros k [v Hk] Hnr. rewrite <- Hpr in Hnr. apply Hrem in Hnr.
  rewrite Hca2, Hroot.
  match goal with
  | |- is_Some ((?m1 ∪ ?m2) !! k) =>
      destruct (m1 !! k) as [v1|] eqn:H1;
      [exists v1; by apply lookup_union_Some_l|]
  end.
  exists v. rewrite lookup_union_r by done.
  apply lookup_difference_Some. split; [done|].
  destruct (decide (k = bucketizedKey metadataBucketID writeLocKeyName)) as [->|Hne].
  - apply lookup_delete_eq.
  - by rewrite lookup_delete_ne.
Qed.

(** X21. When [writePendingAndCommit] succeeds the transaction was open
    and writable, and the calls it made are the pending file deletions in
    order, then one [writeBlock] for each pending block in order, then
    the commit of the cache.  The new root of the cache holds the write
    cursor of the store under [writeLocKeyName] in the metadata bucket,
    an index entry for every block written, every key that was pending,
    and every committed key that was not pending removal. *)
Theorem writePendingAndCommit_success tx tx' :
  writePendingAndCommit tx = (tx', Ok tt) ->
  (closed tx = false /\ writable tx = true)
  /\ trace (db tx')
     = trace (db tx) ++ (EvDeleteFile <$> pendingDelFileNums tx)
         ++ (writeEvent <$> pendingBlockData tx) ++ [EvCommitTx]
  /\ cacheRoot (cache (db tx')) !! bucketizedKey metadataBucketID writeLocKeyName
     = Some (serializeWriteRow (curFileNum (writeCursor (store (db tx'))))
               (curOffset (writeCursor (store (db tx')))))
  /\ (forall pb, pb ∈ pendingBlockData tx ->
      is_Some (cacheRoot (cache (db tx')) !! bucketizedKey blockIdxBucketID (hash pb)))
  /\ (forall k, is_Some (pendingKeys tx !! k) ->
      is_Some (cacheRoot (cache (db tx')) !! k))
  /\ (forall k, is_Some (cacheRoot (cache (db tx)) !! k) ->
      pendingRemove tx !! k = None ->
      is_Some (cacheRoot (cache (db tx')) !! k)).
Proof. apply writePendingAndCommit_ok. Qed.

(** X22. A failed [writePendingAndCommit] leaves the cache as it was,
    and it stopped at one of three places: at a file deletion that
    failed, with no block written; after a failed [writeBlock] or [Put],
    with the append log rolled back to the write position it had before
    the first append; or at the commit of the cache. *)
Theorem writePendingAndCommit_failure tx tx' e :
  writePendingAndCommit tx = (tx', Err e) ->
  cache (db tx') = cache (db tx)
  /\ ((exists done_ f,
         (done_ ++ [f]) `prefix_of` pendingDelFileNums tx
         /\ trace (db tx') = trace (db tx) ++ (EvDeleteFile <$> done_ ++ [f])
         /\ store (db tx') = store (db tx))
      \/ (last (trace (db tx'))
          = Some (EvHandleRollback (curFileNum (writeCursor (store (db tx))))
                    (curOffset (writeCursor (store (db tx)))))
          /\ writeCursor (store (db tx')) = writeCursor (store (db tx)))
      \/ last (trace (db tx')) = Some EvCommitTx).
Proof.
  intros Hwc. unfold writePendingAndCommit in Hwc.
  destruct (deletePendingFiles_withTrace (pendingDelFileNums tx) tx) as (evs & Hd & _).
  destruct (deletePendingFiles_trace (pendingDelFileNums tx) tx)
    as (done_ & Hpre & Htr & Hres).
  destruct (deletePendingFiles tx (pendingDelFileNums tx)) as [tx1 [err|]];
    cbn [fst snd] in Hd, Htr, Hres.
  - injection Hwc as <- <-. split; [by rewrite Hd|]. left.
    destruct Hres as [f Hf]. apply last_Some in Hf as [l' ->].
    exists l', f. split; [done|]. split; [done|]. by rewrite Hd.
  - assert (Hstore : store (db tx1) = store (db tx)) by (by rewrite Hd).
    assert (Hroot : cache (db tx1) = cache (db tx)) by (by rewrite Hd).
    assert (Hcur : forall t,
      writeCursor (store (db (handleRollback t
                                 (curFileNum (writeCursor (store (db tx1))))
                                 (curOffset (writeCursor (store (db tx1)))))))
      = writeCursor (store (db tx))).
    { intros t. simpl. rewrite Hstore. by destruct (writeCursor (store (db tx))). }
    cbv zeta in Hwc.
    destruct (writePendingBlocks tx1 _ (pendingBlockData tx1))
      as [tx2 [[]|err|msg]] eqn:Hw; [| |done].
    + apply writePendingBlocks_ok in Hw as (_ & Hca2 & _).
      revert Hwc. unfold bucketPut, checkClosed.
      destruct (closed tx2) eqn:Hc2.
      { intros [= <- <-]. split; [simpl; congruence|]. right. left.
        split; [|apply Hcur]. rewrite Hstore. simpl. apply last_snoc. }
      destruct (writable tx2) eqn:Hw2; cbn [negb].
      * unfold commitTx. cbv zeta. destruct (backendFlush _ _ _); [|done].
        intros [= <- <-]. split; [simpl; congruence|]. right. right.
        simpl. apply last_snoc.
      * intros [= <- <-]. split; [simpl; congruence|]. right. left.
        split; [|apply Hcur]. rewrite Hstore. simpl. apply last_snoc.
    + injection Hwc as <- <-.
      apply writePendingBlocks_err in Hw as (tx0 & -> & Hca); [|done].
      split; [simpl; congruence|]. right. left.
      split; [|apply Hcur]. rewrite Hstore. simpl. apply last_snoc.
Qed.

Lemma close_writable tx : writable (close tx) = writable tx.
Proof.
  unfold close, closeMdbTxs.
  destruct tx as [? ? w ? s ? ? ? ? ? ? ro rw]; simpl.
  by destruct ro, rw, s, w.
Qed.

(** X23. [Commit] on an open transaction that is not managed closes it
    whatever the outcome.  On a read-only one it fails with
    [TxNotWritable] and does nothing else.  When it succeeds, the calls it
    made are, in this order: the pending file deletions, the writes of
    the pending blocks, the commit of the cache, the commit of the mdbx
    read-write handle if one is held, and then those of [close]. *)
Theorem Commit_order tx :
  managed tx = false -> closed tx = false ->
  closed (Commit tx).1 = true
  /\ (writable tx = false ->
      Commit tx
      = (close tx, Err (makeDbErr database.ErrTxNotWritable
                          "Commit requires a writable database transaction" None)))
  /\ ((Commit tx).2 = Ok tt ->
      writable tx = true
      /\ trace (db (Commit tx).1)
         = trace (db tx) ++ (EvDeleteFile <$> pendingDelFileNums tx)
             ++ (writeEvent <$> pendingBlockData tx) ++ [EvCommitTx]
             ++ match mdbRwTx tx with Some _ => [EvMdbCommit] | None => [] end
             ++ closeEvents tx).
Proof.
  intros Hm Hc.
  assert (Hclosed : forall tx1, closed (close tx1) = true)
    by (intros tx1; by destruct (close_released tx1)).
  unfold Commit. rewrite Hm, (open_checkClosed _ Hc).
  destruct (writable tx) eqn:Hw; cbn [negb].
  2:{ cbn [fst snd]. split; [apply Hclosed|]. split; [done|]. intros [=]. }
  pose proof (writePendingAndCommit_nothingReleased tx) as [Hh _].
  destruct (writePendingAndCommit tx) as [tx1 [[]|e|m]] eqn:E; cbn [fst snd] in Hh.
  - destruct (writePendingAndCommit_ok tx tx1 E) as (_ & Htr & _).
    pose proof (closeEvents_same _ _ Hh) as Hce.
    destruct Hh as (_ & _ & _ & _ & _ & Hrw).
    destruct (mdbRwTx tx1) as [hdl|] eqn:Hrw1; rewrite <- Hrw.
    + assert (Hev : trace (db (close (emit EvMdbCommit tx1)))
                    = trace (db tx) ++ (EvDeleteFile <$> pendingDelFileNums tx)
                        ++ (writeEvent <$> pendingBlockData tx) ++ [EvCommitTx]
                        ++ [EvMdbCommit] ++ closeEvents tx).
      { destruct (close_trace (emit EvMdbCommit tx1)) as (_ & _ & ->).
        change (closeEvents (emit EvMdbCommit tx1)) with (closeEvents tx1).
        rewrite Hce. cbn [emit set_db db trace]. rewrite Htr, <- !app_assoc. done. }
      destruct (mdbCommit hdl); cbn [fst snd].
      * split; [apply Hclosed|]. split; [done|]. intros [=].
      * split; [apply Hclosed|]. split; [done|]. intros _. by split.
    + cbn [fst snd]. split; [apply Hclosed|]. split; [done|]. intros _.
      split; [done|].
      destruct (close_trace tx1) as (_ & _ & ->).
      rewrite Hce, Htr, <- !app_assoc. done.
  - cbn [fst snd]. split; [apply Hclosed|]. split; [done|]. intros [=].
  - cbn [fst snd]. split; [apply Hclosed|]. split; [done|]. intros [=].
Qed.

(** X24. [close] drops the handles and the snapshot once and for all, but
    not the locks: called on what it left behind it makes no call but
    the release of the locks, again. *)
Theorem close_twice tx :
  trace (db (close tx)) = trace (db tx) ++ closeEvents tx
  /\ closeEvents (close tx)
     = [EvCloseLockRUnlock] ++ (if writable tx then [EvWriteLockUnlock] else [])
  /\ trace (db (close (close tx)))
     = trace (db (close tx)) ++ closeEvents (close tx).
Proof.
  destruct (close_trace tx) as (_ & _ & Ht).
  destruct (close_trace (close tx)) as (_ & _ & Ht2).
  destruct (close_released tx) as (_ & _ & _ & _ & _ & _ & Hs & Hro & Hrw).
  split; [exact Ht|]. split; [|exact Ht2].
  unfold closeEvents. by rewrite Hs, Hro, Hrw, close_writable.
Qed.

End commit_more.

(** ** The mdbx handles *)

Section mdbx_props.

Context `{Externals}.

Implicit Types (tx : transaction).

(** X25. [initMDBX_txs] leaves the transaction as it was when the handle
    cannot be begun; otherwise the transaction holds the one handle that
    fits it, read-write when it is writable and read-only when not,
    whatever handles it held before, and [close] rolls back that one
    handle and no other. *)
Theorem initMDBX_txs_one_handle (rw ro : result mdbTx) tx :
  match (initMDBX_txs rw ro tx).2 with
  | Ok _ =>
      let tx' := (initMDBX_txs rw ro tx).1 in
      (exists hdl,
          if writable tx
          then rw = Ok hdl /\ mdbRwTx tx' = Some hdl /\ mdbRoTx tx' = None
          else ro = Ok hdl /\ mdbRoTx tx' = Some hdl /\ mdbRwTx tx' = None)
      /\ db tx' = db tx
      /\ closeEvents tx'
         = [EvMdbRollback]
             ++ match snapshot tx with Some _ => [EvSnapshotRelease] | None => [] end
             ++ [EvCloseLockRUnlock]
             ++ (if writable tx then [EvWriteLockUnlock] else [])
      /\ mdbRoTx (close tx') = None /\ mdbRwTx (close tx') = None
  | _ => (initMDBX_txs rw ro tx).1 = tx
  end.
Proof.
  unfold initMDBX_txs, closeEvents.
  destruct tx as [? ? w ? s ? ? ? ? ? ? ro0 rw0]; simpl.
  destruct w; [destruct rw as [hdl| |]|destruct ro as [hdl| |]]; simpl; try done;
    (split; [by exists hdl|]); (split; [done|]); (split; [done|]);
    unfold close, closeMdbTxs; simpl; by destruct s.
Qed.

End mdbx_props.

(** ** Instances of the further properties *)

Lemma putKey_overlay_witness :
  fetchKey (putKey (deleteKey exTx (idxKey exHashA) true) (idxKey exHashA) [x01])
    (idxKey exHashA) = Some [x01]
  /\ hasKey (putKey (deleteKey exTx (idxKey exHashA) true) (idxKey exHashA) [x01])
       (idxKey exHashA) = true.
Proof.
  destruct (putKey_overlay (deleteKey exTx (idxKey exHashA) true)
              (idxKey exHashA) [x01] (idxKey exHashA) eq_refl) as [Hf Hh].
  rewrite decide_True in Hf by done. rewrite decide_True in Hh by done. by split.
Defined.

Lemma deleteKey_overlay_witness :
  fetchKey (deleteKey exTx (idxKey exHashA) true) (idxKey exHashA) = None
  /\ hasKey (deleteKey exTx (idxKey exHashA) true) (idxKey exHashA) = false.
Proof.
  destruct (deleteKey_overlay exTx (idxKey exHashA) true (idxKey exHashA) eq_refl)
    as [Hf Hh].
  rewrite decide_True in Hf by done. rewrite decide_True in Hh by done. by split.
Defined.

Lemma readonly_ignores_pending_witness :
  fetchKey (deleteKey exTxRO (idxKey exHashA) true) (idxKey exHashA)
  = fetchKey exTxRO (idxKey exHashA)
  /\ hasKey (putKey exTxRO (idxKey exHashB) [x01]) (idxKey exHashB)
     = hasKey exTxRO (idxKey exHashB).
Proof.
  destruct (readonly_ignores_pending exTxRO (idxKey exHashA) [x01] true
              (idxKey exHashA) eq_refl) as [_ [Hf _]].
  destruct (readonly_ignores_pending exTxRO (idxKey exHashB) [x01] true
              (idxKey exHashB) eq_refl) as [[_ Hh] _].
  by split.
Defined.

Lemma removeActiveIter_once_witness :
  removeActiveIter [1; 2; 3; 4; 5]%nat 3%nat = [1; 2; 4; 5]%nat
  /\ 3%nat ∉ removeActiveIter [1; 2; 3; 4; 5]%nat 3%nat.
Proof.
  assert (Hpre : 3%nat ∉ [1; 2]%nat)
    by (apply (bool_decide_unpack _); vm_compute; exact I).
  assert (Hpost : 3%nat ∉ [4; 5]%nat)
    by (apply (bool_decide_unpack _); vm_compute; exact I).
  exact (removeActiveIter_once [1; 2]%nat [4; 5]%nat 3%nat Hpre Hpost).
Defined.

Lemma removeActiveIter_adjacent_witness :
  removeActiveIter [1; 2]%nat 3%nat = [1; 2]%nat
  /\ removeActiveIter [1; 2; 3; 3; 4]%nat 3%nat
     = [1; 2]%nat ++ 3%nat :: removeActiveIter [4]%nat 3%nat.
Proof.
  assert (Hpre : 3%nat ∉ [1; 2]%nat)
    by (apply (bool_decide_unpack _); vm_compute; exact I).
  exact (removeActiveIter_adjacent [1; 2]%nat [4]%nat 3%nat Hpre).
Defined.

Lemma Swap_exchanges_witness :
  exists s', Swap exFetchList 0 1 = Some s'
    /\ Len s' = Len exFetchList
    /\ s' !! 0%nat = exFetchList !! 1%nat
    /\ s' ≡ₚ exFetchList
    /\ Swap s' 0 1 = Some exFetchList.
Proof.
  assert (H0 : (0 < length exFetchList)%nat) by (simpl; lia).
  assert (H1 : (1 < length exFetchList)%nat) by (simpl; lia).
  destruct (Swap_exchanges exFetchList 0 1 H0 H1)
    as (s' & Hs & Hlen & Hi & _ & _ & Hperm & Hback).
  exists s'. repeat split; assumption.
Defined.

Lemma nextBucketID_increments_witness :
  exists n tx' id,
    bigEndianUint32 (curBucketID exCounterKey exTx) = Some n
    /\ nextBucketID exCounterKey exTx = (tx', Ok id)
    /\ length id = 4%nat
    /\ bigEndianUint32 id = Some (wrap32 (n + 1))
    /\ curBucketID exCounterKey tx' = id.
Proof.
  assert (Hlen : (4 <= length (curBucketID exCounterKey exTx))%nat)
    by (vm_compute; lia).
  destruct (proj2 (nextBucketID_increments exCounterKey exTx eq_refl) Hlen)
    as (n & tx' & id & Hn & Hnext & Hid & Hdec & Hcur & _).
  exists n, tx', id. repeat split; assumption.
Defined.

Lemma nextBucketID_consecutive_witness :
  exists tx' ids,
    nextBucketIDs exCounterKey 3 exTx = (tx', Ok ids)
    /\ ids = (fun i => bigEndianPutUint32 (wrap32 (1 + i))) <$> seqZ 1 3
    /\ NoDup ids.
Proof.
  assert (Hn : bigEndianUint32 (curBucketID exCounterKey exTx) = Some 1)
    by (vm_compute; reflexivity).
  destruct (nextBucketID_consecutive exCounterKey 3 exTx 1 eq_refl Hn)
    as (tx' & ids & Hids & Heq & Hnd).
  exists tx', ids. split; [exact Hids|]. split; [exact Heq|].
  apply Hnd. vm_compute. discriminate.
Defined.

Lemma only_commit_writes_witness :
  noWrites exTx
    (performAll exTx
       [CallStoreBlock exBlockB; CallFetchBlock exHashA; CallPruneBlocks 512;
        CallRollback]).
Proof.
  apply only_commit_writes.
  rewrite !not_elem_of_cons. repeat split; try discriminate. apply not_elem_of_nil.
Defined.

Lemma pendingBlocks_indexed_witness :
  pendingBlocksOk
    (performAll exTx [CallStoreBlock exBlockB; CallFetchBlock exHashB;
                      CallPruneBlocks 512])
  /\ NoDup (hash <$> pendingBlockData
                       (performAll exTx [CallStoreBlock exBlockB; CallFetchBlock exHashB;
                                         CallPruneBlocks 512])).
Proof.
  destruct (pendingBlocks_indexed exTx
              [CallStoreBlock exBlockB; CallFetchBlock exHashB; CallPruneBlocks 512]
              (pendingBlocksOk_fresh exTx eq_refl eq_refl)) as (Hok & Hnd & _).
  by split.
Defined.

Lemma StoreBlock_then_fetch_witness :
  exists tx',
    StoreBlock exTx exBlockB = (tx', Ok tt)
    /\ HasBlock tx' exHashB = (tx', Ok true)
    /\ FetchBlock tx' exHashB = (tx', Ok (replicate 100 x42))
    /\ hasBlock tx' exHashC = hasBlock exTx exHashC.
Proof.
  assert (Hno : hasBlock exTx (btcutil.Hash exBlockB) = false) by reflexivity.
  assert (Hne : exHashC <> btcutil.Hash exBlockB) by discriminate.
  destruct (StoreBlock_then_fetch exTx exBlockB (replicate 100 x42)
              eq_refl eq_refl Hno eq_refl (pendingBlocksOk_fresh exTx eq_refl eq_refl))
    as (tx' & Hs & Hh & Hf & _ & Hother).
  exists tx'. split; [exact Hs|]. split; [exact Hh|]. split; [exact Hf|].
  exact (proj1 (Hother exHashC Hne)).
Defined.

Lemma unknown_block_not_found_witness :
  FetchBlock exTx exHashC
  = (exTx, Err (makeDbErr database.ErrBlockNotFound "block %s does not exist" None))
  /\ FetchBlockHeader exTx exHashC
     = (exTx, Err (makeDbErr database.ErrBlockNotFound "block %s does not exist" None)).
Proof.
  assert (Hno : hasBlock exTx exHashC = false) by reflexivity.
  destruct (unknown_block_not_found exTx exHashC eq_refl Hno) as (_ & Hf & _ & Hh).
  by split.
Defined.

Lemma FetchBlocks_pointwise_witness :
  FetchBlocks exTxB [] = (exTxB, Ok [])
  /\ match (FetchBlocks exTxB [exHashB; exHashC]).2 with
     | Ok blocks =>
         Forall2 (fun h b => (FetchBlock exTxB h).2 = Ok b) [exHashB; exHashC] blocks
     | Err e =>
         exists pre h post,
           [exHashB; exHashC] = pre ++ h :: post
           /\ Forall (fun h' => exists b, (FetchBlock exTxB h').2 = Ok b) pre
           /\ (FetchBlock exTxB h).2 = Err e
     | Panic m =>
         exists pre h post,
           [exHashB; exHashC] = pre ++ h :: post
           /\ Forall (fun h' => exists b, (FetchBlock exTxB h').2 = Ok b) pre
           /\ (FetchBlock exTxB h).2 = Panic m
     end.
Proof. apply FetchBlocks_pointwise. reflexivity. Defined.

Lemma FetchBlockRegion_pending_bytes_witness :
  FetchBlockRegion exTxB exRegionB
  = (exTxB, Ok (take (Z.to_nat 20) (drop (Z.to_nat 10) (replicate 100 x42)))).
Proof.
  assert (Hidx : pendingIndex exTxB (database.Hash exRegionB) = Some 0%nat)
    by (vm_compute; reflexivity).
  assert (Hpb : pendingBlockData exTxB !! 0%nat
                = Some {| hash := exHashB; bytes := replicate 100 x42; height := 7 |})
    by reflexivity.
  assert (Hb : database.Offset exRegionB + database.Len exRegionB
               <= Z.of_nat (length (replicate 100 x42)) < 2 ^ 32)
    by (vm_compute; split; [discriminate|reflexivity]).
  assert (H0 : 0 <= database.Offset exRegionB) by (simpl; lia).
  assert (H1 : 0 <= database.Len exRegionB) by (simpl; lia).
  exact (proj1 (FetchBlockRegion_pending_bytes exTxB exRegionB 0 _ eq_refl
                  Hidx Hpb H0 H1 Hb)).
Defined.


Lemma writePendingAndCommit_success_witness :
  trace (db (writePendingAndCommit exTxB).1)
  = trace (db exTxB) ++ (EvDeleteFile <$> pendingDelFileNums exTxB)
      ++ (writeEvent <$> pendingBlockData exTxB) ++ [EvCommitTx]
  /\ is_Some (cacheRoot (cache (db (writePendingAndCommit exTxB).1)) !! idxKey exHashB).
Proof.
  assert (Hok : (writePendingAndCommit exTxB).2 = Ok tt) by (vm_compute; reflexivity).
  assert (Hin : {| hash := exHashB; bytes := replicate 100 x42; height := 7 |}
                ∈ pendingBlockData exTxB) by (apply list_elem_of_singleton; reflexivity).
  destruct (writePendingAndCommit exTxB) as [tx' r] eqn:E.
  cbn [fst snd] in Hok |- *. subst r.
  destruct (writePendingAndCommit_success exTxB tx' E) as (_ & Htr & _ & Hidx & _).
  split; [exact Htr|]. exact (Hidx _ Hin).
Defined.

Lemma writePendingAndCommit_failure_witness :
  cache (db (writePendingAndCommit exTxFlushFails).1) = cache (db exTxFlushFails).
Proof.
  assert (Herr : (writePendingAndCommit exTxFlushFails).2 = Err (GoError "flush failed"))
    by (vm_compute; reflexivity).
  destruct (writePendingAndCommit exTxFlushFails) as [tx' r] eqn:E.
  cbn [fst snd] in Herr |- *. subst r.
  exact (proj1 (writePendingAndCommit_failure exTxFlushFails tx' _ E)).
Defined.

Lemma Commit_order_witness :
  closed (Commit exTxB).1 = true
  /\ trace (db (Commit exTxB).1)
     = trace (db exTxB) ++ (EvDeleteFile <$> pendingDelFileNums exTxB)
         ++ (writeEvent <$> pendingBlockData exTxB) ++ [EvCommitTx]
         ++ match mdbRwTx exTxB with Some _ => [EvMdbCommit] | None => [] end
         ++ closeEvents exTxB.
Proof.
  assert (Hok : (Commit exTxB).2 = Ok tt) by (vm_compute; reflexivity).
  destruct (Commit_order exTxB eq_refl eq_refl) as (Hc & _ & Hs).
  split; [exact Hc|]. exact (proj2 (Hs Hok)).
Defined.
